(** * Cantera spray fork: continuation driver (Sim1D.h) and flow closures (StFlow.h)

    A shallow embedding of the inline member functions of
    [include/cantera/oneD/Sim1D.h] and [include/cantera/oneD/StFlow.h].

    Numbers.  A C++ [double] is modelled by a real number of the Standard
    Library: arithmetic is exact and rounding is outside the model.
    [std::abs], [std::max], [std::sqrt], [std::exp] and [std::log] are
    [Rabs], [Rmax], [sqrt], [exp] and [ln]; [std::pow] is [Rpower].  The
    reals have no NaN and no infinity, so these definitions give the value
    of the code only where every operation stays finite: a non-zero
    divisor, a positive argument of [std::log], a positive base of
    [std::pow].  The spray closures, where the code can leave that range,
    are also given over doubles with their exceptional values (module
    [Ieee]), and the two are related on the finite range.  A [size_t] is a
    natural number where it only indexes an array, and an integer modulo
    2^64 where the code multiplies it.

    Arrays.  A [std::vector<double>] and a [double*] buffer are lists.  In
    the stateful code of Sim1D every read goes through the partial lookup
    [l !! i]; a read or write outside the buffer (undefined in C++, or an
    assertion failure in [value]/[setValue]) makes the operation return
    [None].  The pure closures of StFlow read with the total lookup
    [l !!! i]. *)

From Stdlib Require Import Reals Lra Lia ZArith String.
From stdpp Require Import base option list strings.

Local Open Scope R_scope.

#[global] Instance R_inhabited : Inhabited R := populate 0.

(** The comparisons of doubles, as decidable propositions. *)
#[global] Instance Rlt_decision (a b : R) : Decision (a < b) := Rlt_dec a b.
#[global] Instance Rle_decision (a b : R) : Decision (a <= b) := Rle_dec a b.
#[global] Instance Rgt_decision (a b : R) : Decision (a > b) := Rgt_dec a b.
#[global] Instance Req_decision (a b : R) : Decision (a = b) := Req_dec_T a b.

(** ** Outcomes of an API call *)

(** The error kinds of the error-handling design. *)
Inductive ErrorKind :=
  | ConvergenceFailure
  | InvalidInput
  | StateInconsistency
  | IOFailure.

(** A call either returns normally or raises. *)
Inductive outcome (A : Type) :=
  | Returned (a : A)
  | Raised (e : ErrorKind).
Arguments Returned {A} a.
Arguments Raised {A} e.

(** ** Constants of StFlow.h *)

Definition c_offset_U : nat := 0.
Definition c_offset_V : nat := 1.
Definition c_offset_T : nat := 2.
Definition c_offset_L : nat := 3.
Definition c_offset_Y : nat := 4.

Definition c_offset_Ul : nat := 0.
Definition c_offset_vl : nat := 1.
Definition c_offset_Tl : nat := 2.
Definition c_offset_ml : nat := 3.
Definition c_offset_nl : nat := 4.

(** The result of an operation on size_t: the value modulo 2^64. *)
Definition size_t (n : Z) : Z := (n mod 2 ^ 64)%Z.

Definition mmHg2Pa : R := 133322365 / 1000000.
Definition bar2Pa : R := 100000.

(** [std::numeric_limits<double>::min()], the smallest positive normal
    double, and its square root, the threshold of the spray closures. *)
Definition DBL_MIN : R := / 2 ^ 1022.
Definition sqrt_dbl_min : R := sqrt DBL_MIN.

(** Modelled from the spec: [Pi] of ct_defs.h, which is not among the
    sources; the closures use it as the circle constant. *)
Definition Pi : R := PI.

(** ** Domains *)

(** Modelled from the spec: Domain1D.h is not among the sources.  A domain
    holds its number of components, its number of points and the index of
    its first slot in the global solution; component [n] of point [j] sits
    at offset [m_nv * j + n], the layout [updateBounds] of Sim1D.h uses. *)
Record Domain1D := mkDomain1D {
  m_nv : nat;
  m_points : nat;
  m_iloc : nat
}.

(** Modelled from the spec: the accessors of Domain1D. *)
Definition nComponents (d : Domain1D) : nat := m_nv d.

(** Modelled from the spec: the number of grid points of a domain. *)
Definition nPoints (d : Domain1D) : nat := m_points d.

(** Modelled from the spec: the first global slot of a domain. *)
Definition loc (d : Domain1D) : nat := m_iloc d.

(** Modelled from the spec: [Domain1D::index], the offset of component [n]
    at point [j] inside the slice of the domain. *)
Definition index (d : Domain1D) (n j : nat) : nat := (m_nv d * j + n)%nat.

(** Modelled from the spec: [StFlow::componentIndex] is defined outside the
    header.  The four leading components have the names and offsets of the
    solution-component table; species names need the thermo object and are
    not modelled ([None] stands for [npos]). *)
Definition componentIndex (name : string) : option nat :=
  if decide (name = "u"%string) then Some c_offset_U
  else if decide (name = "V"%string) then Some c_offset_V
  else if decide (name = "T"%string) then Some c_offset_T
  else if decide (name = "lambda"%string) then Some c_offset_L
  else None.

(** Modelled from the spec: Inlet1D.h is not among the sources.  An inlet
    is a domain that stores the mass flux [setMdot] installs. *)
Record Inlet1D := mkInlet1D {
  inlet_dom : Domain1D;
  m_mdot : R
}.

(** Modelled from the spec: [Inlet1D::setMdot] stores the new mass flux. *)
Definition setMdot (mdot : R) (i : Inlet1D) : Inlet1D :=
  {| inlet_dom := inlet_dom i; m_mdot := mdot |}.

(** ** Sim1D *)

(** The members of Sim1D the continuation driver touches, and the three
    domains of the counterflow configuration [setStrainRate] assumes:
    [domain(0)] and [domain(2)] are inlets, [domain(1)] is the flow. *)
Record Sim1D := mkSim1D {
  m_x : list R;
  m_chi : R;
  m_amplify_threshold : R;
  m_uin_f : R;
  m_uin_o : R;
  m_rhoin_f : R;
  m_rhoin_o : R;
  lb : list R;
  ub : list R;
  inlet_f : Inlet1D;
  flow : Domain1D;
  inlet_o : Inlet1D
}.

Definition with_m_x (v : list R) (s : Sim1D) : Sim1D :=
  {| m_x := v; m_chi := m_chi s;
     m_amplify_threshold := m_amplify_threshold s;
     m_uin_f := m_uin_f s; m_uin_o := m_uin_o s;
     m_rhoin_f := m_rhoin_f s; m_rhoin_o := m_rhoin_o s;
     lb := lb s; ub := ub s;
     inlet_f := inlet_f s; flow := flow s; inlet_o := inlet_o s |}.

Definition with_inlet_f (i : Inlet1D) (s : Sim1D) : Sim1D :=
  {| m_x := m_x s; m_chi := m_chi s;
     m_amplify_threshold := m_amplify_threshold s;
     m_uin_f := m_uin_f s; m_uin_o := m_uin_o s;
     m_rhoin_f := m_rhoin_f s; m_rhoin_o := m_rhoin_o s;
     lb := lb s; ub := ub s;
     inlet_f := i; flow := flow s; inlet_o := inlet_o s |}.

Definition with_inlet_o (i : Inlet1D) (s : Sim1D) : Sim1D :=
  {| m_x := m_x s; m_chi := m_chi s;
     m_amplify_threshold := m_amplify_threshold s;
     m_uin_f := m_uin_f s; m_uin_o := m_uin_o s;
     m_rhoin_f := m_rhoin_f s; m_rhoin_o := m_rhoin_o s;
     lb := lb s; ub := ub s;
     inlet_f := inlet_f s; flow := flow s; inlet_o := i |}.

(** Modelled from the spec: [OneDim::domain], the domains in left-to-right
    order. *)
Definition domain (s : Sim1D) (n : nat) : option Domain1D :=
  match n with
  | 0%nat => Some (inlet_dom (inlet_f s))
  | 1%nat => Some (flow s)
  | 2%nat => Some (inlet_dom (inlet_o s))
  | _ => None
  end.

(** Modelled from the spec: [value] and [setValue] are defined outside the
    header.  They address the global solution at the first slot of the
    domain plus the offset of (component, point) and reject an index
    outside the solution vector. *)
Definition value (s : Sim1D) (dom comp localPoint : nat) : option R :=
  d ← domain s dom;
  m_x s !! (loc d + index d comp localPoint)%nat.

(** Modelled from the spec: [setValue], the write counterpart of [value]. *)
Definition setValue (s : Sim1D) (dom comp localPoint : nat) (v : R)
  : option Sim1D :=
  d ← domain s dom;
  let iloc := (loc d + index d comp localPoint)%nat in
  if decide (iloc < length (m_x s))%nat
  then Some (with_m_x (<[iloc := v]> (m_x s)) s)
  else None.

Definition StrainRate (s : Sim1D) : R := m_chi s.

Definition setStrainRateValue (a1 : R) (s : Sim1D) : Sim1D :=
  {| m_x := m_x s; m_chi := a1;
     m_amplify_threshold := m_amplify_threshold s;
     m_uin_f := m_uin_f s; m_uin_o := m_uin_o s;
     m_rhoin_f := m_rhoin_f s; m_rhoin_o := m_rhoin_o s;
     lb := lb s; ub := ub s;
     inlet_f := inlet_f s; flow := flow s; inlet_o := inlet_o s |}.

Definition setFuelVelocity (uin_f : R) (s : Sim1D) : Sim1D :=
  {| m_x := m_x s; m_chi := m_chi s;
     m_amplify_threshold := m_amplify_threshold s;
     m_uin_f := uin_f; m_uin_o := m_uin_o s;
     m_rhoin_f := m_rhoin_f s; m_rhoin_o := m_rhoin_o s;
     lb := lb s; ub := ub s;
     inlet_f := inlet_f s; flow := flow s; inlet_o := inlet_o s |}.

Definition setOxidizerVelocity (uin_o : R) (s : Sim1D) : Sim1D :=
  {| m_x := m_x s; m_chi := m_chi s;
     m_amplify_threshold := m_amplify_threshold s;
     m_uin_f := m_uin_f s; m_uin_o := uin_o;
     m_rhoin_f := m_rhoin_f s; m_rhoin_o := m_rhoin_o s;
     lb := lb s; ub := ub s;
     inlet_f := inlet_f s; flow := flow s; inlet_o := inlet_o s |}.

Definition setFuelDensity (rhoin_f : R) (s : Sim1D) : Sim1D :=
  {| m_x := m_x s; m_chi := m_chi s;
     m_amplify_threshold := m_amplify_threshold s;
     m_uin_f := m_uin_f s; m_uin_o := m_uin_o s;
     m_rhoin_f := rhoin_f; m_rhoin_o := m_rhoin_o s;
     lb := lb s; ub := ub s;
     inlet_f := inlet_f s; flow := flow s; inlet_o := inlet_o s |}.

Definition setOxidizerDensity (rhoin_o : R) (s : Sim1D) : Sim1D :=
  {| m_x := m_x s; m_chi := m_chi s;
     m_amplify_threshold := m_amplify_threshold s;
     m_uin_f := m_uin_f s; m_uin_o := m_uin_o s;
     m_rhoin_f := m_rhoin_f s; m_rhoin_o := rhoin_o;
     lb := lb s; ub := ub s;
     inlet_f := inlet_f s; flow := flow s; inlet_o := inlet_o s |}.

Definition setAmplifyThreshold (a : R) (s : Sim1D) : Sim1D :=
  {| m_x := m_x s; m_chi := m_chi s;
     m_amplify_threshold := a;
     m_uin_f := m_uin_f s; m_uin_o := m_uin_o s;
     m_rhoin_f := m_rhoin_f s; m_rhoin_o := m_rhoin_o s;
     lb := lb s; ub := ub s;
     inlet_f := inlet_f s; flow := flow s; inlet_o := inlet_o s |}.

(** [x[k]] for an [int] index [k]. *)
Definition at_int (x : list R) (k : Z) : option R :=
  if decide (0 <= k)%Z then x !! Z.to_nat k else None.

(** The loop of [setStrainRate] over the points [i], [i+1], ... of the
    flow domain, [n] of them left: read u, write it scaled, read V, write
    it scaled. *)
Fixpoint amplify (n i : nat) (u_index V_index : nat) (ratio : R)
    (s : Sim1D) : option Sim1D :=
  match n with
  | O => Some s
  | S n' =>
      u_loc ← value s 1 u_index i;
      s1 ← setValue s 1 u_index i (u_loc * ratio);
      V_loc ← value s1 1 V_index i;
      s2 ← setValue s1 1 V_index i (V_loc * ratio);
      amplify n' (S i) u_index V_index ratio s2
  end.

Definition setStrainRate (nvar : Z) (x : list R) (s : Sim1D)
  : option Sim1D :=
  a1 ← at_int x (nvar - 1);
  s' ← (if decide (Rabs (m_chi s - a1) > m_amplify_threshold s) then
          let ratio := a1 / m_chi s in
          u_index ← componentIndex "u";
          V_index ← componentIndex "V";
          let nPoints := nPoints (flow s) in
          s1 ← amplify nPoints 0 u_index V_index ratio s;
          let uin_f := m_uin_f s1 in
          let uin_o := m_uin_o s1 in
          let rhoin_f := m_rhoin_f s1 in
          let rhoin_o := m_rhoin_o s1 in
          let uin_f := uin_f * ratio in
          let uin_o := uin_o * ratio in
          let mdot_f := rhoin_f * uin_f in
          let s2 := with_inlet_f (setMdot mdot_f (inlet_f s1)) s1 in
          let mdot_o := rhoin_o * uin_o in
          let s3 := with_inlet_o (setMdot mdot_o (inlet_o s2)) s2 in
          Some s3
        else Some s);
  Some (setStrainRateValue a1 s').

(** [setSolution]: copy [m_x.size()] doubles from [soln] into [m_x]. *)
Definition setSolution (soln : list R) (s : Sim1D) : option Sim1D :=
  if decide (length (m_x s) <= length soln)%nat
  then Some (with_m_x (take (length (m_x s)) soln) s)
  else None.

(** ** The residue functions of the continuation driver *)

(** The caller's buffers behind the pointers [x] and [f]; they do not
    overlap each other or the vectors of the simulation. *)
Record Buffers := mkBuffers {
  buf_x : list R;
  buf_f : list R
}.

(** First loop of [bound_residue], at index [i] with [n] iterations left:
    project [x[i]] onto the bounds into [xBorder[i]] and accumulate the
    distance to the violated bound. *)
Fixpoint project (n i : nat) (x lbs ubs : list R) (xBorder : list R)
    (excess : R) : option (list R * R) :=
  match n with
  | O => Some (xBorder, excess)
  | S n' =>
      xi ← x !! i;
      lbi ← lbs !! i;
      ubi ← ubs !! i;
      if decide (xi < lbi) then
        project n' (S i) x lbs ubs (<[i := lbi]> xBorder)
                (excess + (lbi - xi))
      else if decide (xi > ubi) then
        project n' (S i) x lbs ubs (<[i := ubi]> xBorder)
                (excess + (xi - ubi))
      else
        project n' (S i) x lbs ubs (<[i := xi]> xBorder) excess
  end.

(** Second loop of [bound_residue]: steepen each residual by the excess. *)
Fixpoint steepen (n i : nat) (minIncr excess : R) (f : list R)
  : option (list R) :=
  match n with
  | O => Some f
  | S n' =>
      fi ← f !! i;
      let perturb := if decide (fi > 0) then minIncr else - minIncr in
      steepen n' (S i) minIncr excess
              (<[i := fi + (fi + perturb) * excess]> f)
  end.

Section Residue.

(** [OneDim::eval(npos, x, resid, rdt, 0)], from OneDim.h, which is not
    among the sources: the residual of all domains at solution [x] and
    reciprocal timestep [rdt].  It depends on the boundary state of the
    domains, so it also takes the simulation.  This is the value the
    evaluation writes; what it does to the state of the domains is
    threaded through the residue functions of module [Domains] below. *)
Variable OneDim_eval : Sim1D -> list R -> R -> list R.

(** [getResidual(rdt, resid)] writes the residual over the head of the
    buffer [resid]. *)
Definition getResidual (rdt : R) (resid : list R) (s : Sim1D)
  : option (list R) :=
  let r := OneDim_eval s (m_x s) rdt in
  if decide (length r <= length resid)%nat
  then Some (r ++ drop (length r) resid)
  else None.

Definition unbound_residue (nvar : Z) (b : Buffers) (s : Sim1D)
  : option (Buffers * Sim1D) :=
  s1 ← setSolution (buf_x b) s;
  s2 ← setStrainRate nvar (buf_x b) s1;
  f ← getResidual 0 (buf_f b) s2;
  Some ({| buf_x := buf_x b; buf_f := f |}, s2).

Definition bound_residue (nvar : Z) (b : Buffers) (s : Sim1D)
  : option (Buffers * Sim1D) :=
  if decide (nvar < 0)%Z then None else
  let n := Z.to_nat nvar in
  let xBorder := replicate n 0 in
  let excess := 0 in
  '(xBorder, excess) ← project n 0 (buf_x b) (lb s) (ub s) xBorder excess;
  s1 ← setSolution xBorder s;
  f ← getResidual 0 (buf_f b) s1;
  let minIncr := 1 / 1000 in
  f ← steepen n 0 minIncr excess f;
  Some ({| buf_x := buf_x b; buf_f := f |}, s1).

End Residue.

(** ** StFlow *)

(** The members of StFlow the closures read.  [st_dom] and [m_z] are the
    layout and the grid of the Domain1D base. *)
Record StFlow := mkStFlow {
  st_dom : Domain1D;
  m_z : list R;
  m_press : R;
  m_dz : list R;
  m_rho : list R;
  m_wtm : list R;
  m_wt : list R;
  m_cp : list R;
  m_visc : list R;
  m_diff : list R;
  m_nsp : nat
}.

Definition z (fl : StFlow) (j : nat) : R := m_z fl !!! j.

(** Modelled from the spec: [StFlow::setupGrid] is defined outside the
    header.  The spacings are derived from the grid: entry [j] of [m_dz] is
    [z(j+1) - z(j)]. *)
Definition grid_dz (zs : list R) : list R :=
  zip_with (fun a b => b - a) zs (tail zs).

(** Modelled from the spec: [setupGrid] installs the grid, its size and
    the derived spacings. *)
Definition setupGrid (zs : list R) (fl : StFlow) : StFlow :=
  {| st_dom := {| m_nv := m_nv (st_dom fl); m_points := length zs;
                  m_iloc := m_iloc (st_dom fl) |};
     m_z := zs; m_press := m_press fl; m_dz := grid_dz zs;
     m_rho := m_rho fl; m_wtm := m_wtm fl; m_wt := m_wt fl;
     m_cp := m_cp fl; m_visc := m_visc fl; m_diff := m_diff fl;
     m_nsp := m_nsp fl |}.

Section StFlowClosures.

Variable fl : StFlow.

Definition T (x : list R) (j : nat) : R :=
  x !!! index (st_dom fl) c_offset_T j.

Definition rho_u (x : list R) (j : nat) : R :=
  m_rho fl !!! j * x !!! index (st_dom fl) c_offset_U j.

Definition u (x : list R) (j : nat) : R :=
  x !!! index (st_dom fl) c_offset_U j.

Definition V (x : list R) (j : nat) : R :=
  x !!! index (st_dom fl) c_offset_V j.

Definition lambda (x : list R) (j : nat) : R :=
  x !!! index (st_dom fl) c_offset_L j.

Definition Y (x : list R) (k j : nat) : R :=
  x !!! index (st_dom fl) (c_offset_Y + k) j.

(** Convective derivatives.  [jloc - 1] is a [size_t] difference; it is
    only meaningful for [1 <= jloc], which holds at every interior
    point. *)
Definition dVdz (x : list R) (j : nat) : R :=
  let jloc := if decide (u x j > 0) then j else (j + 1)%nat in
  (V x jloc - V x (jloc - 1)) / m_dz fl !!! (jloc - 1)%nat.

Definition dYdz (x : list R) (k j : nat) : R :=
  let jloc := if decide (u x j > 0) then j else (j + 1)%nat in
  (Y x k jloc - Y x k (jloc - 1)) / m_dz fl !!! (jloc - 1)%nat.

Definition dTdz (x : list R) (j : nat) : R :=
  let jloc := if decide (u x j > 0) then j else (j + 1)%nat in
  (T x jloc - T x (jloc - 1)) / m_dz fl !!! (jloc - 1)%nat.

End StFlowClosures.

(** ** SprayFlame *)

Record SprayFlame := mkSprayFlame {
  sp_flow : StFlow;
  c_offset_fuel : nat;
  m_prs_A : R;
  m_prs_B : R;
  m_prs_C : R;
  m_Tb : R;
  m_cvt : R;
  m_rhol_A : R;
  m_rhol_B : R;
  m_rhol_C : R;
  m_rhol_D : R;
  m_cpl : R
}.

Definition setLiquidDensityParam (A_ B_ C_ D_ : R) (sp : SprayFlame)
  : SprayFlame :=
  {| sp_flow := sp_flow sp; c_offset_fuel := c_offset_fuel sp;
     m_prs_A := m_prs_A sp; m_prs_B := m_prs_B sp; m_prs_C := m_prs_C sp;
     m_Tb := m_Tb sp; m_cvt := m_cvt sp;
     m_rhol_A := A_; m_rhol_B := B_; m_rhol_C := C_; m_rhol_D := D_;
     m_cpl := m_cpl sp |}.

Definition with_prs (A_ B_ C_ Tb_ cvt_ : R) (sp : SprayFlame) : SprayFlame :=
  {| sp_flow := sp_flow sp; c_offset_fuel := c_offset_fuel sp;
     m_prs_A := A_; m_prs_B := B_; m_prs_C := C_;
     m_Tb := Tb_; m_cvt := cvt_;
     m_rhol_A := m_rhol_A sp; m_rhol_B := m_rhol_B sp;
     m_rhol_C := m_rhol_C sp; m_rhol_D := m_rhol_D sp;
     m_cpl := m_cpl sp |}.

(** The function has no [throw] and no [else] branch: whatever the unit
    string, the call returns. *)
Definition setLiquidVapPressParam (A_ B_ C_ Tb_ : R) (unit_ : string)
    (sp : SprayFlame) : outcome SprayFlame :=
  if decide (unit_ = "mmHg"%string) then
    Returned (with_prs A_ B_ (C_ - 27315 / 100) Tb_ mmHg2Pa sp)
  else if decide (unit_ = "bar"%string) then
    Returned (with_prs A_ B_ C_ Tb_ bar2Pa sp)
  else
    Returned sp.

Definition setLiquidCp (cpl_ : R) (sp : SprayFlame) : SprayFlame :=
  {| sp_flow := sp_flow sp; c_offset_fuel := c_offset_fuel sp;
     m_prs_A := m_prs_A sp; m_prs_B := m_prs_B sp; m_prs_C := m_prs_C sp;
     m_Tb := m_Tb sp; m_cvt := m_cvt sp;
     m_rhol_A := m_rhol_A sp; m_rhol_B := m_rhol_B sp;
     m_rhol_C := m_rhol_C sp; m_rhol_D := m_rhol_D sp;
     m_cpl := cpl_ |}.

(** The closures of SprayFlame over the reals.  They are the values of the
    code where every operation stays within the finite doubles; the same
    closures with NaN and the infinities are in module [Ieee] below, and
    the lemmas [ieee_prs_regular] to [ieee_q_regular] relate the two. *)
Section SprayClosures.

Variable sp : SprayFlame.

Let fl := sp_flow sp.

Definition Tl (x : list R) (j : nat) : R :=
  x !!! index (st_dom fl) (c_offset_Y + m_nsp fl + c_offset_Tl) j.

Definition vl (x : list R) (j : nat) : R :=
  x !!! index (st_dom fl) (c_offset_Y + m_nsp fl + c_offset_vl) j.

Definition Ul (x : list R) (j : nat) : R :=
  x !!! index (st_dom fl) (c_offset_Y + m_nsp fl + c_offset_Ul) j.

Definition ml (x : list R) (j : nat) : R :=
  x !!! index (st_dom fl) (c_offset_Y + m_nsp fl + c_offset_ml) j.

Definition nl (x : list R) (j : nat) : R :=
  x !!! index (st_dom fl) (c_offset_Y + m_nsp fl + c_offset_nl) j.

(** DIPPR 105, or the constant [m_rhol_A] when the other three
    coefficients vanish. *)
Definition rhol (x : list R) (j : nat) : R :=
  if bool_decide (Rabs (m_rhol_B sp - 0) < sqrt_dbl_min) &&
     bool_decide (Rabs (m_rhol_C sp - 0) < sqrt_dbl_min) &&
     bool_decide (Rabs (m_rhol_D sp - 0) < sqrt_dbl_min)
  then m_rhol_A sp
  else
    m_rhol_A sp /
    Rpower (m_rhol_B sp)
           (1 + Rpower (1 - Tl x j / m_rhol_C sp) (m_rhol_D sp)).

Definition dl (x : list R) (j : nat) : R :=
  if decide (ml x j < sqrt_dbl_min) then 0
  else Rpower (6 * ml x j / Pi / rhol x j) (1 / 3).

Definition Dgf (j : nat) : R :=
  m_diff fl !!! (c_offset_fuel sp + j * m_nsp fl)%nat.

(** Antoine equation, at the boiling point [m_Tb]. *)
Definition prs (x : list R) (j : nat) : R :=
  Rpower 10 (m_prs_A sp - m_prs_B sp / (m_prs_C sp + m_Tb sp)) * m_cvt sp.

Definition cpl (x : list R) (j : nat) : R := m_cpl sp.

Definition cpgf (x : list R) (j : nat) : R := m_cp fl !!! j.

Definition Yrs (x : list R) (j : nat) : R :=
  let Xrs := prs x j / m_press fl in
  m_wt fl !!! c_offset_fuel sp * Xrs /
  (m_wt fl !!! c_offset_fuel sp * Xrs + (1 - Xrs) * m_wtm fl !!! j).

Definition mdot (x : list R) (j : nat) : R :=
  let Yrs_ := Yrs x j in
  let Bm := (Yrs_ - Y fl x (c_offset_fuel sp) j) /
            Rmax (1 - Yrs_) sqrt_dbl_min in
  2 * Pi * dl x j * m_rho fl !!! j * Dgf j * ln (1 + Bm).

Definition q (x : list R) (j : nat) : R :=
  if decide (mdot x j <= sqrt_dbl_min) then 0
  else
    let BT := exp (mdot x j / (2 * Pi * m_rho fl !!! j * Dgf j * dl x j))
              - 1 in
    cpgf x j * (T fl x j - Tl x j) / BT.

Definition Fr (x : list R) (j : nat) : R :=
  3 * Pi * dl x j * m_visc fl !!! j * (V fl x j - Ul x j).

Definition fz (x : list R) (j : nat) : R :=
  3 * Pi * dl x j * m_visc fl !!! j * (u fl x j - vl x j).

End SprayClosures.

(** ** The hybrid solver *)

(** What a C++ function hands back: nothing for a [void] function, an [int]
    otherwise. *)
Inductive retval :=
  | Void
  | Int (n : Z).

(** A change of the grid the refiner asks for. *)
Inductive GridChange :=
  | InsertPoint (dom j : nat)
  | RemovePoint (dom j : nat).

Inductive Phase :=
  | NEWTON
  | TSTEP
  | REFINE
  | SUCCESS
  | FAIL.

Section Solver.

(** The damped Newton iteration of OneDim: the converged solution, or
    [None] when it stalls. *)
Variable OneDim_solve : Sim1D -> option Sim1D.

(** A block of backward-Euler steps: the solution after the block, or
    [None] when the timestep floor is reached. *)
Variable timeStep : Sim1D -> option Sim1D.

(** The refiner: the changes it proposes, and the simulation regridded by
    them. *)
Variable analyze : Sim1D -> list GridChange.
Variable regrid : list GridChange -> Sim1D -> Sim1D.

(** Modelled from the spec: [Sim1D::newtonSolve] is only declared in the
    header, as [int newtonSolve(int loglevel)] with the comment "return 0
    if successful, -1 on failure". *)
Definition newtonSolve (s : Sim1D) : retval * Sim1D :=
  match OneDim_solve s with
  | Some s' => (Int 0, s')
  | None => (Int (-1), s)
  end.

(** Modelled from the spec: [Sim1D::refine] is only declared in the header,
    as [int refine(int loglevel)]; it returns the number of changes. *)
Definition refine (s : Sim1D) : retval * Sim1D :=
  let changes := analyze s in
  (Int (Z.of_nat (length changes)), regrid changes s).

(** Modelled from the spec: [Sim1D::solve] is only declared in the header,
    as [void solve(int loglevel, bool refine_grid)].  The phases are those
    of the solver state machine; [fuel] is the cap on the number of phase
    changes.  A [void] function has no exit code to hand back: success
    returns, failure is propagated to the caller as a raised
    [ConvergenceFailure]. *)
Fixpoint solve_from (fuel : nat) (ph : Phase) (refine_grid : bool)
    (s : Sim1D) : outcome retval * Sim1D :=
  match fuel with
  | O => (Raised ConvergenceFailure, s)
  | S fuel' =>
      match ph with
      | NEWTON =>
          match newtonSolve s with
          | (Int 0, s') => solve_from fuel' REFINE refine_grid s'
          | (_, s') => solve_from fuel' TSTEP refine_grid s'
          end
      | TSTEP =>
          match timeStep s with
          | Some s' => solve_from fuel' NEWTON refine_grid s'
          | None => solve_from fuel' FAIL refine_grid s
          end
      | REFINE =>
          if refine_grid then
            match refine s with
            | (Int 0, s') => solve_from fuel' SUCCESS refine_grid s'
            | (_, s') => solve_from fuel' NEWTON refine_grid s'
            end
          else solve_from fuel' SUCCESS refine_grid s
      | SUCCESS => (Returned Void, s)
      | FAIL => (Raised ConvergenceFailure, s)
      end
  end.

(** Modelled from the spec: a solve starts in the Newton phase. *)
Definition solve (fuel : nat) (refine_grid : bool) (s : Sim1D)
  : outcome retval * Sim1D :=
  solve_from fuel NEWTON refine_grid s.

End Solver.

(** ** Further members of Sim1D.h *)

Definition with_bounds (lbs ubs : list R) (s : Sim1D) : Sim1D :=
  {| m_x := m_x s; m_chi := m_chi s;
     m_amplify_threshold := m_amplify_threshold s;
     m_uin_f := m_uin_f s; m_uin_o := m_uin_o s;
     m_rhoin_f := m_rhoin_f s; m_rhoin_o := m_rhoin_o s;
     lb := lbs; ub := ubs;
     inlet_f := inlet_f s; flow := flow s; inlet_o := inlet_o s |}.

Definition systemSize (s : Sim1D) : nat := length (m_x s).

(** [std::vector<double>::resize(n)]: the first [n] entries are kept, and
    new entries are zero. *)
Definition resize (n : nat) (l : list R) : list R :=
  take n l ++ replicate (n - length l) 0.

Section Bounds.

(** [Domain1D::lowerBound(i)] and [Domain1D::upperBound(i)] of the flow
    domain, from Domain1D.h, which is not among the sources: the bounds of
    component [i]. *)
Variable dom_lowerBound : nat -> R.
Variable dom_upperBound : nat -> R.

(** Inner loop of [updateBounds] at point [j], from component [i] with [n]
    components left. *)
Fixpoint fill_components (n i j nv : nat) (lbs ubs : list R)
  : list R * list R :=
  match n with
  | O => (lbs, ubs)
  | S n' =>
      fill_components n' (S i) j nv
        (<[(j * nv + i)%nat := dom_lowerBound i]> lbs)
        (<[(j * nv + i)%nat := dom_upperBound i]> ubs)
  end.

(** Outer loop of [updateBounds], from point [j] with [n] points left. *)
Fixpoint fill_points (n j nv : nat) (lbs ubs : list R) : list R * list R :=
  match n with
  | O => (lbs, ubs)
  | S n' =>
      let '(lbs1, ubs1) := fill_components nv 0 j nv lbs ubs in
      fill_points n' (S j) nv lbs1 ubs1
  end.

(** [updateBounds]: every write lands inside the resized vectors. *)
Definition updateBounds (s : Sim1D) : Sim1D :=
  let dom := flow s in
  let nv := nComponents dom in
  let np := nPoints dom in
  let lb1 := resize (nv * np + 1) (lb s) in
  let ub1 := resize (nv * np + 1) (ub s) in
  let '(lb2, ub2) := fill_points np 0 nv lb1 ub1 in
  with_bounds (<[(nv * np)%nat := 0]> lb2)
              (<[(nv * np)%nat := 10000000000]> ub2) s.

End Bounds.

(** ** Further members of StFlow.h *)

(** Members of StFlow beside those of [StFlow] above: the thermal
    conductivities and the fixed-temperature data. *)
Record StFlowMore := mkStFlowMore {
  m_tcon : list R;
  m_fixedtemp : list R;
  m_do_energy : list bool
}.

(** [setTemperature(j, t)]: two unchecked vector writes; a point outside
    either vector yields [None]. *)
Definition setTemperature (j : nat) (t : R) (e : StFlowMore)
  : option StFlowMore :=
  if decide (j < length (m_fixedtemp e))%nat then
    if decide (j < length (m_do_energy e))%nat then
      Some {| m_tcon := m_tcon e;
              m_fixedtemp := <[j := t]> (m_fixedtemp e);
              m_do_energy := <[j := false]> (m_do_energy e) |}
    else None
  else None.

Definition T_fixed (e : StFlowMore) (j : nat) : R := m_fixedtemp e !!! j.

Definition doEnergy (e : StFlowMore) (j : nat) : bool := m_do_energy e !!! j.

Section StFlowStencils.

Variable fl : StFlow.
Variable more : StFlowMore.

Definition X (x : list R) (k j : nat) : R :=
  m_wtm fl !!! j * Y fl x k j / m_wt fl !!! k.

Definition shear (x : list R) (j : nat) : R :=
  let c1 := m_visc fl !!! (j - 1)%nat * (V fl x j - V fl x (j - 1)) in
  let c2 := m_visc fl !!! j * (V fl x (j + 1) - V fl x j) in
  2 * (c2 / (z fl (j + 1) - z fl j) - c1 / (z fl j - z fl (j - 1))) /
  (z fl (j + 1) - z fl (j - 1)).

Definition divHeatFlux (x : list R) (j : nat) : R :=
  let c1 := m_tcon more !!! (j - 1)%nat * (T fl x j - T fl x (j - 1)) in
  let c2 := m_tcon more !!! j * (T fl x (j + 1) - T fl x j) in
  - 2 * (c2 / (z fl (j + 1) - z fl j) - c1 / (z fl j - z fl (j - 1))) /
  (z fl (j + 1) - z fl (j - 1)).

(** size_t arithmetic is unsigned and 64 bits wide: every product and sum
    is reduced modulo 2^64. *)
Definition mindex (k j m : Z) : Z :=
  let nsp := Z.of_nat (m_nsp fl) in
  size_t (size_t (size_t (size_t (m * nsp) * nsp) + size_t (nsp * j)) + k).

End StFlowStencils.

(** ** Further members of SprayFlame *)

(** The artificial-viscosity coefficients of SprayFlame. *)
Record AVCoefficients := mkAVCoefficients {
  m_visc_ml : R;
  m_visc_nl : R;
  m_visc_Tl : R;
  m_visc_Ul : R;
  m_visc_vl : R
}.

(** [setAVCoefficients]: five unchecked reads of the argument. *)
Definition setAVCoefficients (m_visc_ : list R) : option AVCoefficients :=
  c0 ← m_visc_ !! 0%nat;
  c1 ← m_visc_ !! 1%nat;
  c2 ← m_visc_ !! 2%nat;
  c3 ← m_visc_ !! 3%nat;
  c4 ← m_visc_ !! 4%nat;
  Some {| m_visc_ml := c0; m_visc_nl := c1; m_visc_Tl := c2;
          m_visc_Ul := c3; m_visc_vl := c4 |}.

Section SprayStencils.

Variable sp : SprayFlame.
Variable av : AVCoefficients.

Let fl := sp_flow sp.

(** Convective derivatives of the liquid, upwinded by [vl]. *)
Definition dUldz (x : list R) (j : nat) : R :=
  let jloc := if decide (vl sp x j > 0) then j else (j + 1)%nat in
  (Ul sp x jloc - Ul sp x (jloc - 1)) / m_dz fl !!! (jloc - 1)%nat.

Definition dvldz (x : list R) (j : nat) : R :=
  let jloc := if decide (vl sp x j > 0) then j else (j + 1)%nat in
  (vl sp x jloc - vl sp x (jloc - 1)) / m_dz fl !!! (jloc - 1)%nat.

Definition dmldz (x : list R) (j : nat) : R :=
  let jloc := if decide (vl sp x j > 0) then j else (j + 1)%nat in
  (ml sp x jloc - ml sp x (jloc - 1)) / m_dz fl !!! (jloc - 1)%nat.

Definition dnldz (x : list R) (j : nat) : R :=
  let jloc := if decide (vl sp x j > 0) then j else (j + 1)%nat in
  (nl sp x jloc - nl sp x (jloc - 1)) / m_dz fl !!! (jloc - 1)%nat.

Definition dTldz (x : list R) (j : nat) : R :=
  let jloc := if decide (vl sp x j > 0) then j else (j + 1)%nat in
  (Tl sp x jloc - Tl sp x (jloc - 1)) / m_dz fl !!! (jloc - 1)%nat.

(** Artificial viscosities. *)
Definition av_ml (x : list R) (j : nat) : R :=
  let c1 := m_visc_ml av * (ml sp x j - ml sp x (j - 1)) in
  let c2 := m_visc_ml av * (ml sp x (j + 1) - ml sp x j) in
  2 * (c2 / (z fl (j + 1) - z fl j) - c1 / (z fl j - z fl (j - 1))) /
  (z fl (j + 1) - z fl (j - 1)).

Definition av_nl (x : list R) (j : nat) : R :=
  let c1 := m_visc_nl av * (nl sp x j - nl sp x (j - 1)) in
  let c2 := m_visc_nl av * (nl sp x (j + 1) - nl sp x j) in
  2 * (c2 / (z fl (j + 1) - z fl j) - c1 / (z fl j - z fl (j - 1))) /
  (z fl (j + 1) - z fl (j - 1)).

Definition av_Tl (x : list R) (j : nat) : R :=
  let c1 := m_visc_Tl av * (Tl sp x j - Tl sp x (j - 1)) in
  let c2 := m_visc_Tl av * (Tl sp x (j + 1) - Tl sp x j) in
  2 * (c2 / (z fl (j + 1) - z fl j) - c1 / (z fl j - z fl (j - 1))) /
  (z fl (j + 1) - z fl (j - 1)).

Definition av_Ul (x : list R) (j : nat) : R :=
  let c1 := m_visc_Ul av * (Ul sp x j - Ul sp x (j - 1)) in
  let c2 := m_visc_Ul av * (Ul sp x (j + 1) - Ul sp x j) in
  2 * (c2 / (z fl (j + 1) - z fl j) - c1 / (z fl j - z fl (j - 1))) /
  (z fl (j + 1) - z fl (j - 1)).

Definition av_vl (x : list R) (j : nat) : R :=
  let c1 := m_visc_vl av * (vl sp x j - vl sp x (j - 1)) in
  let c2 := m_visc_vl av * (vl sp x (j + 1) - vl sp x j) in
  2 * (c2 / (z fl (j + 1) - z fl j) - c1 / (z fl j - z fl (j - 1))) /
  (z fl (j + 1) - z fl (j - 1)).

End SprayStencils.

(** ** Residual evaluation and the state of the domains *)

(** The thermo object the flow domain borrows.  Its hidden state is the
    last (T, P, Y) it was set to. *)
Record ThermoPhase := mkThermoPhase {
  th_T : R;
  th_P : R;
  th_Y : list R
}.

(** The flow domain together with the thermo object it borrows. *)
Record FlowState := mkFlowState {
  fs_flow : StFlow;
  fs_thermo : ThermoPhase
}.

Definition with_caches (rho wtm cp : list R) (fl : StFlow) : StFlow :=
  {| st_dom := st_dom fl; m_z := m_z fl; m_press := m_press fl;
     m_dz := m_dz fl; m_rho := rho; m_wtm := wtm; m_wt := m_wt fl;
     m_cp := cp; m_visc := m_visc fl; m_diff := m_diff fl;
     m_nsp := m_nsp fl |}.

Section UpdateThermo.

(** [ThermoPhase::density], [meanMolecularWeight] and [cp_mass], which
    are not among the sources: functions of the state the object holds. *)
Variables density meanMolecularWeight cp_mass : ThermoPhase -> R.

(** Modelled from the spec: [StFlow::setGas(x, j)] is defined outside the
    header.  It sets the state of the thermo object to the temperature,
    the pressure and the mass fractions of point [j]. *)
Definition setGas (x : list R) (j : nat) (d : FlowState) : FlowState :=
  let fl := fs_flow d in
  {| fs_flow := fl;
     fs_thermo := {| th_T := T fl x j;
                     th_P := m_press fl;
                     th_Y := map (fun k => Y fl x k j) (seq 0 (m_nsp fl)) |} |}.

(** [updateThermo(x, j0, j1)]: the loop over the points [j0 .. j1].  A
    point past the end of the cache arrays is an access outside them. *)
Fixpoint updateThermo_loop (x : list R) (n j : nat) (d : FlowState)
  : option FlowState :=
  match n with
  | O => Some d
  | S n' =>
      let d1 := setGas x j d in
      let fl := fs_flow d1 in
      if decide ((j < length (m_rho fl))%nat /\
                 (j < length (m_wtm fl))%nat /\
                 (j < length (m_cp fl))%nat)
      then
        updateThermo_loop x n' (S j)
          {| fs_flow :=
               with_caches
                 (<[j := density (fs_thermo d1)]> (m_rho fl))
                 (<[j := meanMolecularWeight (fs_thermo d1)]> (m_wtm fl))
                 (<[j := cp_mass (fs_thermo d1)]> (m_cp fl)) fl;
             fs_thermo := fs_thermo d1 |}
      else None
  end.

Definition updateThermo (x : list R) (j0 j1 : nat) (d : FlowState)
  : option FlowState :=
  updateThermo_loop x (S j1 - j0) j0 d.

(** Modelled from the spec: [StFlow::eval] is defined outside the header.
    Evaluated at all points, it brings the cached density, mean molecular
    weight and heat capacity of every point in line with the solution
    before it forms the residual [F]; its further effects on the domain
    are not modelled.  A domain without points, or one whose state is
    already lost, has no evaluation. *)
Definition eval_flow (F : Sim1D -> list R -> R -> list R)
  : Sim1D -> option FlowState -> list R -> R -> list R * option FlowState :=
  fun s d x rdt =>
    (F s x rdt,
     d0 ← d;
     let dom := st_dom (fs_flow d0) in
     if decide (nPoints dom = 0)%nat then None
     else updateThermo (drop (loc dom) x) 0 (nPoints dom - 1) d0).

End UpdateThermo.

(** The residue functions with the state of the domains threaded through
    the residual evaluation. *)
Module Domains.

Section Residue.

(** The state of the domains and of the objects they borrow. *)
Context {DomainState : Type}.

(** [OneDim::eval(npos, x, resid, rdt, 0)] with its effect on the domains:
    the residual, and the state it leaves the domains in. *)
Variable OneDim_eval :
  Sim1D -> DomainState -> list R -> R -> list R * DomainState.

Definition getResidual (rdt : R) (resid : list R) (s : Sim1D)
    (d : DomainState) : option (list R * DomainState) :=
  let '(r, d') := OneDim_eval s d (m_x s) rdt in
  if decide (length r <= length resid)%nat
  then Some (r ++ drop (length r) resid, d')
  else None.

Definition unbound_residue (nvar : Z) (b : Buffers) (s : Sim1D)
    (d : DomainState) : option (Buffers * Sim1D * DomainState) :=
  s1 ← setSolution (buf_x b) s;
  s2 ← setStrainRate nvar (buf_x b) s1;
  '(f, d') ← getResidual 0 (buf_f b) s2 d;
  Some ({| buf_x := buf_x b; buf_f := f |}, s2, d').

Definition bound_residue (nvar : Z) (b : Buffers) (s : Sim1D)
    (d : DomainState) : option (Buffers * Sim1D * DomainState) :=
  if decide (nvar < 0)%Z then None else
  let n := Z.to_nat nvar in
  let xBorder := replicate n 0 in
  let excess := 0 in
  '(xBorder, excess) ← project n 0 (buf_x b) (lb s) (ub s) xBorder excess;
  s1 ← setSolution xBorder s;
  '(f, d') ← getResidual 0 (buf_f b) s1 d;
  let minIncr := 1 / 1000 in
  f ← steepen n 0 minIncr excess f;
  Some ({| buf_x := buf_x b; buf_f := f |}, s1, d').

End Residue.

End Domains.

(** ** The spray closures with the exceptional values of a double *)

(** The closures above compute in the reals: they give the value of the
    code as long as every operation stays within the finite doubles.  The
    module below keeps the exceptional values of IEEE 754 arithmetic: a
    double is a finite number, an infinity or NaN.  Finite results are
    exact (no rounding, overflow or underflow), the sign of a zero is not
    tracked and a zero divisor counts as +0.  The stored members and the
    entries of the solution are finite. *)
Module Ieee.

Inductive double :=
  | Fin (r : R)
  | PInf
  | NInf
  | NaN.

Coercion Fin : R >-> double.

Definition inf (positive : bool) : double := if positive then PInf else NInf.

(** A finite number of the sign of [a] times an infinity: NaN for zero. *)
Definition signed_inf (a : R) (positive : bool) : double :=
  if decide (a = 0) then NaN
  else if decide (0 < a) then inf positive
  else inf (negb positive).

Definition neg (a : double) : double :=
  match a with
  | Fin r => Fin (- r)
  | PInf => NInf
  | NInf => PInf
  | NaN => NaN
  end.

Definition add (a b : double) : double :=
  match a, b with
  | NaN, _ | _, NaN => NaN
  | Fin r, Fin t => Fin (r + t)
  | PInf, NInf | NInf, PInf => NaN
  | PInf, _ | _, PInf => PInf
  | NInf, _ | _, NInf => NInf
  end.

Definition sub (a b : double) : double := add a (neg b).

Definition mul (a b : double) : double :=
  match a, b with
  | NaN, _ | _, NaN => NaN
  | Fin r, Fin t => Fin (r * t)
  | Fin r, PInf | PInf, Fin r => signed_inf r true
  | Fin r, NInf | NInf, Fin r => signed_inf r false
  | PInf, PInf | NInf, NInf => PInf
  | PInf, NInf | NInf, PInf => NInf
  end.

Definition div (a b : double) : double :=
  match a, b with
  | NaN, _ | _, NaN => NaN
  | Fin r, Fin t => if decide (t = 0) then signed_inf r true else Fin (r / t)
  | Fin _, (PInf | NInf) => Fin 0
  | PInf, Fin t => if decide (t < 0) then NInf else PInf
  | NInf, Fin t => if decide (t < 0) then PInf else NInf
  | (PInf | NInf), (PInf | NInf) => NaN
  end.

(** Comparisons: false as soon as an operand is NaN. *)
Definition lt (a b : double) : bool :=
  match a, b with
  | NaN, _ | _, NaN => false
  | Fin r, Fin t => bool_decide (r < t)
  | _, NInf => false
  | PInf, _ => false
  | NInf, _ => true
  | Fin _, PInf => true
  end.

Definition le (a b : double) : bool :=
  match a, b with
  | NaN, _ | _, NaN => false
  | Fin r, Fin t => bool_decide (r <= t)
  | NInf, _ => true
  | _, PInf => true
  | PInf, _ => false
  | Fin _, NInf => false
  end.

(** [std::max(a, b)] is [(a < b) ? b : a]. *)
Definition max (a b : double) : double := if lt a b then b else a.

(** [std::log]. *)
Definition log (a : double) : double :=
  match a with
  | Fin r =>
      if decide (0 < r) then Fin (ln r)
      else if decide (r = 0) then NInf
      else NaN
  | PInf => PInf
  | NInf => NaN
  | NaN => NaN
  end.

(** [std::exp]. *)
Definition exp (a : double) : double :=
  match a with
  | Fin r => Fin (Rtrigo_def.exp r)
  | PInf => PInf
  | NInf => Fin 0
  | NaN => NaN
  end.

Definition is_integer (y : R) : bool := bool_decide (IZR (Int_part y) = y).

Definition is_odd_integer (y : R) : bool := is_integer y && Z.odd (Int_part y).

(** [std::pow], with the special cases of the C standard (Annex F). *)
Definition pow (a b : double) : double :=
  match a, b with
  | _, Fin y =>
      if decide (y = 0) then Fin 1
      else
        match a with
        | NaN => NaN
        | Fin r =>
            if decide (0 < r) then Fin (Rpower r y)
            else if decide (r = 0) then (if decide (0 < y) then Fin 0 else PInf)
            else if is_integer y
                 then Fin ((if is_odd_integer y then -1 else 1) * Rpower (- r) y)
                 else NaN
        | PInf => if decide (0 < y) then PInf else Fin 0
        | NInf =>
            if decide (0 < y)
            then (if is_odd_integer y then NInf else PInf)
            else Fin 0
        end
  | Fin r, NaN => if decide (r = 1) then Fin 1 else NaN
  | _, NaN => NaN
  | NaN, _ => NaN
  | Fin r, PInf =>
      if decide (Rabs r < 1) then Fin 0
      else if decide (Rabs r = 1) then Fin 1
      else PInf
  | Fin r, NInf =>
      if decide (Rabs r < 1) then PInf
      else if decide (Rabs r = 1) then Fin 1
      else Fin 0
  | (PInf | NInf), PInf => PInf
  | (PInf | NInf), NInf => Fin 0
  end.

Declare Scope ieee_scope.
Delimit Scope ieee_scope with ieee.
Bind Scope ieee_scope with double.
Infix "+" := add : ieee_scope.
Infix "-" := sub : ieee_scope.
Infix "*" := mul : ieee_scope.
Infix "/" := div : ieee_scope.

Section SprayClosures.

Variable sp : SprayFlame.

Let fl := sp_flow sp.

Definition rhol (x : list R) (j : nat) : double :=
  if bool_decide (Rabs (m_rhol_B sp - 0) < sqrt_dbl_min) &&
     bool_decide (Rabs (m_rhol_C sp - 0) < sqrt_dbl_min) &&
     bool_decide (Rabs (m_rhol_D sp - 0) < sqrt_dbl_min)
  then Fin (m_rhol_A sp)
  else
    (m_rhol_A sp /
     pow (m_rhol_B sp)
         (1 + pow (1 - Tl sp x j / m_rhol_C sp) (m_rhol_D sp)))%ieee.

Definition dl (x : list R) (j : nat) : double :=
  if decide (ml sp x j < sqrt_dbl_min) then Fin 0
  else pow (6 * ml sp x j / Pi / rhol x j)%ieee (Fin (1 / 3)).

Definition prs (x : list R) (j : nat) : double :=
  (pow 10 (m_prs_A sp - m_prs_B sp / (m_prs_C sp + m_Tb sp)) * m_cvt sp)%ieee.

Definition Yrs (x : list R) (j : nat) : double :=
  let Xrs := (prs x j / m_press fl)%ieee in
  (Fin (m_wt fl !!! c_offset_fuel sp) * Xrs /
   (Fin (m_wt fl !!! c_offset_fuel sp) * Xrs + (1 - Xrs) * Fin (m_wtm fl !!! j)))%ieee.

Definition mdot (x : list R) (j : nat) : double :=
  let Yrs_ := Yrs x j in
  let Bm := ((Yrs_ - Y fl x (c_offset_fuel sp) j) /
             max (1 - Yrs_) sqrt_dbl_min)%ieee in
  (2 * Pi * dl x j * Fin (m_rho fl !!! j) * Dgf sp j * log (1 + Bm))%ieee.

Definition q (x : list R) (j : nat) : double :=
  if le (mdot x j) sqrt_dbl_min then Fin 0
  else
    let BT := (exp (mdot x j / (2 * Pi * Fin (m_rho fl !!! j) * Dgf sp j * dl x j))
               - 1)%ieee in
    (cpgf sp x j * (T fl x j - Tl sp x j) / BT)%ieee.

Definition Fr (x : list R) (j : nat) : double :=
  (3 * Pi * dl x j * Fin (m_visc fl !!! j) * (V fl x j - Ul sp x j))%ieee.

Definition fz (x : list R) (j : nat) : double :=
  (3 * Pi * dl x j * Fin (m_visc fl !!! j) * (u fl x j - vl sp x j))%ieee.

End SprayClosures.

End Ieee.

(** * Specification-side definitions and example states *)

(** Global index of component [c] at point [j] of the flow domain. *)
Definition slot (s : Sim1D) (c j : nat) : nat :=
  (loc (flow s) + index (flow s) c j)%nat.

(** The flow slice lies inside the solution vector and has room for the
    components u and V. *)
Definition flow_in_range (s : Sim1D) : Prop :=
  (c_offset_V < nComponents (flow s))%nat /\
  (loc (flow s) + nComponents (flow s) * nPoints (flow s)
     <= length (m_x s))%nat.

(** The state an amplifying call leaves, given the solution vector the
    loop produced. *)
Definition amplified (a1 : R) (xs : list R) (s : Sim1D) : Sim1D :=
  let ratio := a1 / m_chi s in
  setStrainRateValue a1
    (with_inlet_o (setMdot (m_rhoin_o s * (m_uin_o s * ratio)) (inlet_o s))
       (with_inlet_f (setMdot (m_rhoin_f s * (m_uin_f s * ratio)) (inlet_f s))
          (with_m_x xs s))).

(** A sequence of continuation steps: one [setStrainRate] call per pair
    (nvar, x). *)
Fixpoint continuation (calls : list (Z * list R)) (s : Sim1D)
  : option Sim1D :=
  match calls with
  | [] => Some s
  | (nvar, x) :: rest => s1 ← setStrainRate nvar x s; continuation rest s1
  end.

(** A counterflow set-up: a one-slot inlet on each side of a flow domain
    with four components on two points; the fuel inlet carries
    [2 * 3 = 6], the oxidizer inlet [1 * 4 = 4]; the strain rate is 50 and
    the threshold 10. *)
Definition sim_ex : Sim1D :=
  {| m_x := [6; 3; 4; 300; 0; 5; 6; 300; 0; 4];
     m_chi := 50;
     m_amplify_threshold := 10;
     m_uin_f := 3; m_uin_o := 4;
     m_rhoin_f := 2; m_rhoin_o := 1;
     lb := []; ub := [];
     inlet_f := {| inlet_dom := {| m_nv := 1; m_points := 1; m_iloc := 0 |};
                   m_mdot := 6 |};
     flow := {| m_nv := 4; m_points := 2; m_iloc := 1 |};
     inlet_o := {| inlet_dom := {| m_nv := 1; m_points := 1; m_iloc := 9 |};
                   m_mdot := 4 |} |}.

(** The augmented vector handed to the driver: the solution followed by
    the strain rate [a]. *)
Definition x_ex (a : R) : list R := [6; 3; 4; 300; 0; 5; 6; 300; 0; 4; a].

(** The sum of [g k] for [k] from [i], [n] terms. *)
Fixpoint sum_from (i n : nat) (g : nat -> R) : R :=
  match n with
  | O => 0
  | S n' => g i + sum_from (S i) n' g
  end.

(** The specification of the bounded residue: the projection onto
    [lo, hi], the accumulated excess, the sign, and the steepened
    residual. *)
Definition proj_spec (lo hi v : R) : R := Rmax lo (Rmin v hi).

Definition projected (n : nat) (x lbs ubs : list R) : list R :=
  map (fun i => proj_spec (lbs !!! i) (ubs !!! i) (x !!! i)) (seq 0 n).

Definition excess_spec (n : nat) (x lbs ubs : list R) : R :=
  sum_from 0 n (fun i => Rmax (lbs !!! i - x !!! i) 0) +
  sum_from 0 n (fun i => Rmax (x !!! i - ubs !!! i) 0).

(** The sign function: 1, 0 or -1. *)
Definition sgn (v : R) : R :=
  if decide (v > 0) then 1 else if decide (v < 0) then -1 else 0.

(** The sign the code uses: 1 above zero, -1 at zero and below. *)
Definition sign_or_minus (v : R) : R := if decide (v > 0) then 1 else -1.

Definition eps_min : R := 1 / 1000.

Definition steepened (sign : R -> R) (v excess : R) : R :=
  v + (v + sign v * eps_min) * excess.

(** The simulation after the projected vector has been copied in, and the
    buffer [f] after the residual has been written over its head. *)
Definition projected_sim (n : nat) (b : Buffers) (s : Sim1D) : Sim1D :=
  with_m_x (take (length (m_x s)) (projected n (buf_x b) (lb s) (ub s))) s.

Definition residual_buffer (ev : Sim1D -> list R -> R -> list R)
    (s1 : Sim1D) (f : list R) : list R :=
  let F := ev s1 (m_x s1) 0 in F ++ drop (length F) f.

(** The buffers and bounds fit a call with [nvar] unknowns. *)
Definition fits (ev : Sim1D -> list R -> R -> list R) (nvar : Z)
    (b : Buffers) (s : Sim1D) : Prop :=
  let n := Z.to_nat nvar in
  let s1 := projected_sim n b s in
  (0 <= nvar)%Z /\
  (n <= length (buf_x b))%nat /\
  (n <= length (lb s))%nat /\
  (n <= length (ub s))%nat /\
  (n <= length (buf_f b))%nat /\
  (length (m_x s) <= n)%nat /\
  (length (ev s1 (m_x s1) 0%R) <= length (buf_f b))%nat /\
  (forall i, (i < n)%nat -> lb s !!! i <= ub s !!! i).

(** A residual for the examples: F(x) = x, whose root is the origin. *)
Definition residual_id : Sim1D -> list R -> R -> list R := fun _ xs _ => xs.

(** A simulation of two unknowns (a temperature and an eigenvalue) with
    bounds for them and for the strain rate in the last slot. *)
Definition sim_bd : Sim1D :=
  {| m_x := [300; 0];
     m_chi := 50;
     m_amplify_threshold := 10;
     m_uin_f := 3; m_uin_o := 4;
     m_rhoin_f := 2; m_rhoin_o := 1;
     lb := [200; -1000; 0]; ub := [5000; 1000; 10000000000];
     inlet_f := {| inlet_dom := {| m_nv := 0; m_points := 1; m_iloc := 0 |};
                   m_mdot := 6 |};
     flow := {| m_nv := 2; m_points := 1; m_iloc := 0 |};
     inlet_o := {| inlet_dom := {| m_nv := 0; m_points := 1; m_iloc := 2 |};
                   m_mdot := 4 |} |}.

(** A vector whose first entry lies 50 below its lower bound, a vector
    inside the bounds, and the caller's residual buffer. *)
Definition x_below : list R := [150; 0; 50].
Definition x_inside : list R := [300; 7; 50].
Definition f_zero : list R := [0; 0; 0].

Ltac eval_Rmax :=
  repeat match goal with
         | |- context [Rmax ?a ?b] =>
             first [ rewrite (Rmax_left a b) by lra
                   | rewrite (Rmax_right a b) by lra ]
         end.

(** The grid invariant [setupGrid] establishes. *)
Definition grid_consistent (fl : StFlow) : Prop :=
  length (m_z fl) = nPoints (st_dom fl) /\ m_dz fl = grid_dz (m_z fl).

(** A gas flow of one species on the grid 0, 1, 3: five components on
    three points. *)
Definition flow_ex : StFlow :=
  setupGrid [0; 1; 3]
    {| st_dom := {| m_nv := 5; m_points := 0; m_iloc := 1 |};
       m_z := []; m_press := 101325; m_dz := [];
       m_rho := [1; 1; 1]; m_wtm := [28; 28; 28]; m_wt := [28];
       m_cp := [1000; 1000; 1000]; m_visc := [0; 0; 0];
       m_diff := [0; 0; 0]; m_nsp := 1 |}.

(** A solution with u < 0 at the middle point (the stencil looks right)
    and one with u > 0 there (the stencil looks left). *)
Definition x_down : list R :=
  [1; 0; 300; 0; 1;  -1; 2; 400; 0; 1;  -2; 8; 700; 0; 1].
Definition x_up : list R :=
  [1; 0; 300; 0; 1;  1; 2; 400; 0; 1;  2; 8; 700; 0; 1].

(** DIPPR 105: rho(T) = A / B ^ (1 + (1 - T/C) ^ D). *)
Definition dippr105 (A B C D T : R) : R :=
  A / Rpower B (1 + Rpower (1 - T / C) D).

(** The three coefficients other than A are (numerically) unset. *)
Definition only_A_set (sp : SprayFlame) : Prop :=
  Rabs (m_rhol_B sp) < sqrt_dbl_min /\
  Rabs (m_rhol_C sp) < sqrt_dbl_min /\
  Rabs (m_rhol_D sp) < sqrt_dbl_min.

(** The logarithmic factor of the evaporation rate. *)
Definition log_term (sp : SprayFlame) (x : list R) (j : nat) : R :=
  ln (1 + (Yrs sp x j - Y (sp_flow sp) x (c_offset_fuel sp) j) /
          Rmax (1 - Yrs sp x j) sqrt_dbl_min).

(** A spray flame of one species (the fuel) on two points, at 2 bar.  The
    Antoine coefficients are those the "bar" branch stores for
    (4, 1200, -72, 372): the vapor pressure at the boiling point is 1 bar.
    The liquid density is the constant 700. *)
Definition sp_wet : SprayFlame :=
  {| sp_flow :=
       {| st_dom := {| m_nv := 10; m_points := 2; m_iloc := 1 |};
          m_z := [0; 1 / 100]; m_press := 200000; m_dz := [1 / 100];
          m_rho := [1; 1]; m_wtm := [100; 100]; m_wt := [100];
          m_cp := [1000; 1000]; m_visc := [1 / 100000; 1 / 100000];
          m_diff := [1 / 100000; 1 / 100000]; m_nsp := 1 |};
     c_offset_fuel := 0;
     m_prs_A := 4; m_prs_B := 1200; m_prs_C := -72; m_Tb := 372;
     m_cvt := bar2Pa;
     m_rhol_A := 700; m_rhol_B := 0; m_rhol_C := 0; m_rhol_D := 0;
     m_cpl := 2200 |}.

(** A solution with a droplet of 1e-9 kg at point 0 and no liquid mass at
    point 1; per point: u, V, T, lambda, Y_fuel, Ul, vl, Tl, ml, nl. *)
Definition x_wet : list R :=
  [-1; 0; 400; 0; 0; 0; -1; 300; 1 / 1000000000; 1000;
   -1; 0; 400; 0; 0; 0; -1; 300; 0; 1000].

(** Oracles for the examples: a Newton iteration that converges at once
    and one that always stalls, a time stepper that hits its floor, and a
    refiner that proposes nothing. *)
Definition newton_ok : Sim1D -> option Sim1D := fun s => Some s.
Definition newton_stall : Sim1D -> option Sim1D := fun _ => None.
Definition step_floor : Sim1D -> option Sim1D := fun _ => None.
Definition analyze_none : Sim1D -> list GridChange := fun _ => [].
Definition regrid_id : list GridChange -> Sim1D -> Sim1D := fun _ s => s.

(** Bounds of the four leading flow components, for the examples. *)
Definition lo_ex (i : nat) : R :=
  match i with
  | 2%nat => 200
  | 3%nat => -1000
  | _ => -100
  end.

Definition up_ex (i : nat) : R :=
  match i with
  | 2%nat => 5000
  | 3%nat => 1000
  | _ => 100
  end.

(** Distance of [v] to the interval [lo, hi], as the loop accumulates it. *)
Definition bound_distance (lo hi v : R) : R :=
  Rmax (lo - v) 0 + Rmax (v - hi) 0.

(** Every call of a sequence stays within the threshold [tau] of the
    strain rate the call before it recorded, starting from [chi]. *)
Fixpoint all_quiet (calls : list (Z * list R)) (chi tau : R) : Prop :=
  match calls with
  | [] => True
  | (nvar, x) :: rest =>
      exists a, at_int x (nvar - 1) = Some a /\
                Rabs (a - chi) <= tau /\ all_quiet rest a tau
  end.

(** The strain rate the last call of a sequence hands over, [chi] for the
    empty sequence. *)
Fixpoint last_strain (calls : list (Z * list R)) (chi : R) : R :=
  match calls with
  | [] => chi
  | (nvar, x) :: rest =>
      last_strain rest (default chi (at_int x (nvar - 1)))
  end.

(** Three continuation steps of 8 each from 50: every step is within the
    threshold 10, the total move is 24. *)
Definition drift_calls : list (Z * list R) :=
  [(11%Z, x_ex 58); (11%Z, x_ex 66); (11%Z, x_ex 74)].

(** The profile [phi] is the quadratic a z^2 + b z + c of the grid
    coordinate at the three points of the stencil around [j]. *)
Definition quadratic_on (zf phi : nat -> R) (j : nat) (a b c : R) : Prop :=
  forall k, k = (j - 1)%nat \/ k = j \/ k = (j + 1)%nat ->
            phi k = a * zf k * zf k + b * zf k + c.

(** The three grid coordinates of the stencil around [j] are distinct. *)
Definition stencil_distinct (zf : nat -> R) (j : nat) : Prop :=
  zf (j + 1)%nat <> zf j /\ zf j <> zf (j - 1)%nat /\
  zf (j + 1)%nat <> zf (j - 1)%nat.

(** The Spalding mass-transfer number inside [mdot]. *)
Definition spalding (sp : SprayFlame) (x : list R) (j : nat) : R :=
  (Yrs sp x j - Y (sp_flow sp) x (c_offset_fuel sp) j) /
  Rmax (1 - Yrs sp x j) sqrt_dbl_min.

(** Conductivities and fixed-temperature data for the three-point flow of
    the examples, and artificial-viscosity coefficients. *)
Definition more_ex : StFlowMore :=
  {| m_tcon := [2; 2; 2]; m_fixedtemp := [0; 0; 0];
     m_do_energy := [true; true; true] |}.

Definition av_ex : AVCoefficients :=
  {| m_visc_ml := 1 / 10; m_visc_nl := 1 / 10; m_visc_Tl := 1 / 10;
     m_visc_Ul := 1 / 10; m_visc_vl := 1 / 10 |}.

(** A flow with unit viscosity on the grid 0, 1, 3, and a solution whose V
    is z^2 and whose T is 300 + 100 z on it. *)
Definition flow_visc : StFlow :=
  setupGrid [0; 1; 3]
    {| st_dom := {| m_nv := 5; m_points := 0; m_iloc := 1 |};
       m_z := []; m_press := 101325; m_dz := [];
       m_rho := [1; 1; 1]; m_wtm := [28; 28; 28]; m_wt := [28];
       m_cp := [1000; 1000; 1000]; m_visc := [1; 1; 1];
       m_diff := [0; 0; 0]; m_nsp := 1 |}.

(** A flow with three species, and one with 65536. *)
Definition flow_three : StFlow :=
  {| st_dom := {| m_nv := 7; m_points := 0; m_iloc := 1 |};
     m_z := []; m_press := 101325; m_dz := [];
     m_rho := []; m_wtm := []; m_wt := [2; 32; 28];
     m_cp := []; m_visc := []; m_diff := []; m_nsp := 3 |}.

Definition flow_wide : StFlow :=
  {| st_dom := {| m_nv := 7; m_points := 0; m_iloc := 1 |};
     m_z := []; m_press := 101325; m_dz := [];
     m_rho := []; m_wtm := []; m_wt := [];
     m_cp := []; m_visc := []; m_diff := []; m_nsp := Z.to_nat 65536 |}.

Definition x_quad : list R :=
  [-1; 0; 300; 0; 1;  -1; 1; 400; 0; 1;  -1; 9; 600; 0; 1].

(** The spray flame of the examples on the grid 0, 1/100, 3/100 with three
    points, and a solution whose droplet mass falls linearly in z. *)
Definition sp_grid : SprayFlame :=
  {| sp_flow :=
       setupGrid [0; 1 / 100; 3 / 100]
         {| st_dom := {| m_nv := 10; m_points := 0; m_iloc := 1 |};
            m_z := []; m_press := 200000; m_dz := [];
            m_rho := [1; 1; 1]; m_wtm := [100; 100; 100]; m_wt := [100];
            m_cp := [1000; 1000; 1000];
            m_visc := [1 / 100000; 1 / 100000; 1 / 100000];
            m_diff := [1 / 100000; 1 / 100000; 1 / 100000]; m_nsp := 1 |};
     c_offset_fuel := 0;
     m_prs_A := 4; m_prs_B := 1200; m_prs_C := -72; m_Tb := 372;
     m_cvt := bar2Pa;
     m_rhol_A := 700; m_rhol_B := 0; m_rhol_C := 0; m_rhol_D := 0;
     m_cpl := 2200 |}.

Definition x_liquid : list R :=
  [-1; 0; 400; 0; 0; 0; -1; 300; 3; 1000;
   -1; 0; 400; 0; 0; 0; -1; 300; 2; 1000;
   -1; 0; 400; 0; 0; 0; -1; 300; 0; 1000].

(** A spray flame before its vapor-pressure parameters are set, for the
    examples of the unit dispatch. *)
Definition sp_unset : SprayFlame := with_prs 0 0 0 0 0 sp_wet.

(** A flow of one point and one species with its thermo object, an
    ideal-gas density, and a simulation laid out for it: the unknowns are
    u, V, T, lambda and Y, followed by the strain rate. *)
Definition flow_gas : FlowState :=
  {| fs_flow :=
       {| st_dom := {| m_nv := 5; m_points := 1; m_iloc := 0 |};
          m_z := [0]; m_press := 101325; m_dz := [];
          m_rho := [1]; m_wtm := [28]; m_wt := [28];
          m_cp := [1000]; m_visc := [1]; m_diff := [0]; m_nsp := 1 |};
     fs_thermo := {| th_T := 300; th_P := 101325; th_Y := [1] |} |}.

Definition density_gas (th : ThermoPhase) : R :=
  th_P th * 28 / (8314 * th_T th).

Definition eval_gas
  : Sim1D -> option FlowState -> list R -> R -> list R * option FlowState :=
  eval_flow density_gas (fun _ => 28) (fun _ => 1000) residual_id.

Definition sim_gas : Sim1D :=
  {| m_x := [1; 0; 300; 0; 1];
     m_chi := 50;
     m_amplify_threshold := 10;
     m_uin_f := 3; m_uin_o := 4;
     m_rhoin_f := 2; m_rhoin_o := 1;
     lb := [-100; -100; 200; -1000; 0; 0];
     ub := [100; 100; 5000; 1000; 1; 10000000000];
     inlet_f := {| inlet_dom := {| m_nv := 0; m_points := 1; m_iloc := 0 |};
                   m_mdot := 6 |};
     flow := {| m_nv := 5; m_points := 1; m_iloc := 0 |};
     inlet_o := {| inlet_dom := {| m_nv := 0; m_points := 1; m_iloc := 5 |};
                   m_mdot := 4 |} |}.

(** The caller's buffers: a vector whose temperature lies 50 below its
    lower bound, and a residual buffer. *)
Definition b_gas : Buffers :=
  {| buf_x := [1; 0; 150; 0; 1; 50]; buf_f := [0; 0; 0; 0; 0; 0] |}.

(** The solver state machine of the specification, as a transition
    relation on a phase and a simulation, and its runs of [n]
    transitions. *)
Section SolverMachine.

Variable OneDim_solve : Sim1D -> option Sim1D.
Variable timeStep : Sim1D -> option Sim1D.
Variable analyze : Sim1D -> list GridChange.
Variable regrid : list GridChange -> Sim1D -> Sim1D.
Variable refine_grid : bool.

Inductive solver_step : Phase * Sim1D -> Phase * Sim1D -> Prop :=
  | step_newton_success (s s' : Sim1D) :
      OneDim_solve s = Some s' -> solver_step (NEWTON, s) (REFINE, s')
  | step_newton_stall (s : Sim1D) :
      OneDim_solve s = None -> solver_step (NEWTON, s) (TSTEP, s)
  | step_tstep_block (s s' : Sim1D) :
      timeStep s = Some s' -> solver_step (TSTEP, s) (NEWTON, s')
  | step_tstep_floor (s : Sim1D) :
      timeStep s = None -> solver_step (TSTEP, s) (FAIL, s)
  | step_refine_off (s : Sim1D) :
      refine_grid = false -> solver_step (REFINE, s) (SUCCESS, s)
  | step_refine_converged (s : Sim1D) :
      refine_grid = true -> analyze s = [] ->
      solver_step (REFINE, s) (SUCCESS, regrid [] s)
  | step_refine_changed (s : Sim1D) :
      refine_grid = true -> analyze s <> [] ->
      solver_step (REFINE, s) (NEWTON, regrid (analyze s) s).

Inductive solver_run : nat -> Phase * Sim1D -> Phase * Sim1D -> Prop :=
  | run_stay (c : Phase * Sim1D) : solver_run 0 c c
  | run_step (n : nat) (c1 c2 c3 : Phase * Sim1D) :
      solver_step c1 c2 -> solver_run n c2 c3 -> solver_run (S n) c1 c3.

(** The machine reaches SUCCESS with simulation [s'] in fewer than [fuel]
    transitions. *)
Definition succeeds (fuel : nat) (s s' : Sim1D) : Prop :=
  exists n, (n < fuel)%nat /\ solver_run n (NEWTON, s) (SUCCESS, s').

End SolverMachine.

(** A double that is a finite number. *)
Definition is_finite (a : Ieee.double) : Prop := exists r, a = Ieee.Fin r.

(** The logarithmic factor of the evaporation rate, with its exceptional
    values. *)
Definition ieee_log_term (sp : SprayFlame) (x : list R) (j : nat)
  : Ieee.double :=
  Ieee.log
    (Ieee.add (Ieee.Fin 1)
       (Ieee.div
          (Ieee.sub (Ieee.Yrs sp x j)
             (Ieee.Fin (Y (sp_flow sp) x (c_offset_fuel sp) j)))
          (Ieee.max (Ieee.sub (Ieee.Fin 1) (Ieee.Yrs sp x j))
             (Ieee.Fin sqrt_dbl_min)))).

(** The divisor of the argument of exp in q. *)
Definition ieee_q_divisor (sp : SprayFlame) (x : list R) (j : nat)
  : Ieee.double :=
  Ieee.mul
    (Ieee.mul
       (Ieee.mul (Ieee.mul (Ieee.Fin 2) (Ieee.Fin Pi))
          (Ieee.Fin (m_rho (sp_flow sp) !!! j)))
       (Ieee.Fin (Dgf sp j)))
    (Ieee.dl sp x j).

(** A solution on the two points of [sp_wet] with a droplet at point 0 and,
    at point 1, no liquid mass in pure fuel vapor (Y_fuel = 1). *)
Definition x_dry : list R :=
  [-1; 0; 400; 0; 0; 0; -1; 300; 1 / 1000000000; 1000;
   -1; 0; 400; 0; 1; 0; -1; 300; 0; 0].

(** The state the thermo object is set to at point [j] of solution [x]. *)
Definition point_state (fl : StFlow) (x : list R) (j : nat) : ThermoPhase :=
  {| th_T := T fl x j;
     th_P := m_press fl;
     th_Y := map (fun k => Y fl x k j) (seq 0 (m_nsp fl)) |}.

(** * Properties *)

(** ** The solution slots of the flow domain *)

Lemma slot_inj (s : Sim1D) (c c' j j' : nat) :
  (c < m_nv (flow s))%nat -> (c' < m_nv (flow s))%nat ->
  slot s c j = slot s c' j' -> c = c' /\ j = j'.
Proof.
  unfold slot, index. intros Hc Hc' Heq.
  assert (j = j') by nia. subst. split; [lia | reflexivity].
Qed.

Lemma slot_with_m_x (s : Sim1D) (v : list R) (c j : nat) :
  slot (with_m_x v s) c j = slot s c j.
Proof. reflexivity. Qed.

Lemma value_flow (s : Sim1D) (c j : nat) :
  value s 1 c j = m_x s !! slot s c j.
Proof. reflexivity. Qed.

Lemma setValue_flow (s : Sim1D) (c j : nat) (v : R) :
  (slot s c j < length (m_x s))%nat ->
  setValue s 1 c j v = Some (with_m_x (<[slot s c j := v]> (m_x s)) s).
Proof.
  intros H. unfold setValue. simpl. fold (slot s c j).
  destruct (decide _); [reflexivity | contradiction].
Qed.

Lemma with_m_x_idem (v w : list R) (s : Sim1D) :
  with_m_x v (with_m_x w s) = with_m_x v s.
Proof. reflexivity. Qed.

(** The loop scales the u and V slots of the points it visits, leaves every
    other slot alone and touches no other member. *)
Lemma amplify_spec (ratio : R) (n : nat) :
  forall (i : nat) (s : Sim1D),
    (c_offset_V < m_nv (flow s))%nat ->
    (loc (flow s) + m_nv (flow s) * (i + n) <= length (m_x s))%nat ->
    exists s',
      amplify n i c_offset_U c_offset_V ratio s = Some s' /\
      s' = with_m_x (m_x s') s /\
      length (m_x s') = length (m_x s) /\
      (forall j c, (i <= j < i + n)%nat -> (c = c_offset_U \/ c = c_offset_V) ->
         m_x s' !! slot s c j = (fun v => v * ratio) <$> m_x s !! slot s c j) /\
      (forall k, (forall j, (i <= j < i + n)%nat ->
                   k <> slot s c_offset_U j /\ k <> slot s c_offset_V j) ->
         m_x s' !! k = m_x s !! k).
Proof.
  induction n as [|n IH]; intros i s Hnv Hlen.
  - exists s. simpl. repeat split; try (by destruct s); intros; lia.
  - assert (HU : (slot s c_offset_U i < length (m_x s))%nat).
    { unfold slot, index, loc, c_offset_U, c_offset_V in *. nia. }
    assert (HV : (slot s c_offset_V i < length (m_x s))%nat).
    { unfold slot, index, loc, c_offset_U, c_offset_V in *. nia. }
    assert (HUV : slot s c_offset_U i <> slot s c_offset_V i).
    { unfold slot, index, c_offset_U, c_offset_V. lia. }
    destruct (lookup_lt_is_Some_2 _ _ HU) as [u0 Hu0].
    destruct (lookup_lt_is_Some_2 _ _ HV) as [v0 Hv0].
    set (x1 := <[slot s c_offset_U i := u0 * ratio]> (m_x s)).
    set (x2 := <[slot s c_offset_V i := v0 * ratio]> x1).
    destruct (IH (S i) (with_m_x x2 s)) as (s' & Hrun & Hfr & Hl & Hsc & Hkeep).
    { exact Hnv. }
    { cbn [m_x flow with_m_x]. unfold x2, x1. rewrite !length_insert.
      replace (S i + n)%nat with (i + S n)%nat by lia. exact Hlen. }
    exists s'. cbn [m_x with_m_x] in Hfr, Hl, Hsc, Hkeep.
    change (slot (with_m_x x2 s)) with (slot s) in Hsc, Hkeep.
    rewrite with_m_x_idem in Hfr.
    assert (Hx2 : length x2 = length (m_x s)).
    { unfold x2, x1. by rewrite !length_insert. }
    split; [|split; [|split; [|split]]].
    + cbn [amplify]. rewrite value_flow, Hu0. cbn [mbind option_bind].
      rewrite setValue_flow by exact HU. cbn [mbind option_bind].
      rewrite value_flow. cbn [m_x with_m_x]. rewrite slot_with_m_x.
      rewrite list_lookup_insert_ne by exact HUV. rewrite Hv0.
      cbn [mbind option_bind].
      rewrite setValue_flow
        by (cbn [m_x with_m_x]; rewrite slot_with_m_x, length_insert; exact HV).
      cbn [mbind option_bind m_x with_m_x]. rewrite slot_with_m_x.
      rewrite with_m_x_idem. exact Hrun.
    + rewrite Hfr at 1. reflexivity.
    + rewrite Hl. exact Hx2.
    + intros j c Hj Hc.
      assert (Hcn : (c < m_nv (flow s))%nat).
      { unfold c_offset_U, c_offset_V in *. destruct Hc; lia. }
      destruct (decide (j = i)) as [->|Hne].
      * rewrite Hkeep.
        -- unfold x2, x1. destruct Hc as [-> | ->].
           ++ rewrite list_lookup_insert_ne by (intros E; apply HUV; auto).
              rewrite list_lookup_insert_eq by exact HU. by rewrite Hu0.
           ++ rewrite list_lookup_insert_eq
                by (rewrite length_insert; exact HV). by rewrite Hv0.
        -- intros j' Hj'. split; intros E;
             apply slot_inj in E; unfold c_offset_U, c_offset_V in *; lia.
      * rewrite (Hsc j c ltac:(lia) Hc).
        f_equal. unfold x2, x1.
        rewrite !list_lookup_insert_ne; [reflexivity | |];
          intros E; apply slot_inj in E;
          unfold c_offset_U, c_offset_V in *; lia.
    + intros k Hk. rewrite Hkeep.
      * unfold x2, x1.
        destruct (Hk i ltac:(lia)) as [HkU HkV].
        rewrite !list_lookup_insert_ne; auto.
      * intros j Hj. apply Hk. lia.
Qed.

Lemma setValue_frame (s s' : Sim1D) (dom c j : nat) (v : R) :
  setValue s dom c j v = Some s' -> s' = with_m_x (m_x s') s.
Proof.
  unfold setValue. destruct (domain s dom) as [d|]; [|discriminate].
  cbn [mbind option_bind]. destruct (decide _); [|discriminate].
  intros [= <-]. reflexivity.
Qed.

(** Whenever the loop completes, the solution vector is the only member it
    has changed. *)
Lemma amplify_frame (ratio : R) (cu cv n : nat) :
  forall (i : nat) (s s' : Sim1D),
    amplify n i cu cv ratio s = Some s' -> s' = with_m_x (m_x s') s.
Proof.
  induction n as [|n IH]; intros i s s' H; cbn [amplify] in H.
  - injection H as <-. by destruct s.
  - destruct (value s 1 cu i) as [u0|]; [|discriminate].
    cbn [mbind option_bind] in H.
    destruct (setValue s 1 cu i (u0 * ratio)) as [s1|] eqn:E1; [|discriminate].
    cbn [mbind option_bind] in H.
    destruct (value s1 1 cv i) as [v0|]; [|discriminate].
    cbn [mbind option_bind] in H.
    destruct (setValue s1 1 cv i (v0 * ratio)) as [s2|] eqn:E2; [|discriminate].
    cbn [mbind option_bind] in H.
    apply IH in H. apply setValue_frame in E1, E2.
    rewrite H, E2, E1. reflexivity.
Qed.

Lemma setStrainRate_inv (nvar : Z) (x : list R) (s s' : Sim1D) :
  setStrainRate nvar x s = Some s' ->
  exists a1,
    at_int x (nvar - 1) = Some a1 /\
    ((~ Rabs (m_chi s - a1) > m_amplify_threshold s /\
      s' = setStrainRateValue a1 s) \/
     (Rabs (m_chi s - a1) > m_amplify_threshold s /\
      exists s1,
        amplify (nPoints (flow s)) 0 c_offset_U c_offset_V (a1 / m_chi s) s
          = Some s1 /\
        s' = amplified a1 (m_x s1) s)).
Proof.
  unfold setStrainRate. intros H.
  destruct (at_int x (nvar - 1)) as [a1|]; [|discriminate].
  exists a1. split; [reflexivity|]. cbn [mbind option_bind] in H.
  destruct (decide (Rabs (m_chi s - a1) > m_amplify_threshold s)) as [Hgt|Hle].
  - right. split; [exact Hgt|].
    change (componentIndex "u") with (Some c_offset_U) in H.
    change (componentIndex "V") with (Some c_offset_V) in H.
    cbn [mbind option_bind] in H.
    destruct (amplify _ _ _ _ _ s) as [s1|] eqn:E; [|discriminate].
    cbn [mbind option_bind] in H. injection H as <-.
    exists s1. split; [reflexivity|].
    apply amplify_frame in E. rewrite E. reflexivity.
  - left. split; [exact Hle|]. cbn [mbind option_bind] in H.
    by injection H as <-.
Qed.

(** A call below the threshold only records the new strain rate. *)
Lemma setStrainRate_quiet (nvar : Z) (x : list R) (s : Sim1D) (a1 : R) :
  at_int x (nvar - 1) = Some a1 ->
  ~ Rabs (m_chi s - a1) > m_amplify_threshold s ->
  setStrainRate nvar x s = Some (setStrainRateValue a1 s).
Proof.
  intros Hx Hle. unfold setStrainRate. rewrite Hx. cbn [mbind option_bind].
  destruct (decide _) as [Hgt|_]; [contradiction|]. reflexivity.
Qed.

(** A call above the threshold completes on a well-laid-out simulation. *)
Lemma setStrainRate_loud (nvar : Z) (x : list R) (s : Sim1D) (a1 : R) :
  at_int x (nvar - 1) = Some a1 ->
  Rabs (m_chi s - a1) > m_amplify_threshold s ->
  flow_in_range s ->
  exists xs,
    setStrainRate nvar x s = Some (amplified a1 xs s) /\
    length xs = length (m_x s) /\
    (forall j c, (j < nPoints (flow s))%nat ->
       (c = c_offset_U \/ c = c_offset_V) ->
       xs !! slot s c j = (fun v => v * (a1 / m_chi s)) <$> m_x s !! slot s c j) /\
    (forall k, (forall j, (j < nPoints (flow s))%nat ->
                 k <> slot s c_offset_U j /\ k <> slot s c_offset_V j) ->
       xs !! k = m_x s !! k).
Proof.
  intros Hx Hgt [Hnv Hlen].
  destruct (amplify_spec (a1 / m_chi s) (nPoints (flow s)) 0 s Hnv)
    as (s1 & Hrun & Hfr & Hl & Hsc & Hkeep).
  { exact Hlen. }
  exists (m_x s1). split; [|split; [exact Hl|split]].
  - unfold setStrainRate. rewrite Hx. cbn [mbind option_bind].
    destruct (decide _) as [_|Hle]; [|contradiction].
    change (componentIndex "u") with (Some c_offset_U).
    change (componentIndex "V") with (Some c_offset_V).
    cbn [mbind option_bind]. rewrite Hrun. cbn [mbind option_bind].
    rewrite Hfr. reflexivity.
  - intros j c Hj Hc. apply Hsc; [lia | exact Hc].
  - intros k Hk. apply Hkeep. intros j Hj. apply Hk. lia.
Qed.

Lemma Rabs_gt_intro (a b t : R) : t < a - b \/ t < b - a -> Rabs (a - b) > t.
Proof. intros H. unfold Rabs. destruct (Rcase_abs _); lra. Qed.

Lemma sim_ex_in_range : flow_in_range sim_ex.
Proof. unfold flow_in_range, c_offset_V. simpl. lia. Qed.

Lemma value_amplified (a1 : R) (xs : list R) (s : Sim1D) (c j : nat) :
  value (amplified a1 xs s) 1 c j = xs !! slot s c j.
Proof. reflexivity. Qed.

(** C1.  The code at the failing input: strain rate 50, threshold 10, stored
    fuel inlet velocity 3 and density 2 (oxidizer 4 and 1), inlets carrying
    the fluxes 6 and 4, followed by the continuation steps to 100 and then
    to 200.  Both calls are amplifying and complete; the axial velocity of
    the first flow point goes 3, 6, 12 and the stored strain rate 50, 100,
    200, but the stored inlet velocities stay 3 and 4 and both calls
    install the same fluxes 12 and 8.  Over the second call the flux ratios
    are 1 where the strain rate ratio is 2. *)
Theorem setStrainRate_sequence_flux :
  exists s1 s2,
    setStrainRate 11 (x_ex 100) sim_ex = Some s1 /\
    setStrainRate 11 (x_ex 200) s1 = Some s2 /\
    Rabs (100 - m_chi sim_ex) > m_amplify_threshold sim_ex /\
    Rabs (200 - m_chi s1) > m_amplify_threshold s1 /\
    (m_chi s1 = 100 /\ m_chi s2 = 200) /\
    (value s1 1 c_offset_U 0 = Some 6 /\ value s2 1 c_offset_U 0 = Some 12) /\
    (m_uin_f s2 = 3 /\ m_uin_o s2 = 4) /\
    (m_mdot (inlet_f s1) = 12 /\ m_mdot (inlet_f s2) = 12) /\
    (m_mdot (inlet_o s1) = 8 /\ m_mdot (inlet_o s2) = 8) /\
    m_chi s2 / m_chi s1 = 2 /\
    m_mdot (inlet_f s2) / m_mdot (inlet_f s1) = 1 /\
    m_mdot (inlet_o s2) / m_mdot (inlet_o s1) = 1.
Proof.
  destruct (setStrainRate_loud 11 (x_ex 100) sim_ex 100)
    as (xs1 & H1 & Hl1 & Hsc1 & _); [reflexivity | | apply sim_ex_in_range |].
  { apply Rabs_gt_intro. simpl. lra. }
  destruct (setStrainRate_loud 11 (x_ex 200) (amplified 100 xs1 sim_ex) 200)
    as (xs2 & H2 & _ & Hsc2 & _); [reflexivity | | |].
  { apply Rabs_gt_intro. simpl. lra. }
  { unfold flow_in_range, c_offset_V. cbn. rewrite Hl1. simpl. lia. }
  specialize (Hsc1 0%nat c_offset_U ltac:(simpl; lia) (or_introl eq_refl)).
  specialize (Hsc2 0%nat c_offset_U ltac:(simpl; lia) (or_introl eq_refl)).
  change (slot (amplified 100 xs1 sim_ex)) with (slot sim_ex) in Hsc2.
  change (m_x (amplified 100 xs1 sim_ex)) with xs1 in Hsc2.
  rewrite Hsc1 in Hsc2.
  exists (amplified 100 xs1 sim_ex), (amplified 200 xs2 (amplified 100 xs1 sim_ex)).
  split; [exact H1|]. split; [exact H2|].
  split; [apply Rabs_gt_intro; simpl; lra|].
  split; [apply Rabs_gt_intro; simpl; lra|].
  split; [split; reflexivity|].
  split.
  { rewrite !value_amplified.
    change (slot (amplified 100 xs1 sim_ex)) with (slot sim_ex).
    rewrite Hsc2, Hsc1. cbn. split; f_equal; lra. }
  split; [split; reflexivity|].
  cbn. repeat split; lra.
Qed.

Lemma Rabs_le_intro (a b t : R) : a - b <= t -> b - a <= t -> Rabs (a - b) <= t.
Proof. intros H1 H2. unfold Rabs. destruct (Rcase_abs _); lra. Qed.

(** C3, as stated, fails: a call with x[N] = 55 on strain rate 50 and
    threshold 10 is below the threshold, and it changes the stored strain
    rate to 55. *)
Lemma setStrainRate_quiet_counterexample :
  exists s',
    Rabs (55 - m_chi sim_ex) <= m_amplify_threshold sim_ex /\
    setStrainRate 11 (x_ex 55) sim_ex = Some s' /\
    m_chi s' <> m_chi sim_ex.
Proof.
  exists (setStrainRateValue 55 sim_ex). split; [|split].
  - apply Rabs_le_intro; simpl; lra.
  - apply setStrainRate_quiet; [reflexivity|].
    intros H. apply Rgt_not_le in H. apply H.
    apply Rabs_le_intro; simpl; lra.
  - simpl. lra.
Qed.

(** C3 (amended).  A call with |x[N] - chi| at or below the threshold
    completes and leaves the solution vector (so every u and V value), both
    inlets and every other member as they were, except the stored strain
    rate, which becomes x[N]. *)
Theorem setStrainRate_below_threshold (nvar : Z) (x : list R) (s : Sim1D)
    (a1 : R) :
  at_int x (nvar - 1) = Some a1 ->
  Rabs (a1 - m_chi s) <= m_amplify_threshold s ->
  exists s',
    setStrainRate nvar x s = Some s' /\
    m_x s' = m_x s /\
    (forall c j, value s' 1 c j = value s 1 c j) /\
    inlet_f s' = inlet_f s /\
    inlet_o s' = inlet_o s /\
    m_chi s' = a1 /\
    s' = setStrainRateValue a1 s.
Proof.
  intros Hx Hle. exists (setStrainRateValue a1 s).
  split; [|repeat split].
  apply setStrainRate_quiet; [exact Hx|].
  rewrite Rabs_minus_sym. intros H. apply Rgt_not_le in H. exact (H Hle).
Qed.

Lemma setStrainRate_below_threshold_witness :
  exists s',
    setStrainRate 11 (x_ex 55) sim_ex = Some s' /\
    m_x s' = m_x sim_ex /\
    m_mdot (inlet_f s') = 6 /\
    m_chi s' = 55.
Proof.
  destruct (setStrainRate_below_threshold 11 (x_ex 55) sim_ex 55)
    as (s' & Hrun & Hx & _ & Hf & _ & Hchi & _).
  - reflexivity.
  - apply Rabs_le_intro; simpl; lra.
  - exists s'. rewrite Hf. auto.
Defined.

Lemma continuation_keeps_inlet_setup (calls : list (Z * list R)) :
  forall s sk,
    continuation calls s = Some sk ->
    m_uin_f sk = m_uin_f s /\ m_uin_o sk = m_uin_o s /\
    m_rhoin_f sk = m_rhoin_f s /\ m_rhoin_o sk = m_rhoin_o s.
Proof.
  induction calls as [|[nvar x] rest IH]; intros s sk H; cbn [continuation] in H.
  - by injection H as <-.
  - destruct (setStrainRate nvar x s) as [s1|] eqn:E; [|discriminate].
    cbn [mbind option_bind] in H. apply IH in H.
    apply setStrainRate_inv in E as (a1 & _ & [[_ ->] | [_ (s2 & _ & ->)]]);
      exact H.
Qed.

(** C10.  Whenever a call completes, the stored inlet velocities and
    densities are what they were, also after any number of earlier calls;
    and an amplifying call installs the fluxes computed from those stored
    values times the ratio x[N]/chi of this call alone. *)
Theorem setStrainRate_keeps_inlet_setup (calls : list (Z * list R))
    (s sk s' : Sim1D) (nvar : Z) (x : list R) :
  continuation calls s = Some sk ->
  setStrainRate nvar x sk = Some s' ->
  (m_uin_f s' = m_uin_f s /\ m_uin_o s' = m_uin_o s /\
   m_rhoin_f s' = m_rhoin_f s /\ m_rhoin_o s' = m_rhoin_o s) /\
  (forall a1,
     at_int x (nvar - 1) = Some a1 ->
     Rabs (a1 - m_chi sk) > m_amplify_threshold sk ->
     m_mdot (inlet_f s') = m_rhoin_f s * (m_uin_f s * (a1 / m_chi sk)) /\
     m_mdot (inlet_o s') = m_rhoin_o s * (m_uin_o s * (a1 / m_chi sk))).
Proof.
  intros Hseq Hrun.
  destruct (continuation_keeps_inlet_setup calls s sk Hseq)
    as (Huf & Huo & Hrf & Hro).
  apply setStrainRate_inv in Hrun as (a & Ha & Hcases).
  split.
  - destruct Hcases as [[_ ->] | [_ (s1 & _ & ->)]]; cbn; auto.
  - intros a1 Ha1 Hgt. rewrite Ha in Ha1. injection Ha1 as ->.
    rewrite Rabs_minus_sym in Hgt.
    destruct Hcases as [[Hle _] | [_ (s1 & _ & ->)]]; [contradiction|].
    cbn. rewrite Huf, Huo, Hrf, Hro. auto.
Qed.

Lemma setStrainRate_keeps_inlet_setup_witness :
  exists s1 s2,
    continuation [(11%Z, x_ex 100)] sim_ex = Some s1 /\
    setStrainRate 11 (x_ex 200) s1 = Some s2 /\
    m_uin_f s2 = 3 /\
    m_mdot (inlet_f s2) = 2 * (3 * (200 / 100)).
Proof.
  destruct (setStrainRate_loud 11 (x_ex 100) sim_ex 100)
    as (xs1 & H1 & Hl1 & _); [reflexivity | | apply sim_ex_in_range |].
  { apply Rabs_gt_intro. simpl. lra. }
  destruct (setStrainRate_loud 11 (x_ex 200) (amplified 100 xs1 sim_ex) 200)
    as (xs2 & H2 & _); [reflexivity | | |].
  { apply Rabs_gt_intro. simpl. lra. }
  { unfold flow_in_range, c_offset_V. cbn. rewrite Hl1. simpl. lia. }
  eexists _, _.
  assert (Hseq : continuation [(11%Z, x_ex 100)] sim_ex
                 = Some (amplified 100 xs1 sim_ex)).
  { cbn [continuation]. rewrite H1. reflexivity. }
  destruct (setStrainRate_keeps_inlet_setup _ _ _ _ _ _ Hseq H2)
    as [(Huf & _) Hflux].
  destruct (Hflux 200 eq_refl) as [Hf _].
  { apply Rabs_gt_intro. simpl. lra. }
  split; [exact Hseq|]. split; [exact H2|]. split; [exact Huf|exact Hf].
Defined.

(** ** The bounded residue *)

Lemma sum_from_plus (g h : nat -> R) (n : nat) :
  forall i, sum_from i n (fun k => g k + h k) = sum_from i n g + sum_from i n h.
Proof.
  induction n as [|n IH]; intros i; cbn [sum_from]; [lra|]. rewrite IH. lra.
Qed.

Lemma sum_from_zero (g : nat -> R) (n : nat) :
  forall i, (forall k, (i <= k < i + n)%nat -> g k = 0) -> sum_from i n g = 0.
Proof.
  induction n as [|n IH]; intros i H; cbn [sum_from]; [reflexivity|].
  rewrite H by lia. rewrite IH; [lra|]. intros k Hk. apply H. lia.
Qed.

Lemma proj_contrib_below (lo hi v : R) :
  lo <= hi -> v < lo ->
  proj_spec lo hi v = lo /\ Rmax (lo - v) 0 + Rmax (v - hi) 0 = lo - v.
Proof.
  intros. unfold proj_spec, Rmax, Rmin. repeat destruct (Rle_dec _ _); lra.
Qed.

Lemma proj_contrib_above (lo hi v : R) :
  lo <= hi -> ~ v < lo -> v > hi ->
  proj_spec lo hi v = hi /\ Rmax (lo - v) 0 + Rmax (v - hi) 0 = v - hi.
Proof.
  intros. unfold proj_spec, Rmax, Rmin. repeat destruct (Rle_dec _ _); lra.
Qed.

Lemma proj_contrib_inside (lo hi v : R) :
  ~ v < lo -> ~ v > hi ->
  proj_spec lo hi v = v /\ Rmax (lo - v) 0 + Rmax (v - hi) 0 = 0.
Proof.
  intros. unfold proj_spec, Rmax, Rmin. repeat destruct (Rle_dec _ _); lra.
Qed.

(** The projection loop completes inside the buffers; it writes the
    projection of the entries it visits and adds their distance to the
    bounds. *)
Lemma project_spec (x lbs ubs : list R) (n : nat) :
  forall (i : nat) (xB : list R) (e : R),
    (i + n <= length x)%nat -> (i + n <= length lbs)%nat ->
    (i + n <= length ubs)%nat -> (i + n <= length xB)%nat ->
    (forall k, (i <= k < i + n)%nat -> lbs !!! k <= ubs !!! k) ->
    exists xB' e',
      project n i x lbs ubs xB e = Some (xB', e') /\
      e' = e + sum_from i n (fun k => Rmax (lbs !!! k - x !!! k) 0 +
                                      Rmax (x !!! k - ubs !!! k) 0) /\
      length xB' = length xB /\
      (forall k, (i <= k < i + n)%nat ->
         xB' !! k = Some (proj_spec (lbs !!! k) (ubs !!! k) (x !!! k))) /\
      (forall k, ~ (i <= k < i + n)%nat -> xB' !! k = xB !! k).
Proof.
  induction n as [|n IH]; intros i xB e Hx Hl Hu HB Hord.
  - exists xB, e. cbn [project sum_from]. repeat split; try lra; intros; lia.
  - destruct (lookup_lt_is_Some_2 x i ltac:(lia)) as [xi Hxi].
    destruct (lookup_lt_is_Some_2 lbs i ltac:(lia)) as [lbi Hlbi].
    destruct (lookup_lt_is_Some_2 ubs i ltac:(lia)) as [ubi Hubi].
    pose proof (list_lookup_total_correct _ _ _ Hxi) as Txi.
    pose proof (list_lookup_total_correct _ _ _ Hlbi) as Tlbi.
    pose proof (list_lookup_total_correct _ _ _ Hubi) as Tubi.
    pose proof (Hord i ltac:(lia)) as Hord_i. rewrite Tlbi, Tubi in Hord_i.
    cbn [project sum_from]. rewrite Hxi, Hlbi, Hubi. cbn [mbind option_bind].
    rewrite Txi, Tlbi, Tubi.
    assert (Hstep : forall v c,
      proj_spec lbi ubi xi = v ->
      Rmax (lbi - xi) 0 + Rmax (xi - ubi) 0 = c ->
      exists xB' e',
        project n (S i) x lbs ubs (<[i := v]> xB) (e + c) = Some (xB', e') /\
        e' = e + (Rmax (lbi - xi) 0 + Rmax (xi - ubi) 0 +
                  sum_from (S i) n
                    (fun k => Rmax (lbs !!! k - x !!! k) 0 +
                              Rmax (x !!! k - ubs !!! k) 0)) /\
        length xB' = length xB /\
        (forall k, (i <= k < i + S n)%nat ->
           xB' !! k = Some (proj_spec (lbs !!! k) (ubs !!! k) (x !!! k))) /\
        (forall k, ~ (i <= k < i + S n)%nat -> xB' !! k = xB !! k)).
    { intros v c Hv Hc.
      destruct (IH (S i) (<[i := v]> xB) (e + c))
        as (xB' & e' & Hrun & He & Hlen & Hin & Hout);
        try (rewrite ?length_insert; lia).
      { intros k Hk. apply Hord. lia. }
      exists xB', e'. split; [exact Hrun|]. split; [rewrite He, Hc; lra|].
      split; [by rewrite Hlen, length_insert|]. split.
      - intros k Hk. destruct (decide (k = i)) as [->|Hne].
        + rewrite Hout by lia. rewrite list_lookup_insert_eq by lia.
          by rewrite Tlbi, Tubi, Txi, Hv.
        + apply Hin. lia.
      - intros k Hk. rewrite Hout by lia.
        apply list_lookup_insert_ne. lia. }
    destruct (decide (xi < lbi)) as [Hlt|Hnlt].
    + destruct (proj_contrib_below lbi ubi xi Hord_i Hlt) as [Hp Hc].
      exact (Hstep lbi (lbi - xi) Hp Hc).
    + destruct (decide (xi > ubi)) as [Hgt|Hngt].
      * destruct (proj_contrib_above lbi ubi xi Hord_i Hnlt Hgt) as [Hp Hc].
        exact (Hstep ubi (xi - ubi) Hp Hc).
      * destruct (proj_contrib_inside lbi ubi xi Hnlt Hngt) as [Hp Hc].
        destruct (Hstep xi 0 Hp Hc) as (xB' & e' & Hrun & Hrest).
        exists xB', e'. split; [|exact Hrest].
        rewrite <- Hrun. f_equal. lra.
Qed.

Lemma perturb_sign (v : R) :
  (if decide (v > 0) then eps_min else - eps_min) = sign_or_minus v * eps_min.
Proof. unfold sign_or_minus. destruct (decide _); lra. Qed.

(** The steepening loop completes inside the buffer and replaces the
    entries it visits. *)
Lemma steepen_spec (e : R) (n : nat) :
  forall (i : nat) (f : list R),
    (i + n <= length f)%nat ->
    exists f',
      steepen n i eps_min e f = Some f' /\
      length f' = length f /\
      (forall k, (i <= k < i + n)%nat ->
         f' !! k = (fun v => steepened sign_or_minus v e) <$> f !! k) /\
      (forall k, ~ (i <= k < i + n)%nat -> f' !! k = f !! k).
Proof.
  induction n as [|n IH]; intros i f Hlen.
  - exists f. cbn [steepen]. repeat split; intros; lia.
  - destruct (lookup_lt_is_Some_2 f i ltac:(lia)) as [fi Hfi].
    cbn [steepen]. rewrite Hfi. cbn [mbind option_bind].
    rewrite perturb_sign. fold (steepened sign_or_minus fi e).
    destruct (IH (S i) (<[i := steepened sign_or_minus fi e]> f))
      as (f' & Hrun & Hl & Hin & Hout); [rewrite length_insert; lia|].
    exists f'. split; [exact Hrun|]. split; [by rewrite Hl, length_insert|].
    split.
    + intros k Hk. destruct (decide (k = i)) as [->|Hne].
      * rewrite Hout by lia. rewrite list_lookup_insert_eq by lia.
        by rewrite Hfi.
      * rewrite Hin by lia. by rewrite list_lookup_insert_ne by lia.
    + intros k Hk. rewrite Hout by lia. apply list_lookup_insert_ne. lia.
Qed.

Lemma projected_lookup (n : nat) (x lbs ubs : list R) (k : nat) :
  (k < n)%nat ->
  projected n x lbs ubs !! k
  = Some (proj_spec (lbs !!! k) (ubs !!! k) (x !!! k)).
Proof.
  intros Hk. unfold projected. rewrite list_lookup_fmap.
  rewrite lookup_seq_lt by exact Hk. reflexivity.
Qed.

Lemma projected_length (n : nat) (x lbs ubs : list R) :
  length (projected n x lbs ubs) = n.
Proof. unfold projected. by rewrite length_map, length_seq. Qed.

Section ResidueProperties.

Variable OneDim_eval : Sim1D -> list R -> R -> list R.

Lemma bound_residue_run (nvar : Z) (b : Buffers) (s : Sim1D) :
  fits OneDim_eval nvar b s ->
  let n := Z.to_nat nvar in
  let s1 := projected_sim n b s in
  let g := residual_buffer OneDim_eval s1 (buf_f b) in
  let excess := excess_spec n (buf_x b) (lb s) (ub s) in
  exists f',
    bound_residue OneDim_eval nvar b s
    = Some ({| buf_x := buf_x b; buf_f := f' |}, s1) /\
    length f' = length (buf_f b) /\
    length g = length (buf_f b) /\
    (forall k, (k < n)%nat ->
       f' !! k = (fun v => steepened sign_or_minus v excess) <$> g !! k) /\
    (forall k, (n <= k)%nat -> f' !! k = g !! k).
Proof.
  intros (Hnv & Hx & Hlb & Hub & Hf & Hmx & Hres & Hord) n s1 g excess.
  fold n in Hx, Hlb, Hub, Hf, Hmx, Hord. fold s1 in Hres.
  destruct (project_spec (buf_x b) (lb s) (ub s) n 0 (replicate n 0) 0)
    as (xB & e & Hproj & He & HlB & Hin & Hout);
    try (rewrite ?length_replicate; lia).
  { intros k Hk. apply Hord. lia. }
  rewrite length_replicate in HlB.
  assert (HxB : xB = projected n (buf_x b) (lb s) (ub s)).
  { apply list_eq. intros k. destruct (decide (k < n)%nat) as [Hk|Hk].
    - rewrite Hin by lia. by rewrite projected_lookup.
    - rewrite !lookup_ge_None_2; [done | rewrite projected_length; lia | lia]. }
  assert (Hex : e = excess).
  { rewrite He, sum_from_plus. unfold excess, excess_spec. lra. }
  subst xB. rewrite Hex in Hproj. clear He Hex Hin Hout.
  assert (Hg : length g = length (buf_f b)).
  { unfold g, residual_buffer, s1, n in *. cbn zeta.
    rewrite length_app, length_drop. lia. }
  destruct (steepen_spec excess n 0 g ltac:(lia))
    as (f' & Hst & Hl' & Hin & Hout).
  exists f'. split; [|split; [lia|split; [exact Hg|split]]].
  - unfold bound_residue. destruct (decide (nvar < 0)%Z); [lia|].
    fold n. rewrite Hproj. cbn [mbind option_bind].
    unfold setSolution. rewrite projected_length.
    destruct (decide (length (m_x s) <= n)%nat); [|lia].
    cbn [mbind option_bind]. fold (projected_sim n b s). fold s1.
    unfold getResidual. destruct (decide _) as [_|Hno]; [|contradiction].
    cbn [mbind option_bind]. fold (residual_buffer OneDim_eval s1 (buf_f b)).
    fold g. fold eps_min. rewrite Hst. reflexivity.
  - intros k Hk. apply Hin. lia.
  - intros k Hk. apply Hout. lia.
Qed.

End ResidueProperties.

Lemma fits_sim_bd (x : list R) :
  length x = 3%nat -> fits residual_id 3 {| buf_x := x; buf_f := f_zero |} sim_bd.
Proof.
  intros Hx. unfold fits, residual_id. cbn -[projected]. rewrite Hx.
  repeat split; try lia.
  - rewrite length_take, projected_length. lia.
  - intros i Hi.
    destruct i as [|[|[|i]]]; cbn; lra.
Qed.

Lemma excess_x_below : excess_spec 3 x_below (lb sim_bd) (ub sim_bd) = 50.
Proof. unfold excess_spec. cbn. eval_Rmax. lra. Qed.

(** C2, as stated, fails where a residual component is exactly zero: with
    F(x) = x, the vector (150, 0, 50) is projected to (200, 0, 50) with
    excess 50, the second residual is 0, and the code returns
    0 + (0 - 0.001) * 50 = -0.05 where the formula with sign(0) = 0
    gives 0. *)
Lemma bound_residue_sign_counterexample :
  exists f' s',
    bound_residue residual_id 3 {| buf_x := x_below; buf_f := f_zero |} sim_bd
    = Some ({| buf_x := x_below; buf_f := f' |}, s') /\
    excess_spec 3 x_below (lb sim_bd) (ub sim_bd) = 50 /\
    residual_buffer residual_id s' f_zero !!! 1%nat = 0 /\
    f' !!! 1%nat <> steepened sgn 0 50.
Proof.
  destruct (bound_residue_run residual_id 3
              {| buf_x := x_below; buf_f := f_zero |} sim_bd)
    as (f' & Hrun & _ & _ & Hin & _); [by apply fits_sim_bd|].
  eexists f', _. split; [exact Hrun|]. split; [exact excess_x_below|].
  change (Z.to_nat 3) with 3%nat in Hin, Hrun |- *.
  cbn [buf_x buf_f] in Hin. rewrite excess_x_below in Hin.
  assert (Hg : residual_buffer residual_id
                 (projected_sim 3
                    {| buf_x := x_below; buf_f := f_zero |} sim_bd) f_zero
               !! 1%nat = Some 0).
  { unfold residual_buffer, residual_id, projected_sim. cbn. f_equal.
    unfold proj_spec, Rmin. destruct (Rle_dec _ _); [|lra]. eval_Rmax.
    reflexivity. }
  split; [apply list_lookup_total_correct; exact Hg|].
  specialize (Hin 1%nat ltac:(simpl; lia)). rewrite Hg in Hin.
  rewrite (list_lookup_total_correct _ _ _ Hin).
  unfold steepened, sign_or_minus, sgn, eps_min.
  repeat destruct (decide _); lra.
Qed.

Section BoundedResidue.

Variable OneDim_eval : Sim1D -> list R -> R -> list R.

(** C2 (amended).  On buffers and bounds that fit (lb_i <= ub_i, room for
    nvar entries), bound_residue completes; it copies the projection of x
    onto the bounds into the solution, evaluates the steady residual there
    into f, and replaces each of the first nvar entries f_i by
    f_i + (f_i + s_i * 0.001) * excess, where excess is the summed distance
    of x to the bounds and s_i is 1 for f_i > 0 and -1 otherwise, also at
    f_i = 0.  When x lies inside the bounds the excess is 0 and f is the
    unmodified residual. *)
Theorem bound_residue_spec (nvar : Z) (b : Buffers) (s : Sim1D) :
  fits OneDim_eval nvar b s ->
  let n := Z.to_nat nvar in
  let s1 := projected_sim n b s in
  let g := residual_buffer OneDim_eval s1 (buf_f b) in
  let excess := excess_spec n (buf_x b) (lb s) (ub s) in
  exists f',
    bound_residue OneDim_eval nvar b s
    = Some ({| buf_x := buf_x b; buf_f := f' |}, s1) /\
    m_x s1 = take (length (m_x s)) (projected n (buf_x b) (lb s) (ub s)) /\
    (forall i, (i < n)%nat ->
       f' !!! i = steepened sign_or_minus (g !!! i) excess) /\
    (forall i, (n <= i)%nat -> f' !! i = g !! i) /\
    ((forall i, (i < n)%nat ->
        lb s !!! i <= buf_x b !!! i /\ buf_x b !!! i <= ub s !!! i) ->
     excess = 0 /\ f' = g).
Proof.
  intros Hfits n s1 g excess.
  destruct (bound_residue_run OneDim_eval nvar b s Hfits)
    as (f' & Hrun & Hl & Hg & Hin & Hout).
  fold n s1 g excess in Hrun, Hg, Hin, Hout.
  destruct Hfits as (_ & _ & _ & _ & Hf & _). fold n in Hf.
  exists f'. split; [exact Hrun|]. split; [reflexivity|].
  split; [|split; [exact Hout|]].
  - intros i Hi.
    destruct (lookup_lt_is_Some_2 g i ltac:(lia)) as [v Hv].
    specialize (Hin i Hi). rewrite Hv in Hin.
    rewrite (list_lookup_total_correct _ _ _ Hin).
    by rewrite (list_lookup_total_correct _ _ _ Hv).
  - intros Hinside.
    assert (Hex : excess = 0).
    { unfold excess, excess_spec.
      rewrite !sum_from_zero; [lra | |]; intros k Hk;
        destruct (Hinside k ltac:(lia)); unfold Rmax;
        destruct (Rle_dec _ _); lra. }
    split; [exact Hex|]. apply list_eq. intros k.
    destruct (decide (k < n)%nat) as [Hk|Hk]; [|apply Hout; lia].
    rewrite (Hin k Hk), Hex. destruct (g !! k) as [v|]; [|reflexivity].
    cbn. f_equal. unfold steepened. ring.
Qed.

(** The frame of the residue on the values: whenever it completes, the
    input array x, the lower bounds and the upper bounds are what they
    were; of the members of the simulation only the solution vector has
    changed, and of the buffers only f. *)
Theorem bound_residue_frame (nvar : Z) (b b' : Buffers) (s s' : Sim1D) :
  bound_residue OneDim_eval nvar b s = Some (b', s') ->
  buf_x b' = buf_x b /\
  lb s' = lb s /\
  ub s' = ub s /\
  s' = with_m_x (m_x s') s /\
  b' = {| buf_x := buf_x b; buf_f := buf_f b' |}.
Proof.
  unfold bound_residue. intros H.
  destruct (decide (nvar < 0)%Z); [discriminate|].
  destruct (project _ _ _ _ _ _ _) as [[xB e]|]; [|discriminate].
  cbn [mbind option_bind] in H. unfold setSolution in H.
  destruct (decide (length (m_x s) <= length xB)%nat); [|discriminate].
  cbn [mbind option_bind] in H.
  destruct (getResidual _ _ _ _) as [f|]; [|discriminate].
  cbn [mbind option_bind] in H.
  destruct (steepen _ _ _ _ _) as [f'|]; [|discriminate].
  cbn [mbind option_bind] in H. injection H as <- <-. auto.
Qed.

End BoundedResidue.

Lemma bound_residue_spec_witness :
  exists f',
    bound_residue residual_id 3 {| buf_x := x_inside; buf_f := f_zero |} sim_bd
    = Some ({| buf_x := x_inside; buf_f := f' |},
            projected_sim 3 {| buf_x := x_inside; buf_f := f_zero |} sim_bd) /\
    excess_spec 3 x_inside (lb sim_bd) (ub sim_bd) = 0 /\
    f' = residual_buffer residual_id
           (projected_sim 3 {| buf_x := x_inside; buf_f := f_zero |} sim_bd)
           f_zero.
Proof.
  destruct (bound_residue_spec residual_id 3
              {| buf_x := x_inside; buf_f := f_zero |} sim_bd)
    as (f' & Hrun & _ & _ & _ & Hinside); [by apply fits_sim_bd|].
  exists f'. split; [exact Hrun|]. apply Hinside.
  intros i Hi. destruct i as [|[|[|i]]]; cbn; lra.
Defined.

(** ** The flow closures *)

Lemma setupGrid_consistent (zs : list R) (fl : StFlow) :
  grid_consistent (setupGrid zs fl).
Proof. split; reflexivity. Qed.

Lemma grid_dz_lookup (zs : list R) (k : nat) :
  (k + 1 < length zs)%nat ->
  grid_dz zs !!! k = zs !!! (k + 1)%nat - zs !!! k.
Proof.
  intros Hk. unfold grid_dz.
  destruct (lookup_lt_is_Some_2 zs k ltac:(lia)) as [a Ha].
  destruct (lookup_lt_is_Some_2 zs (k + 1) ltac:(lia)) as [c Hc].
  rewrite (list_lookup_total_correct _ _ _ Ha).
  rewrite (list_lookup_total_correct _ _ _ Hc).
  apply list_lookup_total_correct.
  rewrite lookup_zip_with, Ha. cbn [mbind option_bind].
  rewrite lookup_tail. replace (S k) with (k + 1)%nat by lia.
  rewrite Hc. reflexivity.
Qed.

(** The spacing the upwind stencil divides by. *)
Lemma upwind_spacing (fl : StFlow) (x : list R) (j : nat) :
  grid_consistent fl ->
  (1 <= j)%nat -> (j + 1 < nPoints (st_dom fl))%nat ->
  let jloc := if decide (u fl x j > 0) then j else (j + 1)%nat in
  m_dz fl !!! (jloc - 1)%nat = z fl jloc - z fl (jloc - 1).
Proof.
  intros [Hlen Hdz] H1 H2 jloc. unfold z. rewrite Hdz.
  assert (Hj : (1 <= jloc /\ jloc < length (m_z fl))%nat).
  { unfold jloc. destruct (decide _); lia. }
  rewrite grid_dz_lookup by lia.
  replace (jloc - 1 + 1)%nat with jloc by lia. reflexivity.
Qed.

(** C8.  On a grid whose spacings are derived from its coordinates, at
    every interior point the convective derivatives of V, Y_k and T are the
    one-sided difference quotients between jloc - 1 and jloc, where jloc is
    j when u(x, j) > 0 and j + 1 otherwise. *)
Theorem upwind_derivatives (fl : StFlow) (x : list R) (k j : nat) :
  grid_consistent fl ->
  (1 <= j)%nat -> (j + 1 < nPoints (st_dom fl))%nat ->
  let jloc := if decide (u fl x j > 0) then j else (j + 1)%nat in
  dVdz fl x j
  = (V fl x jloc - V fl x (jloc - 1)) / (z fl jloc - z fl (jloc - 1)) /\
  dYdz fl x k j
  = (Y fl x k jloc - Y fl x k (jloc - 1)) / (z fl jloc - z fl (jloc - 1)) /\
  dTdz fl x j
  = (T fl x jloc - T fl x (jloc - 1)) / (z fl jloc - z fl (jloc - 1)).
Proof.
  intros Hgrid H1 H2 jloc.
  pose proof (upwind_spacing fl x j Hgrid H1 H2) as Hdz. fold jloc in Hdz.
  unfold dVdz, dYdz, dTdz. fold jloc. rewrite Hdz. auto.
Qed.

Lemma upwind_derivatives_witness :
  dVdz flow_ex x_down 1 = (8 - 2) / (3 - 1) /\
  dTdz flow_ex x_up 1 = (400 - 300) / (1 - 0).
Proof.
  destruct (upwind_derivatives flow_ex x_down 0 1) as (HV & _ & _).
  - apply setupGrid_consistent.
  - lia.
  - simpl. lia.
  - destruct (upwind_derivatives flow_ex x_up 0 1) as (_ & _ & HT).
    + apply setupGrid_consistent.
    + lia.
    + simpl. lia.
    + split.
      * rewrite HV. unfold u. cbn.
        destruct (decide (-1 > 0)) as [Hpos|_]; [lra|]. reflexivity.
      * rewrite HT. unfold u. cbn.
        destruct (decide (1 > 0)) as [_|Hneg]; [|lra]. reflexivity.
Defined.

(** ** The spray closures *)

Lemma DBL_MIN_pos : 0 < DBL_MIN.
Proof. unfold DBL_MIN. apply Rinv_0_lt_compat, pow_lt. lra. Qed.

Lemma sqrt_dbl_min_pos : 0 < sqrt_dbl_min.
Proof. apply sqrt_lt_R0, DBL_MIN_pos. Qed.

Lemma rhol_cases (sp : SprayFlame) (x : list R) (j : nat) :
  (only_A_set sp -> rhol sp x j = m_rhol_A sp) /\
  (~ only_A_set sp ->
   rhol sp x j
   = dippr105 (m_rhol_A sp) (m_rhol_B sp) (m_rhol_C sp) (m_rhol_D sp)
       (Tl sp x j)).
Proof.
  unfold only_A_set, rhol, dippr105. rewrite !Rminus_0_r.
  repeat case_bool_decide; cbn [andb]; split; try reflexivity; tauto.
Qed.

(** C5: the code at an unknown unit.  The call with the unit string "Pa"
    returns normally and leaves the flame, and so its vapor-pressure
    parameters, as it found them; it does not raise InvalidInput.  The
    same holds for every unit string other than "mmHg" and "bar". *)
Theorem setLiquidVapPressParam_unknown_unit (sp : SprayFlame) :
  setLiquidVapPressParam (689 / 100) 1264 217 372 "Pa" sp = Returned sp /\
  setLiquidVapPressParam (689 / 100) 1264 217 372 "Pa" sp
  <> Raised InvalidInput /\
  (forall (A_ B_ C_ Tb_ : R) (unit_ : string),
     unit_ <> "mmHg"%string -> unit_ <> "bar"%string ->
     setLiquidVapPressParam A_ B_ C_ Tb_ unit_ sp = Returned sp).
Proof.
  split; [reflexivity|]. split; [discriminate|].
  intros A_ B_ C_ Tb_ unit_ HmmHg Hbar. unfold setLiquidVapPressParam.
  destruct (decide (unit_ = "mmHg"%string)); [contradiction|].
  destruct (decide (unit_ = "bar"%string)); [contradiction|]. reflexivity.
Qed.

Lemma mdot_factors (sp : SprayFlame) (x : list R) (j : nat) :
  mdot sp x j
  = 2 * Pi * dl sp x j * m_rho (sp_flow sp) !!! j * Dgf sp j * log_term sp x j.
Proof. reflexivity. Qed.

(** Above the guard, no factor of the evaporation rate vanishes. *)
Lemma mdot_guard_factors (sp : SprayFlame) (x : list R) (j : nat) :
  ~ mdot sp x j <= sqrt_dbl_min ->
  dl sp x j <> 0 /\ m_rho (sp_flow sp) !!! j <> 0 /\
  Dgf sp j <> 0 /\ log_term sp x j <> 0.
Proof.
  intros Hguard. pose proof sqrt_dbl_min_pos as Hpos.
  assert (Hm : mdot sp x j <> 0) by lra.
  rewrite mdot_factors in Hm.
  repeat split; intros E; apply Hm; rewrite E; ring.
Qed.

Lemma sqrt_dbl_min_small : sqrt_dbl_min < 1 / 10 ^ 12.
Proof.
  unfold sqrt_dbl_min, DBL_MIN.
  replace (1 / 10 ^ 12) with (sqrt (/ 10 ^ 24)).
  - apply sqrt_lt_1_alt. split; [left; apply Rinv_0_lt_compat, pow_lt; lra|].
    apply Rinv_lt_contravar; [|lra].
    apply Rmult_lt_0_compat; apply pow_lt; lra.
  - replace (/ 10 ^ 24) with ((1 / 10 ^ 12) * (1 / 10 ^ 12)) by (field; lra).
    apply sqrt_square. lra.
Qed.

Lemma cube_root_lower (c b : R) :
  0 < c -> c * c * c <= b -> c <= Rpower b (1 / 3).
Proof.
  intros Hc Hb.
  assert (H : Rpower (c * c * c) (1 / 3) = c).
  { replace (c * c * c) with (c ^ 3) by ring.
    rewrite <- (Rpower_pow 3 c Hc). rewrite Rpower_mult.
    replace (INR 3 * (1 / 3)) with 1 by (simpl; field).
    apply Rpower_1, Hc. }
  rewrite <- H at 1. apply Rle_Rpower_l; [lra|]. split; [|exact Hb].
  repeat apply Rmult_lt_0_compat; exact Hc.
Qed.

Lemma only_A_set_wet : only_A_set sp_wet.
Proof.
  unfold only_A_set. cbn. rewrite Rabs_R0.
  pose proof sqrt_dbl_min_pos. auto.
Qed.

Lemma ml_wet_0 : ml sp_wet x_wet 0 = 1 / 1000000000.
Proof. reflexivity. Qed.

Lemma ml_wet_1 : ml sp_wet x_wet 1 = 0.
Proof. reflexivity. Qed.

Lemma wet_not_small : ~ ml sp_wet x_wet 0 < sqrt_dbl_min.
Proof. rewrite ml_wet_0. pose proof sqrt_dbl_min_small. lra. Qed.

Lemma dl_wet_0 :
  dl sp_wet x_wet 0 = Rpower (6 * (1 / 1000000000) / Pi / 700) (1 / 3).
Proof.
  unfold dl. destruct (decide _) as [Hsmall|_].
  - exfalso. exact (wet_not_small Hsmall).
  - destruct (rhol_cases sp_wet x_wet 0) as [HA _].
    rewrite (HA only_A_set_wet), ml_wet_0. reflexivity.
Qed.

Lemma dl_wet_1 : dl sp_wet x_wet 1 = 0.
Proof.
  unfold dl. destruct (decide _) as [_|Hbig]; [reflexivity|].
  exfalso. apply Hbig. rewrite ml_wet_1. apply sqrt_dbl_min_pos.
Qed.

Lemma mdot_wet_1 : mdot sp_wet x_wet 1 = 0.
Proof. rewrite mdot_factors, dl_wet_1. ring. Qed.

Lemma Yrs_wet : Yrs sp_wet x_wet 0 = 1 / 2.
Proof.
  unfold Yrs, prs. cbn -[Rpower]. unfold bar2Pa.
  replace (4 - 1200 / (-72 + 372)) with 0 by lra.
  rewrite Rpower_O by lra. lra.
Qed.

Lemma log_term_wet : log_term sp_wet x_wet 0 = ln 2.
Proof.
  unfold log_term. rewrite Yrs_wet.
  change (Y (sp_flow sp_wet) x_wet (c_offset_fuel sp_wet) 0) with 0.
  rewrite Rmax_left by (pose proof sqrt_dbl_min_small; lra).
  f_equal. lra.
Qed.

Lemma dl_wet_lower : 1 / 10000 <= dl sp_wet x_wet 0.
Proof.
  rewrite dl_wet_0.
  apply cube_root_lower; [lra|].
  pose proof PI_RGT_0 as Hpos. pose proof PI_4 as H4. unfold Pi.
  apply Rmult_le_reg_r with (PI * 700); [lra|].
  replace (6 * (1 / 1000000000) / PI / 700 * (PI * 700))
    with (6 / 1000000000) by (field; lra).
  lra.
Qed.

Lemma mdot_wet_guard : ~ mdot sp_wet x_wet 0 <= sqrt_dbl_min.
Proof.
  rewrite mdot_factors, log_term_wet.
  change (m_rho (sp_flow sp_wet) !!! 0%nat) with 1.
  change (Dgf sp_wet 0) with (1 / 100000).
  pose proof dl_wet_lower as Hd. pose proof ln_lt_2 as Hl.
  pose proof PI2_3_2 as Hpi. pose proof sqrt_dbl_min_small as Hs.
  unfold Pi.
  assert (H1 : 3 / 10000 <= PI * dl sp_wet x_wet 0) by nra.
  assert (H2 : 3 / 20000 <= PI * dl sp_wet x_wet 0 * ln 2) by nra.
  nra.
Qed.

(** ** Exit behaviour of the solver *)


Section SolverProperties.

Variable OneDim_solve : Sim1D -> option Sim1D.
Variable timeStep : Sim1D -> option Sim1D.
Variable analyze : Sim1D -> list GridChange.
Variable regrid : list GridChange -> Sim1D -> Sim1D.

Lemma solve_from_outcome (fuel : nat) :
  forall (ph : Phase) (refine_grid : bool) (s : Sim1D),
    fst (solve_from OneDim_solve timeStep analyze regrid fuel ph refine_grid s)
    = Returned Void \/
    fst (solve_from OneDim_solve timeStep analyze regrid fuel ph refine_grid s)
    = Raised ConvergenceFailure.
Proof.
  induction fuel as [|fuel IH]; intros ph rg s; cbn [solve_from].
  - right. reflexivity.
  - destruct ph.
    + destruct (newtonSolve OneDim_solve s) as [[|[| |]] s']; apply IH.
    + destruct (timeStep s); apply IH.
    + destruct rg; [|apply IH].
      destruct (refine analyze regrid s) as [[|[| |]] s']; apply IH.
    + left. reflexivity.
    + right. reflexivity.
Qed.

(** solve hands back nothing exactly when the state machine reaches
    SUCCESS within the cap, and it leaves the simulation of that state. *)
Lemma solve_from_success (refine_grid : bool) (fuel : nat) :
  forall (ph : Phase) (s s' : Sim1D),
    solve_from OneDim_solve timeStep analyze regrid fuel ph refine_grid s
    = (Returned Void, s') <->
    exists n, (n < fuel)%nat /\
      solver_run OneDim_solve timeStep analyze regrid refine_grid n
        (ph, s) (SUCCESS, s').
Proof.
  induction fuel as [|fuel IH]; intros ph s s'; cbn [solve_from].
  - split; [discriminate | intros (n & Hn & _); lia].
  - destruct ph.
    + unfold newtonSolve. destruct (OneDim_solve s) as [s1|] eqn:E.
      * rewrite IH. split.
        -- intros (n & Hn & Hrun). exists (S n). split; [lia|].
           eapply run_step; [|exact Hrun]. by constructor.
        -- intros (n & Hn & Hrun). inversion Hrun as [|n' c1 c2 c3 Hst Hr]; subst.
           inversion Hst; subst; [|congruence].
           assert (s'0 = s1) by congruence. subst.
           exists n'. split; [lia | exact Hr].
      * rewrite IH. split.
        -- intros (n & Hn & Hrun). exists (S n). split; [lia|].
           eapply run_step; [|exact Hrun]. by constructor.
        -- intros (n & Hn & Hrun). inversion Hrun as [|n' c1 c2 c3 Hst Hr]; subst.
           inversion Hst; subst; [congruence|].
           exists n'. split; [lia | exact Hr].
    + destruct (timeStep s) as [s1|] eqn:E.
      * rewrite IH. split.
        -- intros (n & Hn & Hrun). exists (S n). split; [lia|].
           eapply run_step; [|exact Hrun]. by constructor.
        -- intros (n & Hn & Hrun). inversion Hrun as [|n' c1 c2 c3 Hst Hr]; subst.
           inversion Hst; subst; [|congruence].
           assert (s'0 = s1) by congruence. subst.
           exists n'. split; [lia | exact Hr].
      * rewrite IH. split.
        -- intros (n & Hn & Hrun). exists (S n). split; [lia|].
           eapply run_step; [|exact Hrun]. by constructor.
        -- intros (n & Hn & Hrun). inversion Hrun as [|n' c1 c2 c3 Hst Hr]; subst.
           inversion Hst; subst; [congruence|].
           exists n'. split; [lia | exact Hr].
    + destruct refine_grid eqn:Erg.
      * unfold refine. destruct (analyze s) as [|c l] eqn:E; cbn -[solve_from].
        -- change (Z.of_nat 0) with 0%Z. cbv iota. rewrite IH. split.
           ++ intros (n & Hn & Hrun). exists (S n). split; [lia|].
              eapply run_step; [|exact Hrun].
              by apply step_refine_converged.
           ++ intros (n & Hn & Hrun).
              inversion Hrun as [|n' c1 c2 c3 Hst Hr]; subst.
              inversion Hst; subst; [discriminate | | congruence].
              exists n'. split; [lia | exact Hr].
        -- change (Z.of_nat (S (length l)))
             with (Z.pos (Pos.of_succ_nat (length l))).
           cbv iota. rewrite IH. split.
           ++ intros (n & Hn & Hrun). exists (S n). split; [lia|].
              eapply run_step; [|exact Hrun]. rewrite <- E.
              apply step_refine_changed; [reflexivity | congruence].
           ++ intros (n & Hn & Hrun).
              inversion Hrun as [|n' c1 c2 c3 Hst Hr]; subst.
              inversion Hst; subst; [discriminate | congruence |].
              exists n'. split; [lia|]. rewrite <- E. exact Hr.
      * rewrite IH. split.
        -- intros (n & Hn & Hrun). exists (S n). split; [lia|].
           eapply run_step; [|exact Hrun]. by apply step_refine_off.
        -- intros (n & Hn & Hrun).
           inversion Hrun as [|n' c1 c2 c3 Hst Hr]; subst.
           inversion Hst; subst; try discriminate.
           exists n'. split; [lia | exact Hr].
    + split.
      * intros [= <-]. exists 0%nat. split; [lia | constructor].
      * intros (n & Hn & Hrun). inversion Hrun as [|n' c1 c2 c3 Hst Hr]; subst.
        -- reflexivity.
        -- inversion Hst.
    + split; [discriminate|].
      intros (n & Hn & Hrun). inversion Hrun as [|n' c1 c2 c3 Hst Hr]; subst.
      inversion Hst.
Qed.


End SolverProperties.


(** ** Bounds of the continuation vector *)

Lemma resize_length (n : nat) (l : list R) : length (resize n l) = n.
Proof.
  unfold resize. rewrite length_app, length_take, length_replicate. lia.
Qed.

Lemma fill_components_spec (lo up : nat -> R) (n : nat) :
  forall (i j nv : nat) (lbs ubs lbs' ubs' : list R),
    fill_components lo up n i j nv lbs ubs = (lbs', ubs') ->
    length lbs' = length lbs /\ length ubs' = length ubs /\
    (forall i', (i <= i' < i + n)%nat ->
       ((j * nv + i' < length lbs)%nat ->
        lbs' !! (j * nv + i')%nat = Some (lo i')) /\
       ((j * nv + i' < length ubs)%nat ->
        ubs' !! (j * nv + i')%nat = Some (up i'))) /\
    (forall k, (k < j * nv + i \/ j * nv + i + n <= k)%nat ->
       lbs' !! k = lbs !! k /\ ubs' !! k = ubs !! k).
Proof.
  induction n as [|n IH]; intros i j nv lbs ubs lbs' ubs' H;
    cbn [fill_components] in H.
  - injection H as <- <-. repeat split; intros; lia.
  - apply IH in H as (Hl & Hu & Hset & Hkeep).
    rewrite length_insert in Hl, Hu.
    split; [exact Hl|]. split; [exact Hu|]. split.
    + intros i' Hi'. destruct (decide (i' = i)) as [->|Hne].
      * destruct (Hkeep (j * nv + i)%nat ltac:(lia)) as [Kl Ku].
        rewrite Kl, Ku. split; intros Hlt;
          by rewrite list_lookup_insert_eq.
      * destruct (Hset i' ltac:(lia)) as [Sl Su].
        rewrite !length_insert in Sl, Su. auto.
    + intros k Hk. destruct (Hkeep k ltac:(lia)) as [Kl Ku].
      rewrite Kl, Ku. split; apply list_lookup_insert_ne; lia.
Qed.

Lemma fill_points_spec (lo up : nat -> R) (n : nat) :
  forall (j nv : nat) (lbs ubs lbs' ubs' : list R),
    fill_points lo up n j nv lbs ubs = (lbs', ubs') ->
    length lbs' = length lbs /\ length ubs' = length ubs /\
    (forall j' i, (j <= j' < j + n)%nat -> (i < nv)%nat ->
       ((j' * nv + i < length lbs)%nat ->
        lbs' !! (j' * nv + i)%nat = Some (lo i)) /\
       ((j' * nv + i < length ubs)%nat ->
        ubs' !! (j' * nv + i)%nat = Some (up i))) /\
    (forall k, (k < j * nv \/ (j + n) * nv <= k)%nat ->
       lbs' !! k = lbs !! k /\ ubs' !! k = ubs !! k).
Proof.
  induction n as [|n IH]; intros j nv lbs ubs lbs' ubs' H;
    cbn [fill_points] in H.
  - injection H as <- <-. repeat split; intros; lia.
  - destruct (fill_components lo up nv 0 j nv lbs ubs) as [l1 u1] eqn:E.
    apply fill_components_spec in E as (El & Eu & Eset & Ekeep).
    apply IH in H as (Hl & Hu & Hset & Hkeep).
    split; [lia|]. split; [lia|]. split.
    + intros j' i Hj' Hi. destruct (decide (j' = j)) as [->|Hne].
      * destruct (Hkeep (j * nv + i)%nat ltac:(nia)) as [Kl Ku].
        rewrite Kl, Ku. apply Eset. lia.
      * destruct (Hset j' i ltac:(lia) Hi) as [Sl Su].
        rewrite El in Sl. rewrite Eu in Su. auto.
    + intros k Hk. destruct (Hkeep k ltac:(nia)) as [Kl Ku].
      destruct (Ekeep k ltac:(nia)) as [Kl' Ku'].
      rewrite Kl, Ku. auto.
Qed.

(** X1.  updateBounds sizes both bound vectors to nv*np + 1, stores the
    bounds of component i at slot j*nv + i of every point j, bounds the
    continuation parameter in the last slot by 0 and 1e10, and changes no
    other member. *)
Theorem updateBounds_layout (lo up : nat -> R) (s : Sim1D) :
  let nv := nComponents (flow s) in
  let np := nPoints (flow s) in
  let s' := updateBounds lo up s in
  length (lb s') = (nv * np + 1)%nat /\
  length (ub s') = (nv * np + 1)%nat /\
  (forall j i, (j < np)%nat -> (i < nv)%nat ->
     lb s' !! (j * nv + i)%nat = Some (lo i) /\
     ub s' !! (j * nv + i)%nat = Some (up i)) /\
  lb s' !! (nv * np)%nat = Some 0 /\
  ub s' !! (nv * np)%nat = Some 10000000000 /\
  s' = with_bounds (lb s') (ub s') s.
Proof.
  intros nv np s'. unfold s', updateBounds. fold nv np.
  destruct (fill_points lo up np 0 nv _ _) as [l2 u2] eqn:E.
  apply fill_points_spec in E as (Hl & Hu & Hset & _).
  rewrite resize_length in Hl, Hu. cbn [lb ub with_bounds].
  rewrite !length_insert.
  split; [exact Hl|]. split; [exact Hu|]. split; [|split; [|split]].
  - intros j i Hj Hi.
    destruct (Hset j i ltac:(lia) Hi) as [Sl Su].
    rewrite !resize_length in Sl, Su.
    rewrite !list_lookup_insert_ne by nia. split; [apply Sl | apply Su]; nia.
  - apply list_lookup_insert_eq. lia.
  - apply list_lookup_insert_eq. lia.
  - reflexivity.
Qed.

(** X2.  When the flow domain orders the bounds of each component
    (lower <= upper), every slot of the vectors updateBounds leaves is
    ordered: lb[k] <= ub[k] for all k up to and including the parameter
    slot. *)
Theorem updateBounds_ordered (lo up : nat -> R) (s : Sim1D) (k : nat) :
  (forall i, (i < nComponents (flow s))%nat -> lo i <= up i) ->
  (k < nComponents (flow s) * nPoints (flow s) + 1)%nat ->
  lb (updateBounds lo up s) !!! k <= ub (updateBounds lo up s) !!! k.
Proof.
  intros Hord Hk.
  set (nv := nComponents (flow s)) in *. set (np := nPoints (flow s)) in *.
  set (s' := updateBounds lo up s). unfold s', updateBounds. fold nv np.
  destruct (fill_points lo up np 0 nv _ _) as [l2 u2] eqn:E.
  apply fill_points_spec in E as (Hl & Hu & Hset & _).
  rewrite resize_length in Hl, Hu. cbn [lb ub with_bounds].
  destruct (decide (k = nv * np)%nat) as [->|Hne].
  - rewrite !list_lookup_total_insert_eq by lia. lra.
  - rewrite !list_lookup_total_insert_ne by lia.
    assert (Hnv : (0 < nv)%nat) by nia.
    pose proof (Nat.div_mod_eq k nv) as Hdm.
    pose proof (Nat.mod_upper_bound k nv ltac:(lia)) as Hmod.
    assert (Hj : (k / nv < np)%nat).
    { apply Nat.Div0.div_lt_upper_bound. lia. }
    destruct (Hset (k / nv)%nat (k mod nv)%nat ltac:(lia) Hmod) as [Sl Su].
    rewrite !resize_length in Sl, Su.
    replace (k / nv * nv + k mod nv)%nat with k in Sl, Su by lia.
    specialize (Sl Hk). specialize (Su Hk).
    rewrite (list_lookup_total_correct _ _ _ Sl).
    rewrite (list_lookup_total_correct _ _ _ Su).
    apply Hord, Hmod.
Qed.

Lemma updateBounds_ordered_witness :
  lb (updateBounds lo_ex up_ex sim_ex) !!! 6%nat
  <= ub (updateBounds lo_ex up_ex sim_ex) !!! 6%nat.
Proof.
  apply updateBounds_ordered.
  - intros i Hi. destruct i as [|[|[|[|i]]]]; cbn; lra.
  - cbn. lia.
Defined.

(** ** Further properties of the bounded residue *)

Lemma sum_from_nonneg (g : nat -> R) (n : nat) :
  forall i, (forall k, (i <= k < i + n)%nat -> 0 <= g k) ->
            0 <= sum_from i n g.
Proof.
  induction n as [|n IH]; intros i H; cbn [sum_from]; [lra|].
  pose proof (H i ltac:(lia)). pose proof (IH (S i)) as IH'.
  assert (0 <= sum_from (S i) n g) by (apply IH'; intros; apply H; lia). lra.
Qed.

Lemma sum_from_ge_term (g : nat -> R) (n : nat) :
  forall i k, (forall k, (i <= k < i + n)%nat -> 0 <= g k) ->
              (i <= k < i + n)%nat -> g k <= sum_from i n g.
Proof.
  induction n as [|n IH]; intros i k H Hk; [lia|]. cbn [sum_from].
  pose proof (H i ltac:(lia)) as H0.
  assert (Hrest : 0 <= sum_from (S i) n g).
  { apply sum_from_nonneg. intros; apply H; lia. }
  destruct (decide (k = i)) as [->|Hne]; [lra|].
  assert (g k <= sum_from (S i) n g).
  { apply IH; [intros; apply H; lia | lia]. }
  lra.
Qed.

Lemma bound_distance_nonneg (lo hi v : R) : 0 <= bound_distance lo hi v.
Proof.
  unfold bound_distance, Rmax. repeat destruct (Rle_dec _ _); lra.
Qed.

Lemma bound_distance_zero (lo hi v : R) :
  bound_distance lo hi v = 0 <-> lo <= v /\ v <= hi.
Proof.
  unfold bound_distance, Rmax. repeat destruct (Rle_dec _ _); lra.
Qed.

Lemma proj_spec_inside (lo hi v : R) :
  lo <= hi -> lo <= proj_spec lo hi v /\ proj_spec lo hi v <= hi.
Proof.
  intros. unfold proj_spec, Rmax, Rmin. repeat destruct (Rle_dec _ _); lra.
Qed.

Lemma proj_spec_fixed (lo hi v : R) :
  lo <= v -> v <= hi -> proj_spec lo hi v = v.
Proof.
  intros. unfold proj_spec, Rmax, Rmin. repeat destruct (Rle_dec _ _); lra.
Qed.

(** X3.  On buffers with room for n entries and ordered bounds, the
    projection loop of bound_residue completes; the vector it builds lies
    inside the bounds, agrees with x wherever x is inside, and the excess it
    accumulates is non-negative and is zero exactly when every entry of x is
    inside its bounds. *)
Theorem project_lands_inside (n : nat) (x lbs ubs : list R) :
  (n <= length x)%nat -> (n <= length lbs)%nat -> (n <= length ubs)%nat ->
  (forall i, (i < n)%nat -> lbs !!! i <= ubs !!! i) ->
  exists xB e,
    project n 0 x lbs ubs (replicate n 0) 0 = Some (xB, e) /\
    length xB = n /\
    0 <= e /\
    (forall i, (i < n)%nat -> lbs !!! i <= xB !!! i /\ xB !!! i <= ubs !!! i) /\
    (forall i, (i < n)%nat ->
       lbs !!! i <= x !!! i -> x !!! i <= ubs !!! i -> xB !!! i = x !!! i) /\
    (e = 0 <->
     forall i, (i < n)%nat -> lbs !!! i <= x !!! i /\ x !!! i <= ubs !!! i).
Proof.
  intros Hx Hl Hu Hord.
  destruct (project_spec x lbs ubs n 0 (replicate n 0) 0)
    as (xB & e & Hrun & He & Hlen & Hin & _);
    try (rewrite ?length_replicate; lia).
  { intros k Hk. apply Hord. lia. }
  rewrite length_replicate in Hlen. fold (bound_distance) in He.
  change (fun k => Rmax (lbs !!! k - x !!! k) 0 + Rmax (x !!! k - ubs !!! k) 0)
    with (fun k => bound_distance (lbs !!! k) (ubs !!! k) (x !!! k)) in He.
  set (g := fun k => bound_distance (lbs !!! k) (ubs !!! k) (x !!! k)) in He.
  assert (Hg : forall k, (0 <= k < 0 + n)%nat -> 0 <= g k).
  { intros k _. apply bound_distance_nonneg. }
  exists xB, e. split; [exact Hrun|]. split; [exact Hlen|].
  split; [|split; [|split; [|split]]].
  - rewrite He. pose proof (sum_from_nonneg g n 0 Hg). lra.
  - intros i Hi. pose proof (Hin i ltac:(lia)) as Hxi.
    rewrite (list_lookup_total_correct _ _ _ Hxi).
    apply proj_spec_inside, Hord, Hi.
  - intros i Hi H1 H2.
    pose proof (Hin i ltac:(lia)) as Hxi.
    rewrite (list_lookup_total_correct _ _ _ Hxi).
    by apply proj_spec_fixed.
  - intros E i Hi. apply bound_distance_zero.
    pose proof (sum_from_ge_term g n 0 i Hg ltac:(lia)) as Hle.
    pose proof (bound_distance_nonneg (lbs !!! i) (ubs !!! i) (x !!! i)).
    change (g i) with (bound_distance (lbs !!! i) (ubs !!! i) (x !!! i))
      in Hle.
    lra.
  - intros Hall. rewrite He, sum_from_zero; [lra|].
    intros k Hk. apply bound_distance_zero, Hall. lia.
Qed.

Lemma project_lands_inside_witness :
  exists xB e,
    project 3 0 x_below (lb sim_bd) (ub sim_bd) (replicate 3 0) 0
    = Some (xB, e) /\
    200 <= xB !!! 0%nat /\ 0 <= e.
Proof.
  destruct (project_lands_inside 3 x_below (lb sim_bd) (ub sim_bd))
    as (xB & e & Hrun & _ & He & Hin & _).
  - simpl. lia.
  - simpl. lia.
  - simpl. lia.
  - intros i Hi. destruct i as [|[|[|i]]]; cbn; lra.
  - exists xB, e. split; [exact Hrun|]. split; [|exact He].
    apply (Hin 0%nat). lia.
Defined.

Lemma excess_spec_positive (n : nat) (x lbs ubs : list R) (i : nat) :
  (i < n)%nat ->
  x !!! i < lbs !!! i \/ x !!! i > ubs !!! i ->
  0 < excess_spec n x lbs ubs.
Proof.
  intros Hi Hout. unfold excess_spec. rewrite <- sum_from_plus.
  set (g := fun k => Rmax (lbs !!! k - x !!! k) 0 +
                     Rmax (x !!! k - ubs !!! k) 0).
  assert (Hg : forall k, (0 <= k < 0 + n)%nat -> 0 <= g k).
  { intros k _. apply bound_distance_nonneg. }
  pose proof (sum_from_ge_term g n 0 i Hg ltac:(lia)) as Hle.
  assert (0 < g i); [|lra].
  unfold g, Rmax. repeat destruct (Rle_dec _ _); lra.
Qed.

Lemma steepened_away (v e : R) :
  0 < e ->
  (v > 0 -> steepened sign_or_minus v e > v) /\
  (v <= 0 -> steepened sign_or_minus v e < v).
Proof.
  intros He. unfold steepened, sign_or_minus, eps_min.
  destruct (decide (v > 0)); split; intros; try lra; nra.
Qed.

Section BoundedResidueMore.

Variable OneDim_eval : Sim1D -> list R -> R -> list R.

(** X4.  When some entry of x lies outside its bounds, no component of the
    residual bound_residue returns is zero: a positive residual is made
    larger and a residual that is zero or negative is made smaller, so the
    bounded residue has no root outside the constrained region. *)
Theorem bound_residue_no_root_outside (nvar : Z) (b : Buffers) (s : Sim1D)
    (k : nat) :
  fits OneDim_eval nvar b s ->
  (k < Z.to_nat nvar)%nat ->
  buf_x b !!! k < lb s !!! k \/ buf_x b !!! k > ub s !!! k ->
  let s1 := projected_sim (Z.to_nat nvar) b s in
  let g := residual_buffer OneDim_eval s1 (buf_f b) in
  exists f',
    bound_residue OneDim_eval nvar b s
    = Some ({| buf_x := buf_x b; buf_f := f' |}, s1) /\
    forall i, (i < Z.to_nat nvar)%nat ->
      f' !!! i <> 0 /\
      (g !!! i > 0 -> f' !!! i > g !!! i) /\
      (g !!! i <= 0 -> f' !!! i < g !!! i).
Proof.
  intros Hfits Hk Hout s1 g.
  destruct (bound_residue_run OneDim_eval nvar b s Hfits)
    as (f' & Hrun & Hl & Hg & Hin & _).
  fold s1 g in Hrun, Hg, Hin.
  destruct Hfits as (_ & _ & _ & _ & Hf & _).
  pose proof (excess_spec_positive _ _ _ _ k Hk Hout) as Hpos.
  exists f'. split; [exact Hrun|]. intros i Hi.
  destruct (lookup_lt_is_Some_2 g i ltac:(lia)) as [v Hv].
  specialize (Hin i Hi). rewrite Hv in Hin. cbn in Hin.
  rewrite (list_lookup_total_correct _ _ _ Hin).
  rewrite (list_lookup_total_correct _ _ _ Hv).
  destruct (steepened_away v _ Hpos) as [Hup Hdown].
  split; [|split; assumption].
  destruct (Rlt_le_dec 0 v) as [Hv0|Hv0].
  - specialize (Hup Hv0). lra.
  - specialize (Hdown Hv0). lra.
Qed.

(** Inside the bounds the call returns the residual as evaluated. *)
Lemma bound_residue_inside (nvar : Z) (b : Buffers) (s : Sim1D) :
  fits OneDim_eval nvar b s ->
  (forall i, (i < Z.to_nat nvar)%nat ->
     lb s !!! i <= buf_x b !!! i /\ buf_x b !!! i <= ub s !!! i) ->
  let s1 := projected_sim (Z.to_nat nvar) b s in
  bound_residue OneDim_eval nvar b s
  = Some ({| buf_x := buf_x b;
             buf_f := residual_buffer OneDim_eval s1 (buf_f b) |}, s1) /\
  projected (Z.to_nat nvar) (buf_x b) (lb s) (ub s)
  = take (Z.to_nat nvar) (buf_x b).
Proof.
  intros Hfits Hinside s1.
  destruct (bound_residue_run OneDim_eval nvar b s Hfits)
    as (f' & Hrun & Hl & Hg & Hin & Hout).
  fold s1 in Hrun, Hg, Hin, Hout.
  set (g := residual_buffer OneDim_eval s1 (buf_f b)) in *.
  set (n := Z.to_nat nvar) in *.
  assert (Hex : excess_spec n (buf_x b) (lb s) (ub s) = 0).
  { unfold excess_spec.
    rewrite !sum_from_zero; [lra | |]; intros k Hk;
      destruct (Hinside k ltac:(lia)); unfold Rmax;
      destruct (Rle_dec _ _); lra. }
  assert (Hf' : f' = g).
  { apply list_eq. intros k.
    destruct (decide (k < n)%nat) as [Hk|Hk]; [|apply Hout; lia].
    rewrite (Hin k Hk), Hex. destruct (g !! k) as [v|]; [|reflexivity].
    cbn. f_equal. unfold steepened. ring. }
  split; [by rewrite Hrun, Hf'|].
  destruct Hfits as (_ & Hx & _).
  apply list_eq. intros k. destruct (decide (k < n)%nat) as [Hk|Hk].
  - rewrite projected_lookup by exact Hk. rewrite lookup_take_lt by exact Hk.
    destruct (lookup_lt_is_Some_2 (buf_x b) k ltac:(lia)) as [v Hv].
    rewrite Hv. f_equal. rewrite (list_lookup_total_correct _ _ _ Hv).
    destruct (Hinside k Hk) as [H1 H2].
    rewrite (list_lookup_total_correct _ _ _ Hv) in H1, H2.
    by apply proj_spec_fixed.
  - rewrite !lookup_ge_None_2; [done | |].
    + rewrite length_take. lia.
    + rewrite projected_length. lia.
Qed.

End BoundedResidueMore.

Lemma bound_residue_no_root_outside_witness :
  exists f',
    bound_residue residual_id 3 {| buf_x := x_below; buf_f := f_zero |} sim_bd
    = Some ({| buf_x := x_below; buf_f := f' |},
            projected_sim 3 {| buf_x := x_below; buf_f := f_zero |} sim_bd) /\
    f' !!! 1%nat <> 0.
Proof.
  destruct (bound_residue_no_root_outside residual_id 3
              {| buf_x := x_below; buf_f := f_zero |} sim_bd 0)
    as (f' & Hrun & Hall).
  - by apply fits_sim_bd.
  - simpl. lia.
  - left. cbn. lra.
  - exists f'. split; [exact Hrun|]. apply (Hall 1%nat). simpl. lia.
Defined.

Lemma projected_idem (n : nat) (x lbs ubs : list R) :
  (forall i, (i < n)%nat -> lbs !!! i <= ubs !!! i) ->
  projected n (projected n x lbs ubs) lbs ubs = projected n x lbs ubs.
Proof.
  intros Hord. apply list_eq. intros k.
  destruct (decide (k < n)%nat) as [Hk|Hk].
  - rewrite !projected_lookup by exact Hk. f_equal.
    rewrite (list_lookup_total_correct _ _ _ (projected_lookup n x lbs ubs k Hk)).
    destruct (proj_spec_inside (lbs !!! k) (ubs !!! k) (x !!! k) (Hord k Hk)).
    by apply proj_spec_fixed.
  - rewrite !lookup_ge_None_2; [done | |]; rewrite projected_length; lia.
Qed.

Section ResidueComposition.

Variable OneDim_eval : Sim1D -> list R -> R -> list R.

(** X5.  The projection is idempotent through the solver state: after
    bound_residue has run on x, a second call on the projected vector finds
    it inside the bounds, leaves the solution as it is and returns the
    residual there unmodified. *)
Theorem bound_residue_projection_idempotent (nvar : Z) (b : Buffers)
    (s : Sim1D) (f2 : list R) :
  fits OneDim_eval nvar b s ->
  length f2 = length (buf_f b) ->
  let n := Z.to_nat nvar in
  let s1 := projected_sim n b s in
  let xp := projected n (buf_x b) (lb s) (ub s) in
  bound_residue OneDim_eval nvar {| buf_x := xp; buf_f := f2 |} s1
  = Some ({| buf_x := xp;
             buf_f := residual_buffer OneDim_eval s1 f2 |}, s1).
Proof.
  intros Hfits Hf2 n s1 xp.
  destruct Hfits as (Hnv & Hx & Hlb & Hub & Hf & Hmx & Hres & Hord).
  fold n in Hx, Hlb, Hub, Hf, Hmx, Hres, Hord. fold s1 in Hres.
  assert (Hs1 : projected_sim n {| buf_x := xp; buf_f := f2 |} s1 = s1).
  { unfold s1, xp, projected_sim. cbn [buf_x lb ub m_x with_m_x].
    rewrite projected_idem by exact Hord. rewrite with_m_x_idem.
    rewrite length_take, projected_length.
    replace (length (m_x s) `min` n)%nat with (length (m_x s)) by lia.
    reflexivity. }
  assert (Hfits2 : fits OneDim_eval nvar {| buf_x := xp; buf_f := f2 |} s1).
  { unfold fits. fold n. rewrite Hs1. cbn [buf_x buf_f].
    change (lb s1) with (lb s). change (ub s1) with (ub s).
    repeat split; try assumption; try lia.
    - unfold xp. rewrite projected_length. lia.
    - unfold s1, projected_sim. cbn [m_x with_m_x].
      rewrite length_take, projected_length. lia. }
  destruct (bound_residue_inside OneDim_eval nvar _ s1 Hfits2) as [Hrun _].
  - intros i Hi. cbn [buf_x]. change (lb s1) with (lb s).
    change (ub s1) with (ub s). unfold xp.
    rewrite (list_lookup_total_correct _ _ _
               (projected_lookup n (buf_x b) (lb s) (ub s) i Hi)).
    apply proj_spec_inside, Hord, Hi.
  - fold n in Hrun. rewrite Hs1 in Hrun. exact Hrun.
Qed.

(** X7.  For a vector inside the bounds whose last entry is the stored
    strain rate, and a non-negative threshold, the unbounded and the
    bounded residue are the same call: same solution, same residual. *)
Theorem residues_agree_inside (nvar : Z) (b : Buffers) (s : Sim1D) :
  fits OneDim_eval nvar b s ->
  (forall i, (i < Z.to_nat nvar)%nat ->
     lb s !!! i <= buf_x b !!! i /\ buf_x b !!! i <= ub s !!! i) ->
  at_int (buf_x b) (nvar - 1) = Some (m_chi s) ->
  0 <= m_amplify_threshold s ->
  unbound_residue OneDim_eval nvar b s = bound_residue OneDim_eval nvar b s.
Proof.
  intros Hfits Hinside Hchi Htau.
  destruct (bound_residue_inside OneDim_eval nvar b s Hfits Hinside)
    as [Hrun Hproj].
  destruct Hfits as (Hnv & Hx & _ & _ & _ & Hmx & Hres & _).
  set (n := Z.to_nat nvar) in *.
  assert (Hs1 : projected_sim n b s
                = with_m_x (take (length (m_x s)) (buf_x b)) s).
  { unfold projected_sim. rewrite Hproj, take_take. f_equal. f_equal. lia. }
  rewrite Hs1 in Hrun, Hres. rewrite Hrun.
  unfold unbound_residue, setSolution.
  destruct (decide (length (m_x s) <= length (buf_x b))%nat); [|lia].
  cbn [mbind option_bind].
  rewrite (setStrainRate_quiet nvar (buf_x b) _ (m_chi s) Hchi).
  - cbn [mbind option_bind].
    replace (setStrainRateValue (m_chi s)
               (with_m_x (take (length (m_x s)) (buf_x b)) s))
      with (with_m_x (take (length (m_x s)) (buf_x b)) s) by (by destruct s).
    unfold getResidual. destruct (decide _) as [_|Hno]; [|contradiction].
    reflexivity.
  - cbn [m_chi with_m_x m_amplify_threshold].
    rewrite Rminus_diag, Rabs_R0. lra.
Qed.

End ResidueComposition.

Lemma residues_agree_inside_witness :
  unbound_residue residual_id 3 {| buf_x := x_inside; buf_f := f_zero |} sim_bd
  = bound_residue residual_id 3 {| buf_x := x_inside; buf_f := f_zero |} sim_bd.
Proof.
  apply residues_agree_inside.
  - by apply fits_sim_bd.
  - intros i Hi. destruct i as [|[|[|i]]]; cbn; lra.
  - reflexivity.
  - simpl. lra.
Defined.

Lemma bound_residue_projection_idempotent_witness :
  bound_residue residual_id 3
    {| buf_x := projected 3 x_below (lb sim_bd) (ub sim_bd); buf_f := f_zero |}
    (projected_sim 3 {| buf_x := x_below; buf_f := f_zero |} sim_bd)
  = Some ({| buf_x := projected 3 x_below (lb sim_bd) (ub sim_bd);
             buf_f := residual_buffer residual_id
                        (projected_sim 3
                           {| buf_x := x_below; buf_f := f_zero |} sim_bd)
                        f_zero |},
          projected_sim 3 {| buf_x := x_below; buf_f := f_zero |} sim_bd).
Proof.
  apply (bound_residue_projection_idempotent residual_id 3
           {| buf_x := x_below; buf_f := f_zero |} sim_bd f_zero).
  - by apply fits_sim_bd.
  - reflexivity.
Defined.

(** ** Further properties of the strain-rate driver *)

Lemma setValue_length (s s' : Sim1D) (dom c j : nat) (v : R) :
  setValue s dom c j v = Some s' -> length (m_x s') = length (m_x s).
Proof.
  unfold setValue. destruct (domain s dom) as [d|]; [|discriminate].
  cbn [mbind option_bind]. destruct (decide _); [|discriminate].
  intros [= <-]. cbn. apply length_insert.
Qed.

Lemma amplify_length (ratio : R) (cu cv n : nat) :
  forall (i : nat) (s s' : Sim1D),
    amplify n i cu cv ratio s = Some s' ->
    length (m_x s') = length (m_x s).
Proof.
  induction n as [|n IH]; intros i s s' H; cbn [amplify] in H.
  - by injection H as <-.
  - destruct (value s 1 cu i) as [u0|]; [|discriminate].
    cbn [mbind option_bind] in H.
    destruct (setValue s 1 cu i (u0 * ratio)) as [s1|] eqn:E1; [|discriminate].
    cbn [mbind option_bind] in H.
    destruct (value s1 1 cv i) as [v0|]; [|discriminate].
    cbn [mbind option_bind] in H.
    destruct (setValue s1 1 cv i (v0 * ratio)) as [s2|] eqn:E2; [|discriminate].
    cbn [mbind option_bind] in H.
    apply IH in H. apply setValue_length in E1, E2. lia.
Qed.

(** X10.  Whenever setStrainRate completes on a simulation whose flow slice
    lies inside the solution, the solution vector keeps its length and every
    slot other than the u and V slots of the flow points keeps its value:
    temperature, eigenvalue, species and the slots of the other domains are
    never touched, whether the call amplifies or not. *)
Theorem setStrainRate_touches_only_u_V (nvar : Z) (x : list R)
    (s s' : Sim1D) :
  setStrainRate nvar x s = Some s' ->
  flow_in_range s ->
  length (m_x s') = length (m_x s) /\
  (forall k,
     (forall j, (j < nPoints (flow s))%nat ->
        k <> slot s c_offset_U j /\ k <> slot s c_offset_V j) ->
     m_x s' !! k = m_x s !! k) /\
  (forall c j, (c_offset_V < c < nComponents (flow s))%nat ->
     value s' 1 c j = value s 1 c j).
Proof.
  intros Hrun Hrange.
  assert (Hkeep : length (m_x s') = length (m_x s) /\
                  forall k,
                    (forall j, (j < nPoints (flow s))%nat ->
                       k <> slot s c_offset_U j /\ k <> slot s c_offset_V j) ->
                    m_x s' !! k = m_x s !! k).
  { apply setStrainRate_inv in Hrun
      as (a1 & Ha & [[_ ->] | [Hgt (s1 & Hamp & ->)]]).
    - split; [reflexivity|]. intros; reflexivity.
    - destruct (setStrainRate_loud nvar x s a1 Ha Hgt Hrange)
        as (xs & Hrun' & Hl & _ & Hk).
      destruct Hrange as [Hnv Hlen].
      destruct (amplify_spec (a1 / m_chi s) (nPoints (flow s)) 0 s Hnv Hlen)
        as (s1' & Hamp' & _ & Hl1 & _ & Hk1).
      rewrite Hamp in Hamp'. injection Hamp' as <-.
      split; [exact Hl1|]. intros k Hkk. cbn [m_x amplified setStrainRateValue
        with_inlet_o with_inlet_f with_m_x].
      apply Hk1. intros j Hj. apply Hkk. lia. }
  destruct Hkeep as [Hl Hk]. split; [exact Hl|]. split; [exact Hk|].
  intros c j Hc.
  assert (Hflow : flow s' = flow s).
  { apply setStrainRate_inv in Hrun
      as (a1 & _ & [[_ ->] | [_ (s1 & _ & ->)]]); reflexivity. }
  rewrite !value_flow. unfold slot. rewrite Hflow. fold (slot s c j).
  apply Hk. intros j' Hj'. unfold nComponents, c_offset_U, c_offset_V in *.
  split; intros E; apply slot_inj in E; lia.
Qed.

Lemma setStrainRate_touches_only_u_V_witness :
  exists s',
    setStrainRate 11 (x_ex 100) sim_ex = Some s' /\
    value s' 1 c_offset_T 1 = Some 300.
Proof.
  destruct (setStrainRate_loud 11 (x_ex 100) sim_ex 100)
    as (xs & Hrun & _); [reflexivity | | apply sim_ex_in_range |].
  { apply Rabs_gt_intro. simpl. lra. }
  eexists. split; [exact Hrun|].
  destruct (setStrainRate_touches_only_u_V _ _ _ _ Hrun sim_ex_in_range)
    as (_ & _ & Hc).
  rewrite Hc; [reflexivity|]. unfold c_offset_V, c_offset_T. simpl. lia.
Defined.

(** X11.  Two amplifying calls in a row, from chi over a1 to a2, scale the
    flow field as one call from chi to a2 would: every u and V value ends
    multiplied by a2/chi.  The inlet fluxes do not: they end at
    rho (u (a2/a1)), the ratio of the second call alone. *)
Theorem setStrainRate_twice (nvar1 nvar2 : Z) (x1 x2 : list R) (s : Sim1D)
    (a1 a2 : R) :
  at_int x1 (nvar1 - 1) = Some a1 ->
  at_int x2 (nvar2 - 1) = Some a2 ->
  Rabs (a1 - m_chi s) > m_amplify_threshold s ->
  Rabs (a2 - a1) > m_amplify_threshold s ->
  a1 <> 0 ->
  flow_in_range s ->
  exists s2,
    continuation [(nvar1, x1); (nvar2, x2)] s = Some s2 /\
    (forall j c, (j < nPoints (flow s))%nat ->
       c = c_offset_U \/ c = c_offset_V ->
       value s2 1 c j = (fun v => v * (a2 / m_chi s)) <$> value s 1 c j) /\
    m_chi s2 = a2 /\
    m_mdot (inlet_f s2) = m_rhoin_f s * (m_uin_f s * (a2 / a1)) /\
    m_mdot (inlet_o s2) = m_rhoin_o s * (m_uin_o s * (a2 / a1)).
Proof.
  intros H1 H2 Hg1 Hg2 Ha1 Hrange.
  rewrite Rabs_minus_sym in Hg1, Hg2.
  destruct (setStrainRate_loud nvar1 x1 s a1 H1 Hg1 Hrange)
    as (xs1 & Hrun1 & Hl1 & Hsc1 & _).
  set (s1 := amplified a1 xs1 s) in *.
  assert (Hrange1 : flow_in_range s1).
  { destruct Hrange as [Hnv Hlen]. split; [exact Hnv|].
    unfold s1. cbn. rewrite Hl1. exact Hlen. }
  destruct (setStrainRate_loud nvar2 x2 s1 a2 H2 Hg2 Hrange1)
    as (xs2 & Hrun2 & Hl2 & Hsc2 & _).
  exists (amplified a2 xs2 s1). split; [|split; [|split; [|split]]].
  - cbn [continuation]. rewrite Hrun1. cbn [mbind option_bind].
    rewrite Hrun2. reflexivity.
  - intros j c Hj Hc. rewrite value_amplified, value_flow.
    change (slot s1 c j) with (slot s c j).
    change (slot s1) with (slot s) in Hsc2.
    rewrite (Hsc2 j c Hj Hc). cbn [m_x s1 amplified setStrainRateValue
      with_inlet_o with_inlet_f with_m_x m_chi].
    rewrite (Hsc1 j c Hj Hc). destruct (m_x s !! slot s c j) as [v|]; cbn;
      [|reflexivity].
    f_equal. unfold Rdiv. generalize (/ m_chi s). intros t. field. exact Ha1.
  - reflexivity.
  - reflexivity.
  - reflexivity.
Qed.

Lemma setStrainRate_twice_witness :
  exists s2,
    continuation [(11%Z, x_ex 100); (11%Z, x_ex 200)] sim_ex = Some s2 /\
    value s2 1 c_offset_U 0 = Some (3 * (200 / 50)) /\
    m_mdot (inlet_f s2) = 2 * (3 * (200 / 100)).
Proof.
  destruct (setStrainRate_twice 11 11 (x_ex 100) (x_ex 200) sim_ex 100 200)
    as (s2 & Hrun & Hsc & _ & Hf & _).
  - reflexivity.
  - reflexivity.
  - apply Rabs_gt_intro. simpl. lra.
  - apply Rabs_gt_intro. simpl. lra.
  - lra.
  - apply sim_ex_in_range.
  - exists s2. split; [exact Hrun|]. split; [|exact Hf].
    rewrite (Hsc 0%nat c_offset_U); [reflexivity | simpl; lia | by left].
Defined.

(** X9.  A sequence of calls each within the threshold of the strain rate
    recorded by the call before it completes and never amplifies, however
    far the strain rate moves in total: the solution and both inlets are
    those before the sequence, and only the stored strain rate has
    followed. *)
Theorem continuation_drifts (calls : list (Z * list R)) :
  forall s,
    all_quiet calls (m_chi s) (m_amplify_threshold s) ->
    exists sk,
      continuation calls s = Some sk /\
      sk = setStrainRateValue (last_strain calls (m_chi s)) s /\
      m_x sk = m_x s /\ inlet_f sk = inlet_f s /\ inlet_o sk = inlet_o s.
Proof.
  induction calls as [|[nvar x] rest IH]; intros s Hq.
  - exists s. cbn. repeat split. by destruct s.
  - cbn [all_quiet] in Hq. destruct Hq as (a & Ha & Hle & Hrest).
    assert (Hrun : setStrainRate nvar x s = Some (setStrainRateValue a s)).
    { apply setStrainRate_quiet; [exact Ha|].
      rewrite Rabs_minus_sym. intros H. apply Rgt_not_le in H. exact (H Hle). }
    destruct (IH (setStrainRateValue a s) Hrest)
      as (sk & Hk & Hsk & Hx & Hf & Ho).
    exists sk. cbn [continuation last_strain]. rewrite Hrun, Ha.
    cbn [mbind option_bind default]. split; [exact Hk|].
    split; [rewrite Hsk; reflexivity|]. auto.
Qed.

Lemma continuation_drifts_witness :
  exists sk,
    continuation drift_calls sim_ex = Some sk /\
    m_chi sk = 74 /\ m_x sk = m_x sim_ex /\ m_mdot (inlet_f sk) = 6.
Proof.
  destruct (continuation_drifts drift_calls sim_ex)
    as (sk & Hrun & Hsk & Hx & Hf & _).
  - cbn [all_quiet drift_calls].
    exists 58. split; [reflexivity|]. split; [apply Rabs_le_intro; simpl; lra|].
    exists 66. split; [reflexivity|]. split; [apply Rabs_le_intro; simpl; lra|].
    exists 74. split; [reflexivity|]. split; [apply Rabs_le_intro; simpl; lra|].
    exact I.
  - exists sk. split; [exact Hrun|]. split; [by rewrite Hsk|].
    split; [exact Hx|]. by rewrite Hf.
Defined.

(** ** The unbounded residue *)

Section UnboundResidue.

Variable OneDim_eval : Sim1D -> list R -> R -> list R.

(** X6.  Whenever unbound_residue completes, the input array x, both bound
    vectors, the threshold and the stored inlet velocities and densities
    are what they were, the solution vector has kept its length, and the
    stored strain rate is the last entry x[nvar-1] of the input. *)
Theorem unbound_residue_frame (nvar : Z) (b b' : Buffers) (s s' : Sim1D) :
  unbound_residue OneDim_eval nvar b s = Some (b', s') ->
  buf_x b' = buf_x b /\
  lb s' = lb s /\ ub s' = ub s /\
  m_amplify_threshold s' = m_amplify_threshold s /\
  m_uin_f s' = m_uin_f s /\ m_uin_o s' = m_uin_o s /\
  m_rhoin_f s' = m_rhoin_f s /\ m_rhoin_o s' = m_rhoin_o s /\
  length (m_x s') = length (m_x s) /\
  at_int (buf_x b) (nvar - 1) = Some (m_chi s').
Proof.
  unfold unbound_residue, setSolution. intros H.
  destruct (decide (length (m_x s) <= length (buf_x b))%nat) as [Hle|];
    [|discriminate].
  cbn [mbind option_bind] in H.
  destruct (setStrainRate nvar (buf_x b) _) as [s2|] eqn:E; [|discriminate].
  cbn [mbind option_bind] in H.
  destruct (getResidual _ _ _ _) as [f|]; [|discriminate].
  cbn [mbind option_bind] in H. injection H as <- <-.
  assert (Htake : length (take (length (m_x s)) (buf_x b)) = length (m_x s)).
  { rewrite length_take. lia. }
  apply setStrainRate_inv in E
    as (a1 & Ha & [[_ ->] | [_ (s1 & Hamp & ->)]]).
  - cbn. rewrite Htake. auto 10.
  - apply amplify_length in Hamp. cbn in *. rewrite Hamp, Htake. auto 10.
Qed.

(** X8.  An amplifying call of unbound_residue scales the values handed in
    with x, not the solution stored before the call: on completion every
    u and V value of the flow domain is the matching entry of x times
    x[nvar-1]/chi, and the residual is evaluated on that scaled state. *)
Theorem unbound_residue_scales_input (nvar : Z) (b : Buffers) (s : Sim1D)
    (a1 : R) :
  (forall s0 xs rdt, length (OneDim_eval s0 xs rdt) = length xs) ->
  (length (m_x s) <= length (buf_x b))%nat ->
  (length (m_x s) <= length (buf_f b))%nat ->
  at_int (buf_x b) (nvar - 1) = Some a1 ->
  Rabs (a1 - m_chi s) > m_amplify_threshold s ->
  flow_in_range s ->
  exists s',
    unbound_residue OneDim_eval nvar b s
    = Some ({| buf_x := buf_x b;
               buf_f := residual_buffer OneDim_eval s' (buf_f b) |}, s') /\
    m_chi s' = a1 /\
    (forall j c, (j < nPoints (flow s))%nat ->
       c = c_offset_U \/ c = c_offset_V ->
       value s' 1 c j
       = (fun v => v * (a1 / m_chi s)) <$> buf_x b !! slot s c j).
Proof.
  intros Hev Hx Hf Ha Hgt Hrange. rewrite Rabs_minus_sym in Hgt.
  set (s1 := with_m_x (take (length (m_x s)) (buf_x b)) s).
  assert (Hl1 : length (m_x s1) = length (m_x s)).
  { unfold s1. cbn. rewrite length_take. lia. }
  assert (Hrange1 : flow_in_range s1).
  { destruct Hrange as [Hnv Hlen]. split; [exact Hnv|].
    rewrite Hl1. exact Hlen. }
  destruct (setStrainRate_loud nvar (buf_x b) s1 a1 Ha Hgt Hrange1)
    as (xs & Hrun & Hl & Hsc & _).
  exists (amplified a1 xs s1). split; [|split; [reflexivity|]].
  - unfold unbound_residue, setSolution.
    destruct (decide (length (m_x s) <= length (buf_x b))%nat); [|lia].
    cbn [mbind option_bind]. fold s1. rewrite Hrun.
    cbn [mbind option_bind]. unfold getResidual.
    destruct (decide _) as [_|Hno]; [reflexivity|].
    exfalso. apply Hno. rewrite Hev. cbn. lia.
  - intros j c Hj Hc. rewrite value_amplified.
    change (slot s1 c j) with (slot s c j).
    change (slot s1) with (slot s) in Hsc.
    rewrite (Hsc j c Hj Hc). change (m_chi s1) with (m_chi s).
    f_equal. unfold s1. cbn [m_x with_m_x]. apply lookup_take_lt.
    destruct Hrange as [Hnv Hlen].
    unfold slot, index, loc, nComponents, nPoints, c_offset_U, c_offset_V in *.
    destruct Hc as [-> | ->]; nia.
Qed.

End UnboundResidue.

Lemma unbound_residue_frame_witness :
  exists b' s',
    unbound_residue residual_id 3
      {| buf_x := x_inside; buf_f := f_zero |} sim_bd = Some (b', s') /\
    buf_x b' = x_inside /\ m_chi s' = 50.
Proof.
  assert (Hrun : exists b' s',
             unbound_residue residual_id 3
               {| buf_x := x_inside; buf_f := f_zero |} sim_bd
             = Some (b', s')).
  { unfold unbound_residue, setSolution. cbn [buf_x buf_f].
    destruct (decide _) as [_|Hno]; [|exfalso; apply Hno; simpl; lia].
    cbn [mbind option_bind].
    rewrite (setStrainRate_quiet 3 x_inside _ 50 eq_refl).
    - cbn [mbind option_bind]. unfold getResidual, residual_id.
      destruct (decide _) as [_|Hno]; [|exfalso; apply Hno; simpl; lia].
      eauto.
    - cbn. rewrite Rminus_diag, Rabs_R0. lra. }
  destruct Hrun as (b' & s' & Hrun). exists b', s'.
  destruct (unbound_residue_frame residual_id _ _ _ _ _ Hrun)
    as (Hx & _ & _ & _ & _ & _ & _ & _ & _ & Hchi).
  split; [exact Hrun|]. split; [exact Hx|].
  cbn in Hchi. by injection Hchi as <-.
Defined.

Lemma unbound_residue_scales_input_witness :
  exists s',
    unbound_residue residual_id 11
      {| buf_x := x_ex 100; buf_f := replicate 11 0 |} sim_ex
    = Some ({| buf_x := x_ex 100;
               buf_f := residual_buffer residual_id s' (replicate 11 0) |},
            s') /\
    value s' 1 c_offset_V 1 = Some (6 * (100 / 50)).
Proof.
  destruct (unbound_residue_scales_input residual_id 11
              {| buf_x := x_ex 100; buf_f := replicate 11 0 |} sim_ex 100)
    as (s' & Hrun & _ & Hsc).
  - reflexivity.
  - simpl. lia.
  - simpl. lia.
  - reflexivity.
  - apply Rabs_gt_intro. simpl. lra.
  - apply sim_ex_in_range.
  - exists s'. split; [exact Hrun|].
    rewrite (Hsc 1%nat c_offset_V); [reflexivity | simpl; lia | by right].
Defined.

(** ** Stencils on the non-uniform grid *)

Lemma central_quadratic (mu a b c zm z0 zp : R) :
  zp <> z0 -> z0 <> zm -> zp <> zm ->
  2 * (mu * ((a * zp * zp + b * zp + c) - (a * z0 * z0 + b * z0 + c)) /
         (zp - z0) -
       mu * ((a * z0 * z0 + b * z0 + c) - (a * zm * zm + b * zm + c)) /
         (z0 - zm)) / (zp - zm)
  = 2 * a * mu.
Proof. intros H1 H2 H3. field. repeat split; lra. Qed.

(** X12.  With the same viscosity (conductivity) on both sides of point j,
    the central stencils are exact on quadratics of the grid coordinate,
    whatever the spacing: for V = a z^2 + b z + c the shear is 2 a mu, and
    for T = a' z^2 + b' z + c' the heat-flux divergence is -2 a' kappa.
    On a linear profile both vanish. *)
Theorem central_stencils_quadratic (fl : StFlow) (more : StFlowMore)
    (x : list R) (j : nat) (mu kappa a b c a' b' c' : R) :
  stencil_distinct (z fl) j ->
  m_visc fl !!! (j - 1)%nat = mu -> m_visc fl !!! j = mu ->
  m_tcon more !!! (j - 1)%nat = kappa -> m_tcon more !!! j = kappa ->
  quadratic_on (z fl) (V fl x) j a b c ->
  quadratic_on (z fl) (T fl x) j a' b' c' ->
  shear fl x j = 2 * a * mu /\
  divHeatFlux fl more x j = - (2 * a' * kappa).
Proof.
  intros (H1 & H2 & H3) Hm1 Hm2 Hk1 Hk2 HV HT.
  unfold shear, divHeatFlux. cbn zeta.
  rewrite Hm1, Hm2, Hk1, Hk2.
  rewrite (HV (j - 1)%nat), (HV j), (HV (j + 1)%nat) by auto.
  rewrite (HT (j - 1)%nat), (HT j), (HT (j + 1)%nat) by auto.
  split.
  - by apply central_quadratic.
  - rewrite <- (central_quadratic kappa a' b' c' (z fl (j - 1)) (z fl j)
                  (z fl (j + 1)) H1 H2 H3).
    field. repeat split; lra.
Qed.

Lemma central_stencils_quadratic_witness :
  shear flow_visc x_quad 1 = 2 * 1 * 1 /\
  divHeatFlux flow_visc more_ex x_quad 1 = - (2 * 0 * 2).
Proof.
  apply (central_stencils_quadratic flow_visc more_ex x_quad 1 1 2
           1 0 0 0 100 300).
  - unfold stencil_distinct, z. cbn. lra.
  - reflexivity.
  - reflexivity.
  - reflexivity.
  - reflexivity.
  - intros k [-> | [-> | ->]]; unfold V, z; cbn; lra.
  - intros k [-> | [-> | ->]]; unfold T, z; cbn; lra.
Defined.

(** X13.  The artificial viscosities of the liquid equations are the same
    stencil with a constant coefficient: on a quadratic a z^2 + b z + c of
    the grid coordinate each of them is 2 a times its coefficient, so they
    add nothing to a profile that is linear in z. *)
Theorem artificial_viscosity_quadratic (sp : SprayFlame)
    (av : AVCoefficients) (x : list R) (j : nat) (a b c : R) :
  stencil_distinct (z (sp_flow sp)) j ->
  (quadratic_on (z (sp_flow sp)) (ml sp x) j a b c ->
   av_ml sp av x j = 2 * a * m_visc_ml av) /\
  (quadratic_on (z (sp_flow sp)) (nl sp x) j a b c ->
   av_nl sp av x j = 2 * a * m_visc_nl av) /\
  (quadratic_on (z (sp_flow sp)) (Tl sp x) j a b c ->
   av_Tl sp av x j = 2 * a * m_visc_Tl av) /\
  (quadratic_on (z (sp_flow sp)) (Ul sp x) j a b c ->
   av_Ul sp av x j = 2 * a * m_visc_Ul av) /\
  (quadratic_on (z (sp_flow sp)) (vl sp x) j a b c ->
   av_vl sp av x j = 2 * a * m_visc_vl av).
Proof.
  intros (H1 & H2 & H3).
  repeat split; intros Hq;
    unfold av_ml, av_nl, av_Tl, av_Ul, av_vl; cbn zeta;
    rewrite (Hq (j - 1)%nat), (Hq j), (Hq (j + 1)%nat) by auto;
    by apply central_quadratic.
Qed.

Lemma artificial_viscosity_quadratic_witness :
  av_ml sp_grid av_ex x_liquid 1 = 2 * 0 * (1 / 10).
Proof.
  destruct (artificial_viscosity_quadratic sp_grid av_ex x_liquid 1 0 (-100) 3)
    as (Hml & _).
  - unfold stencil_distinct, z. cbn. lra.
  - apply Hml. intros k [-> | [-> | ->]]; unfold ml, z; cbn; lra.
Defined.

Lemma grid_spacing_at (fl : StFlow) (jloc : nat) :
  grid_consistent fl ->
  (1 <= jloc)%nat -> (jloc < nPoints (st_dom fl))%nat ->
  m_dz fl !!! (jloc - 1)%nat = z fl jloc - z fl (jloc - 1).
Proof.
  intros [Hlen Hdz] H1 H2. unfold z. rewrite Hdz.
  rewrite grid_dz_lookup by lia.
  replace (jloc - 1 + 1)%nat with jloc by lia. reflexivity.
Qed.

Lemma upwind_linear (a b z1 z0 : R) :
  z1 <> z0 -> (a * z1 + b - (a * z0 + b)) / (z1 - z0) = a.
Proof. intros H. field. lra. Qed.

(** X14.  On a grid whose spacings are derived from distinct coordinates,
    the upwinded derivatives are exact on profiles linear in z: where V, Y_k
    or T equals a z + b on the points j-1, j, j+1, the derivative at the
    interior point j is a, whichever way the stencil looks. *)
Theorem upwind_exact_on_linear (fl : StFlow) (x : list R) (k j : nat)
    (a b : R) :
  grid_consistent fl ->
  (1 <= j)%nat -> (j + 1 < nPoints (st_dom fl))%nat ->
  z fl j <> z fl (j - 1) -> z fl (j + 1) <> z fl j ->
  ((forall i, (j - 1 <= i <= j + 1)%nat -> V fl x i = a * z fl i + b) ->
   dVdz fl x j = a) /\
  ((forall i, (j - 1 <= i <= j + 1)%nat -> Y fl x k i = a * z fl i + b) ->
   dYdz fl x k j = a) /\
  ((forall i, (j - 1 <= i <= j + 1)%nat -> T fl x i = a * z fl i + b) ->
   dTdz fl x j = a).
Proof.
  intros Hgrid H1 H2 Hz1 Hz2.
  assert (Hstep : forall jloc, jloc = j \/ jloc = (j + 1)%nat ->
            m_dz fl !!! (jloc - 1)%nat = z fl jloc - z fl (jloc - 1) /\
            z fl jloc <> z fl (jloc - 1) /\
            (j - 1 <= jloc <= j + 1)%nat /\ (j - 1 <= jloc - 1 <= j + 1)%nat).
  { intros jloc [-> | ->].
    - split; [apply grid_spacing_at; [exact Hgrid | lia | lia]|].
      split; [exact Hz1 | lia].
    - split; [apply grid_spacing_at; [exact Hgrid | lia | lia]|].
      replace (j + 1 - 1)%nat with j by lia. split; [exact Hz2 | lia]. }
  repeat split; intros Hlin; unfold dVdz, dYdz, dTdz; cbn zeta;
    destruct (decide (u fl x j > 0));
    match goal with
    | |- context [m_dz fl !!! (?jl - 1)%nat] =>
        destruct (Hstep jl ltac:(auto)) as (-> & Hne & Hr1 & Hr2);
        rewrite (Hlin jl Hr1), (Hlin (jl - 1)%nat Hr2);
        by apply upwind_linear
    end.
Qed.

Lemma upwind_exact_on_linear_witness :
  dTdz flow_visc x_quad 1 = 100.
Proof.
  destruct (upwind_exact_on_linear flow_visc x_quad 0 1 100 300)
    as (_ & _ & HT).
  - apply setupGrid_consistent.
  - lia.
  - simpl. lia.
  - unfold z. cbn. lra.
  - unfold z. cbn. lra.
  - apply HT. intros i Hi.
    assert (i = 0 \/ i = 1 \/ i = 2)%nat as [-> | [-> | ->]] by lia;
      unfold T, z; cbn; lra.
Defined.

(** X15.  The convective derivatives of the five liquid variables are
    upwinded by the liquid axial velocity vl: at an interior point each is
    the one-sided difference quotient between jloc - 1 and jloc, where jloc
    is j when vl(x, j) > 0 and j + 1 otherwise. *)
Theorem liquid_upwind_derivatives (sp : SprayFlame) (x : list R) (j : nat) :
  grid_consistent (sp_flow sp) ->
  (1 <= j)%nat -> (j + 1 < nPoints (st_dom (sp_flow sp)))%nat ->
  let jloc := if decide (vl sp x j > 0) then j else (j + 1)%nat in
  let dz := z (sp_flow sp) jloc - z (sp_flow sp) (jloc - 1) in
  dUldz sp x j = (Ul sp x jloc - Ul sp x (jloc - 1)) / dz /\
  dvldz sp x j = (vl sp x jloc - vl sp x (jloc - 1)) / dz /\
  dmldz sp x j = (ml sp x jloc - ml sp x (jloc - 1)) / dz /\
  dnldz sp x j = (nl sp x jloc - nl sp x (jloc - 1)) / dz /\
  dTldz sp x j = (Tl sp x jloc - Tl sp x (jloc - 1)) / dz.
Proof.
  intros Hgrid H1 H2 jloc dz.
  assert (Hdz : m_dz (sp_flow sp) !!! (jloc - 1)%nat = dz).
  { apply grid_spacing_at; [exact Hgrid | |]; unfold jloc;
      destruct (decide _); lia. }
  unfold dUldz, dvldz, dmldz, dnldz, dTldz. fold jloc. rewrite Hdz. auto 10.
Qed.

Lemma liquid_upwind_derivatives_witness :
  dmldz sp_grid x_liquid 1 = (0 - 2) / (3 / 100 - 1 / 100).
Proof.
  destruct (liquid_upwind_derivatives sp_grid x_liquid 1)
    as (_ & _ & Hml & _).
  - apply setupGrid_consistent.
  - lia.
  - simpl. lia.
  - rewrite Hml. unfold vl. cbn.
    destruct (decide (-1 > 0)) as [Hpos|_]; [lra|]. reflexivity.
Defined.

(** ** Further properties of the spray closures *)

Lemma ln_nonzero_pos (v : R) : ln v <> 0 -> 0 < v.
Proof.
  unfold ln. destruct (Rlt_dec 0 v) as [Hpos|_]; [auto | contradiction].
Qed.

Lemma log_term_spalding (sp : SprayFlame) (x : list R) (j : nat) :
  log_term sp x j = ln (1 + spalding sp x j).
Proof. reflexivity. Qed.

Lemma spalding_divisor_pos (sp : SprayFlame) (x : list R) (j : nat) :
  0 < Rmax (1 - Yrs sp x j) sqrt_dbl_min.
Proof.
  pose proof sqrt_dbl_min_pos. pose proof (Rmax_r (1 - Yrs sp x j) sqrt_dbl_min).
  lra.
Qed.

Lemma div_range (n d : R) :
  0 < d -> 0 <= n -> n <= d ->
  0 <= n / d /\ n / d <= 1 /\ (n < d -> n / d < 1).
Proof.
  intros Hd Hn Hle. unfold Rdiv.
  pose proof (Rinv_0_lt_compat d Hd) as Hi.
  pose proof (Rinv_r d ltac:(lra)) as Hr.
  repeat split; try intros Hlt; nra.
Qed.

(** X16.  With positive molecular weights and a vapor pressure between 0
    and the gas pressure, the surface mass fraction Yrs lies between 0 and
    1, and stays below 1 when the vapor pressure is below the gas
    pressure. *)
Theorem Yrs_range (sp : SprayFlame) (x : list R) (j : nat) :
  0 < m_wt (sp_flow sp) !!! c_offset_fuel sp ->
  0 < m_wtm (sp_flow sp) !!! j ->
  0 <= prs sp x j / m_press (sp_flow sp) ->
  prs sp x j / m_press (sp_flow sp) <= 1 ->
  0 <= Yrs sp x j /\ Yrs sp x j <= 1 /\
  (prs sp x j / m_press (sp_flow sp) < 1 -> Yrs sp x j < 1).
Proof.
  intros HW HWm H0 H1. unfold Yrs. cbn zeta.
  set (Xrs := prs sp x j / m_press (sp_flow sp)) in *.
  set (W := m_wt (sp_flow sp) !!! c_offset_fuel sp) in *.
  set (Wm := m_wtm (sp_flow sp) !!! j) in *.
  assert (Hnum : 0 <= W * Xrs) by nra.
  assert (Hoth : 0 <= (1 - Xrs) * Wm) by nra.
  assert (Hden : 0 < W * Xrs + (1 - Xrs) * Wm).
  { destruct (Rle_lt_dec Xrs (1 / 2)); nra. }
  destruct (div_range (W * Xrs) (W * Xrs + (1 - Xrs) * Wm) Hden Hnum
              ltac:(lra)) as (R0 & R1 & Rlt).
  split; [exact R0|]. split; [exact R1|].
  intros Hlt. apply Rlt. nra.
Qed.

Lemma Xrs_wet : prs sp_wet x_wet 0 / m_press (sp_flow sp_wet) = 1 / 2.
Proof.
  unfold prs. cbn -[Rpower]. unfold bar2Pa.
  replace (4 - 1200 / (-72 + 372)) with 0 by lra.
  rewrite Rpower_O by lra. lra.
Qed.

Lemma Yrs_range_witness :
  0 <= Yrs sp_wet x_wet 0 /\ Yrs sp_wet x_wet 0 < 1.
Proof.
  destruct (Yrs_range sp_wet x_wet 0) as (H0 & _ & Hlt).
  - cbn. lra.
  - cbn. lra.
  - rewrite Xrs_wet. lra.
  - rewrite Xrs_wet. lra.
  - split; [exact H0|]. apply Hlt. rewrite Xrs_wet. lra.
Defined.



Lemma cube_of_cube_root (v : R) : 0 < v -> Rpower v (1 / 3) ^ 3 = v.
Proof.
  intros Hv. rewrite <- Rpower_pow by apply exp_pos.
  rewrite Rpower_mult. replace (1 / 3 * INR 3) with 1 by (simpl; field).
  apply Rpower_1, Hv.
Qed.

(** X19.  At or above the threshold, with a positive liquid density, the
    diameter is positive and is that of the sphere holding the droplet
    mass: (pi / 6) rho_l dl^3 = ml. *)
Theorem dl_sphere_mass (sp : SprayFlame) (x : list R) (j : nat) :
  ~ ml sp x j < sqrt_dbl_min ->
  0 < rhol sp x j ->
  0 < dl sp x j /\
  Pi / 6 * rhol sp x j * dl sp x j ^ 3 = ml sp x j.
Proof.
  intros Hbig Hrho. pose proof sqrt_dbl_min_pos as Hs.
  pose proof PI_RGT_0 as Hpi.
  unfold dl. destruct (decide _); [contradiction|].
  split; [apply exp_pos|].
  assert (Hbase : 0 < 6 * ml sp x j / Pi / rhol sp x j).
  { unfold Pi. repeat apply Rdiv_lt_0_compat; lra. }
  rewrite cube_of_cube_root by exact Hbase. unfold Pi. field. lra.
Qed.

Lemma dl_sphere_mass_witness :
  Pi / 6 * rhol sp_wet x_wet 0 * dl sp_wet x_wet 0 ^ 3 = 1 / 1000000000.
Proof.
  destruct (dl_sphere_mass sp_wet x_wet 0 wet_not_small) as [_ H].
  - destruct (rhol_cases sp_wet x_wet 0) as [HA _].
    rewrite (HA only_A_set_wet). simpl. lra.
  - rewrite H. apply ml_wet_0.
Defined.

(** X20.  With a positive diameter, density and diffusion coefficient, and
    a Spalding number above -1 (the domain of the logarithm), the droplet
    evaporates exactly when the surface mass fraction exceeds the fuel mass
    fraction of the gas: mdot > 0 iff Y_f < Yrs. *)
Theorem mdot_sign (sp : SprayFlame) (x : list R) (j : nat) :
  0 < dl sp x j ->
  0 < m_rho (sp_flow sp) !!! j ->
  0 < Dgf sp j ->
  -1 < spalding sp x j ->
  (0 < mdot sp x j <-> Y (sp_flow sp) x (c_offset_fuel sp) j < Yrs sp x j).
Proof.
  intros Hd Hr HD HB. pose proof PI_RGT_0 as Hpi.
  pose proof (spalding_divisor_pos sp x j) as Hdiv.
  assert (Hfac : 0 < 2 * Pi * dl sp x j * m_rho (sp_flow sp) !!! j * Dgf sp j).
  { assert (H2pi : 0 < 2 * Pi) by (unfold Pi; lra).
    do 3 (apply Rmult_lt_0_compat; [|assumption]). exact H2pi. }
  assert (HBm : 0 < spalding sp x j <->
                Y (sp_flow sp) x (c_offset_fuel sp) j < Yrs sp x j).
  { unfold spalding. split; intros H.
    - apply Rmult_lt_compat_r with (r := Rmax (1 - Yrs sp x j) sqrt_dbl_min)
        in H; [|exact Hdiv].
      unfold Rdiv in H. rewrite Rmult_assoc, Rinv_l in H by lra. lra.
    - apply Rdiv_lt_0_compat; lra. }
  assert (Hln : 0 < ln (1 + spalding sp x j) <-> 0 < spalding sp x j).
  { split; intros H.
    - assert (Hl : ln 1 < ln (1 + spalding sp x j)) by (rewrite ln_1; exact H).
      apply ln_lt_inv in Hl; lra.
    - rewrite <- ln_1. apply ln_increasing; lra. }
  rewrite mdot_factors, log_term_spalding, <- HBm, <- Hln.
  split; intros H.
  - apply Rmult_lt_reg_l with (r := 2 * Pi * dl sp x j *
                                    m_rho (sp_flow sp) !!! j * Dgf sp j);
      [exact Hfac | lra].
  - apply Rmult_lt_0_compat; assumption.
Qed.

Lemma spalding_wet : spalding sp_wet x_wet 0 = 1.
Proof.
  unfold spalding. rewrite Yrs_wet.
  change (Y (sp_flow sp_wet) x_wet (c_offset_fuel sp_wet) 0) with 0.
  rewrite Rmax_left by (pose proof sqrt_dbl_min_small; lra). lra.
Qed.

Lemma mdot_sign_witness : 0 < mdot sp_wet x_wet 0.
Proof.
  apply mdot_sign.
  - pose proof dl_wet_lower. lra.
  - cbn. lra.
  - unfold Dgf. cbn. lra.
  - rewrite spalding_wet. lra.
  - rewrite Yrs_wet. cbn. lra.
Defined.

(** X21.  setTemperature at a point inside both vectors completes; the
    point then reads back the fixed temperature and has its energy equation
    off, every other point reads as before, and the conductivities are
    untouched.  Outside either vector the write is out of bounds. *)
Theorem setTemperature_round_trip (j : nat) (t : R) (e : StFlowMore) :
  (j < length (m_fixedtemp e))%nat ->
  (j < length (m_do_energy e))%nat ->
  exists e',
    setTemperature j t e = Some e' /\
    T_fixed e' j = t /\ doEnergy e' j = false /\
    (forall j', j' <> j ->
       T_fixed e' j' = T_fixed e j' /\ doEnergy e' j' = doEnergy e j') /\
    m_tcon e' = m_tcon e.
Proof.
  intros H1 H2. unfold setTemperature.
  destruct (decide _); [|lia]. destruct (decide _); [|lia].
  eexists. split; [reflexivity|]. unfold T_fixed, doEnergy. cbn.
  split; [by apply list_lookup_total_insert_eq|].
  split; [by apply list_lookup_total_insert_eq|].
  split; [|reflexivity].
  intros j' Hne. split; by apply list_lookup_total_insert_ne.
Qed.

Lemma setTemperature_round_trip_witness :
  exists e',
    setTemperature 1 1500 more_ex = Some e' /\
    T_fixed e' 1 = 1500 /\ doEnergy e' 1 = false /\ doEnergy e' 2 = true.
Proof.
  destruct (setTemperature_round_trip 1 1500 more_ex)
    as (e' & Hrun & HT & HE & Hoth & _).
  - simpl. lia.
  - simpl. lia.
  - exists e'. split; [exact Hrun|]. split; [exact HT|]. split; [exact HE|].
    destruct (Hoth 2%nat ltac:(lia)) as [_ ->]. reflexivity.
Defined.

(** Within the index type the offset is computed without wrap-around. *)
Lemma mindex_no_wrap (fl : StFlow) (k j m : Z) :
  let nsp := Z.of_nat (m_nsp fl) in
  (0 <= k < nsp)%Z -> (0 <= j < nsp)%Z -> (0 <= m)%Z ->
  ((m + 1) * nsp * nsp <= 2 ^ 64)%Z ->
  mindex fl k j m = (m * nsp * nsp + nsp * j + k)%Z.
Proof.
  intros nsp Hk Hj Hm Hfit. unfold mindex, size_t. fold nsp.
  assert (H1 : (0 <= m * nsp < 2 ^ 64)%Z) by nia.
  rewrite (Z.mod_small (m * nsp)) by exact H1.
  assert (H2 : (0 <= m * nsp * nsp < 2 ^ 64)%Z) by nia.
  rewrite (Z.mod_small (m * nsp * nsp)) by exact H2.
  assert (H3 : (0 <= nsp * j < 2 ^ 64)%Z) by nia.
  rewrite (Z.mod_small (nsp * j)) by exact H3.
  assert (H4 : (0 <= m * nsp * nsp + nsp * j < 2 ^ 64)%Z) by nia.
  rewrite (Z.mod_small (m * nsp * nsp + nsp * j)) by exact H4.
  apply Z.mod_small. nia.
Qed.

(** Beyond the index type the offsets wrap: with 65536 species, block 2^32
    lands on the first entry of block 0. *)
Lemma mindex_wraps :
  mindex flow_wide 0 0 (2 ^ 32) = mindex flow_wide 0 0 0.
Proof. reflexivity. Qed.

(** X22.  mindex addresses the multicomponent array without overlap as
    long as the array fits the index type: for species indices k and j
    below the number of species and blocks m, m' with
    (m + 1) nsp^2 <= 2^64, the offset is m nsp^2 + nsp j + k, and two
    offsets are equal exactly when k, j and m are. *)
Theorem mindex_injective (fl : StFlow) (k j m k' j' m' : Z) :
  let nsp := Z.of_nat (m_nsp fl) in
  (0 <= k < nsp)%Z -> (0 <= j < nsp)%Z -> (0 <= m)%Z ->
  (0 <= k' < nsp)%Z -> (0 <= j' < nsp)%Z -> (0 <= m')%Z ->
  ((m + 1) * nsp * nsp <= 2 ^ 64)%Z ->
  ((m' + 1) * nsp * nsp <= 2 ^ 64)%Z ->
  mindex fl k j m = (m * nsp * nsp + nsp * j + k)%Z /\
  (mindex fl k j m = mindex fl k' j' m' <-> k = k' /\ j = j' /\ m = m').
Proof.
  intros nsp Hk Hj Hm Hk' Hj' Hm' Hfit Hfit'.
  rewrite !mindex_no_wrap by assumption. fold nsp.
  split; [reflexivity|]. split.
  - intros E.
    assert (Hq : (m * nsp + j = m' * nsp + j')%Z) by nia.
    assert (Hmm : m = m') by nia.
    subst m'. split; [nia|]. split; [nia | reflexivity].
  - intros (-> & -> & ->). reflexivity.
Qed.

Lemma mindex_injective_witness :
  mindex flow_three 1 2 0 = 7%Z /\ mindex flow_three 2 1 0 = 5%Z /\
  mindex flow_three 1 2 0 <> mindex flow_three 2 1 0.
Proof.
  destruct (mindex_injective flow_three 1 2 0 2 1 0) as [H1 H2];
    try (simpl; lia).
  destruct (mindex_injective flow_three 2 1 0 1 2 0) as [H3 _];
    try (simpl; lia).
  split; [exact H1|]. split; [exact H3|].
  intros E. apply H2 in E. lia.
Defined.



(** The residue with the state of the domains is the residue of the values
    followed by the effect of its single residual evaluation, which takes
    place at the projected solution. *)
Lemma bound_residue_with_domains (D : Type)
    (ev : Sim1D -> D -> list R -> R -> list R * D)
    (nvar : Z) (b : Buffers) (s : Sim1D) (d : D) :
  Domains.bound_residue ev nvar b s d =
  '(b', s') ← bound_residue (fun s0 x rdt => fst (ev s0 d x rdt)) nvar b s;
  Some (b', s', snd (ev s' d (m_x s') 0)).
Proof.
  unfold Domains.bound_residue, bound_residue.
  destruct (decide (nvar < 0)%Z); [reflexivity|].
  destruct (project _ _ _ _ _ _ _) as [[xB e]|]; [|reflexivity].
  cbn [mbind option_bind]. unfold setSolution.
  destruct (decide (length (m_x s) <= length xB)%nat); [|reflexivity].
  cbn [mbind option_bind].
  unfold Domains.getResidual, getResidual.
  destruct (ev _ d _ 0) as [r d'] eqn:E. cbn [fst].
  destruct (decide (length r <= length (buf_f b))%nat); [|reflexivity].
  cbn [mbind option_bind].
  destruct (steepen _ _ _ _ _) as [f'|]; [|reflexivity].
  cbn [mbind option_bind]. rewrite E. reflexivity.
Qed.

Lemma fits_sim_gas : fits (fun s0 x rdt => fst (eval_gas s0 (Some flow_gas) x rdt)) 6 b_gas sim_gas.
Proof.
  unfold fits, eval_gas, eval_flow, residual_id. cbn -[projected].
  repeat split; try lia.
  - rewrite length_take, projected_length. lia.
  - intros i Hi.
    destruct i as [|[|[|[|[|[|i]]]]]]; cbn; lra.
Qed.

(** The run on the example: the temperature 150 is projected to its lower
    bound 200, and the evaluation leaves the thermo object at the state of
    the projected point and the caches at its properties. *)
Lemma bound_residue_gas_run :
  let th := {| th_T := 200; th_P := 101325; th_Y := [1] |} in
  exists f',
    Domains.bound_residue eval_gas 6 b_gas sim_gas (Some flow_gas)
    = Some ({| buf_x := buf_x b_gas; buf_f := f' |},
            projected_sim 6 b_gas sim_gas,
            Some {| fs_flow := with_caches [density_gas th] [28] [1000]
                                 (fs_flow flow_gas);
                    fs_thermo := th |}).
Proof.
  intros th.
  destruct (bound_residue_run _ 6 b_gas sim_gas fits_sim_gas)
    as (f' & Hrun & _).
  exists f'. rewrite bound_residue_with_domains.
  change (Z.to_nat 6) with 6%nat in Hrun. rewrite Hrun.
  cbn [mbind option_bind]. do 2 f_equal.
  unfold eval_gas, eval_flow, updateThermo. cbn -[proj_spec density_gas].
  destruct (decide (1%nat = 0%nat)); [lia|].
  destruct (decide _) as [_|Hn]; [|lia].
  assert (HT : proj_spec 200 5000 150 = 200).
  { unfold proj_spec, Rmin. destruct (Rle_dec _ _); [|lra]. eval_Rmax. lra. }
  assert (HY : proj_spec 0 1 1 = 1).
  { unfold proj_spec, Rmin. destruct (Rle_dec _ _); [|lra]. eval_Rmax. lra. }
  rewrite HT, HY. reflexivity.
Qed.

(** C9, as stated, fails: on a flow whose cached density is 1 and whose
    thermo object stands at 300 K, the call leaves the flow with the
    cached density of the projected point (200 K) and the thermo object at
    that point's state.  The solution vector and f are not the only state
    the call modifies. *)
Lemma bound_residue_domain_counterexample :
  exists b' s' d',
    Domains.bound_residue eval_gas 6 b_gas sim_gas (Some flow_gas)
    = Some (b', s', Some d') /\
    m_rho (fs_flow d') <> m_rho (fs_flow flow_gas) /\
    fs_thermo d' <> fs_thermo flow_gas.
Proof.
  destruct bound_residue_gas_run as (f' & Hrun).
  eexists _, _, _. split; [exact Hrun|]. split.
  - cbn. unfold density_gas. cbn. intros [= E]. lra.
  - cbn. intros [= E]. lra.
Qed.

(** C9 (amended).  Whenever bound_residue completes, the input array x,
    the lower bounds and the upper bounds are what they were; of the
    members of the simulation only the solution vector has changed, and of
    the buffers only f; the domains and the objects they borrow are left
    in the state in which the one residual evaluation, at the projected
    solution with rdt = 0, leaves them. *)
Theorem bound_residue_effects (D : Type)
    (ev : Sim1D -> D -> list R -> R -> list R * D)
    (nvar : Z) (b b' : Buffers) (s s' : Sim1D) (d d' : D) :
  Domains.bound_residue ev nvar b s d = Some (b', s', d') ->
  buf_x b' = buf_x b /\
  lb s' = lb s /\
  ub s' = ub s /\
  s' = with_m_x (m_x s') s /\
  b' = {| buf_x := buf_x b; buf_f := buf_f b' |} /\
  d' = snd (ev s' d (m_x s') 0).
Proof.
  rewrite bound_residue_with_domains. intros H.
  destruct (bound_residue _ nvar b s) as [[b1 s1]|] eqn:E; [|discriminate].
  cbn [mbind option_bind] in H. injection H as -> -> <-.
  apply bound_residue_frame in E.
  destruct E as (H1 & H2 & H3 & H4 & H5). auto 10.
Qed.

Lemma bound_residue_effects_witness :
  exists b' s' d',
    Domains.bound_residue eval_gas 6 b_gas sim_gas (Some flow_gas)
    = Some (b', s', d') /\
    buf_x b' = [1; 0; 150; 0; 1; 50] /\
    lb s' = lb sim_gas /\
    ub s' = ub sim_gas /\
    d' = snd (eval_gas s' (Some flow_gas) (m_x s') 0).
Proof.
  destruct bound_residue_gas_run as (f' & Hrun).
  destruct (bound_residue_effects _ eval_gas 6 b_gas _ sim_gas _ _ _ Hrun)
    as (Hx & Hlb & Hub & _ & _ & Hd).
  eexists _, _, _. split; [exact Hrun|]. auto.
Defined.


(** ** The spray closures with exceptional values *)

Lemma ieee_div_fin (a b : R) :
  b <> 0 -> Ieee.div (Ieee.Fin a) (Ieee.Fin b) = Ieee.Fin (a / b).
Proof.
  intros H. unfold Ieee.div. destruct (decide _); [contradiction | reflexivity].
Qed.

Lemma ieee_pow_pos (r y : R) :
  0 < r -> Ieee.pow (Ieee.Fin r) (Ieee.Fin y) = Ieee.Fin (Rpower r y).
Proof.
  intros H. unfold Ieee.pow. destruct (decide (y = 0)) as [->|_].
  - rewrite Rpower_O by exact H. reflexivity.
  - destruct (decide (0 < r)); [reflexivity | contradiction].
Qed.

Lemma ieee_max_fin (a b : R) :
  Ieee.max (Ieee.Fin a) (Ieee.Fin b) = Ieee.Fin (Rmax a b).
Proof.
  unfold Ieee.max, Ieee.lt, Rmax.
  case_bool_decide; destruct (Rle_dec a b); try reflexivity; f_equal; lra.
Qed.

Lemma ieee_log_pos (r : R) :
  0 < r -> Ieee.log (Ieee.Fin r) = Ieee.Fin (ln r).
Proof.
  intros H. unfold Ieee.log. destruct (decide _); [reflexivity | contradiction].
Qed.

Lemma ieee_log_zero (r : R) : r = 0 -> Ieee.log (Ieee.Fin r) = Ieee.NInf.
Proof.
  intros ->. unfold Ieee.log.
  destruct (decide (0 < 0)); [lra|].
  destruct (decide (0 = 0)); [reflexivity | contradiction].
Qed.

(** Zero times a finite number is zero; zero times an infinity or NaN is
    NaN. *)
Lemma ieee_mul_zero (a : R) (b : Ieee.double) :
  a = 0 ->
  (is_finite b -> Ieee.mul (Ieee.Fin a) b = Ieee.Fin 0) /\
  (~ is_finite b -> Ieee.mul (Ieee.Fin a) b = Ieee.NaN).
Proof.
  intros ->. split.
  - intros [l ->]. cbn. f_equal. ring.
  - intros Hno. destruct b as [l| | |]; cbn.
    + exfalso. apply Hno. by exists l.
    + unfold Ieee.signed_inf. destruct (decide (0 = 0)); [reflexivity | contradiction].
    + unfold Ieee.signed_inf. destruct (decide (0 = 0)); [reflexivity | contradiction].
    + reflexivity.
Qed.

(** *** Agreement with the closures over the reals *)

(** Where no operation leaves the finite doubles, the closures with
    exceptional values return the numbers of the closures over the
    reals. *)
Lemma ieee_prs_regular (sp : SprayFlame) (x : list R) (j : nat) :
  m_prs_C sp + m_Tb sp <> 0 ->
  Ieee.prs sp x j = Ieee.Fin (prs sp x j).
Proof.
  intros H. unfold Ieee.prs, prs. cbn [Ieee.add].
  rewrite ieee_div_fin by exact H. cbn [Ieee.sub Ieee.neg Ieee.add].
  rewrite ieee_pow_pos by lra. reflexivity.
Qed.

Lemma ieee_Yrs_regular (sp : SprayFlame) (x : list R) (j : nat) :
  let fl := sp_flow sp in
  let Xrs := prs sp x j / m_press fl in
  m_prs_C sp + m_Tb sp <> 0 ->
  m_press fl <> 0 ->
  m_wt fl !!! c_offset_fuel sp * Xrs + (1 - Xrs) * m_wtm fl !!! j <> 0 ->
  Ieee.Yrs sp x j = Ieee.Fin (Yrs sp x j).
Proof.
  intros fl Xrs HC HP Hden. unfold Ieee.Yrs, Yrs.
  rewrite ieee_prs_regular by exact HC.
  rewrite ieee_div_fin by exact HP.
  cbn [Ieee.mul Ieee.sub Ieee.neg Ieee.add].
  rewrite ieee_div_fin by exact Hden. reflexivity.
Qed.

Lemma ieee_rhol_constant (sp : SprayFlame) (x : list R) (j : nat) :
  only_A_set sp -> Ieee.rhol sp x j = Ieee.Fin (rhol sp x j).
Proof.
  unfold only_A_set, Ieee.rhol, rhol. rewrite !Rminus_0_r.
  intros (HB & HC & HD).
  rewrite !bool_decide_eq_true_2 by assumption. reflexivity.
Qed.

Lemma ieee_rhol_dippr (sp : SprayFlame) (x : list R) (j : nat) :
  ~ only_A_set sp ->
  0 < m_rhol_B sp ->
  m_rhol_C sp <> 0 ->
  0 < 1 - Tl sp x j / m_rhol_C sp ->
  Ieee.rhol sp x j = Ieee.Fin (rhol sp x j).
Proof.
  unfold only_A_set, Ieee.rhol, rhol. rewrite !Rminus_0_r.
  intros Hno HB HC Hbase.
  destruct (_ && _) eqn:E.
  - exfalso. apply Hno. apply andb_prop in E as [E HD].
    apply andb_prop in E as [HB' HC'].
    apply bool_decide_eq_true_1 in HB', HC', HD. auto.
  - rewrite ieee_div_fin by exact HC.
    cbn [Ieee.sub Ieee.neg Ieee.add].
    rewrite ieee_pow_pos by exact Hbase.
    cbn [Ieee.add]. rewrite ieee_pow_pos by exact HB.
    rewrite ieee_div_fin; [reflexivity|].
    unfold Rpower. apply Rgt_not_eq, exp_pos.
Qed.

Lemma ieee_dl_regular (sp : SprayFlame) (x : list R) (j : nat) :
  Ieee.rhol sp x j = Ieee.Fin (rhol sp x j) ->
  (ml sp x j < sqrt_dbl_min \/ 0 < rhol sp x j) ->
  Ieee.dl sp x j = Ieee.Fin (dl sp x j).
Proof.
  intros Hrho Hcase. unfold Ieee.dl, dl.
  destruct (decide _) as [_|Hbig]; [reflexivity|].
  destruct Hcase as [Hsmall|Hpos]; [contradiction|].
  rewrite Hrho. cbn [Ieee.mul].
  pose proof PI_RGT_0 as HPi. pose proof sqrt_dbl_min_pos as Hs.
  rewrite ieee_div_fin by (unfold Pi; lra).
  rewrite ieee_div_fin by lra.
  apply ieee_pow_pos.
  apply Rdiv_lt_0_compat; [|exact Hpos].
  apply Rdiv_lt_0_compat; [lra | exact HPi].
Qed.

Lemma ieee_mdot_regular (sp : SprayFlame) (x : list R) (j : nat) :
  Ieee.Yrs sp x j = Ieee.Fin (Yrs sp x j) ->
  Ieee.dl sp x j = Ieee.Fin (dl sp x j) ->
  -1 < spalding sp x j ->
  Ieee.mdot sp x j = Ieee.Fin (mdot sp x j).
Proof.
  intros HY Hd HB. unfold Ieee.mdot, mdot. rewrite HY, Hd.
  cbn [Ieee.sub Ieee.neg Ieee.add Ieee.mul].
  rewrite ieee_max_fin.
  pose proof sqrt_dbl_min_pos as Hs.
  pose proof (Rmax_r (1 + - Yrs sp x j) sqrt_dbl_min) as Hm.
  rewrite ieee_div_fin by lra.
  cbn [Ieee.add]. rewrite ieee_log_pos; [reflexivity|].
  unfold spalding in HB. unfold Rminus in HB. lra.
Qed.

Lemma ieee_q_regular (sp : SprayFlame) (x : list R) (j : nat) :
  Ieee.mdot sp x j = Ieee.Fin (mdot sp x j) ->
  Ieee.dl sp x j = Ieee.Fin (dl sp x j) ->
  Ieee.q sp x j = Ieee.Fin (q sp x j).
Proof.
  intros Hm Hd. unfold Ieee.q, q. rewrite Hm, Hd. cbn [Ieee.le].
  case_bool_decide as Hguard; destruct (decide _) as [Hle|Hgt];
    try reflexivity; try contradiction.
  destruct (mdot_guard_factors sp x j Hgt) as (Hdl & Hrho & HD & Hlog).
  cbn [Ieee.mul].
  assert (H2pi : 2 * Pi <> 0) by (unfold Pi; pose proof PI_RGT_0; lra).
  assert (Hden : 2 * Pi * m_rho (sp_flow sp) !!! j * Dgf sp j * dl sp x j <> 0).
  { do 3 (apply Rmult_integral_contrapositive_currified; [|assumption]).
    exact H2pi. }
  rewrite ieee_div_fin by exact Hden.
  cbn [Ieee.exp Ieee.sub Ieee.neg Ieee.add].
  rewrite ieee_div_fin; [reflexivity|].
  rewrite mdot_factors.
  assert (Hq : 2 * Pi * dl sp x j * m_rho (sp_flow sp) !!! j * Dgf sp j *
               log_term sp x j /
               (2 * Pi * m_rho (sp_flow sp) !!! j * Dgf sp j * dl sp x j)
               = log_term sp x j).
  { revert H2pi. generalize (2 * Pi). intros a Ha. field. auto. }
  rewrite Hq. intros E. apply Hlog.
  assert (Hexp : Rtrigo_def.exp (log_term sp x j) = 1) by lra.
  rewrite <- exp_0 in Hexp. by apply exp_inv in Hexp.
Qed.

(** *** The dry point in pure fuel vapor *)

Lemma ieee_Yrs_wet (x : list R) : Ieee.Yrs sp_wet x 1 = Ieee.Fin (1 / 2).
Proof.
  rewrite ieee_Yrs_regular.
  - f_equal. unfold Yrs, prs. cbn -[Rpower]. unfold bar2Pa.
    replace (4 - 1200 / (-72 + 372)) with 0 by lra.
    rewrite Rpower_O by lra. lra.
  - cbn. lra.
  - cbn. lra.
  - unfold prs. cbn -[Rpower]. unfold bar2Pa.
    replace (4 - 1200 / (-72 + 372)) with 0 by lra.
    rewrite Rpower_O by lra. lra.
Qed.

Lemma ml_dry_1 : ml sp_wet x_dry 1 < sqrt_dbl_min.
Proof. change (ml sp_wet x_dry 1) with 0. apply sqrt_dbl_min_pos. Qed.

Lemma ieee_dl_small (sp : SprayFlame) (x : list R) (j : nat) :
  ml sp x j < sqrt_dbl_min -> Ieee.dl sp x j = Ieee.Fin 0.
Proof.
  intros H. unfold Ieee.dl. destruct (decide _); [reflexivity | contradiction].
Qed.

(** Around a droplet below the threshold the evaporation rate is zero times
    the logarithmic factor. *)
Lemma ieee_mdot_small (sp : SprayFlame) (x : list R) (j : nat) :
  ml sp x j < sqrt_dbl_min ->
  exists a, a = 0 /\
    Ieee.mdot sp x j = Ieee.mul (Ieee.Fin a) (ieee_log_term sp x j).
Proof.
  intros H.
  exists (2 * Pi * 0 * m_rho (sp_flow sp) !!! j * Dgf sp j).
  split; [ring|].
  unfold Ieee.mdot, ieee_log_term. rewrite (ieee_dl_small sp x j H).
  reflexivity.
Qed.

(** In pure fuel vapor (Y_fuel = 1) with a surface mass fraction of 1/2
    the transfer number is -1 and the logarithm is that of zero. *)
Lemma ieee_log_term_dry : ieee_log_term sp_wet x_dry 1 = Ieee.NInf.
Proof.
  unfold ieee_log_term. rewrite ieee_Yrs_wet.
  change (Y (sp_flow sp_wet) x_dry (c_offset_fuel sp_wet) 1) with 1.
  cbn [Ieee.sub Ieee.neg Ieee.add]. rewrite ieee_max_fin.
  pose proof sqrt_dbl_min_small as Hs. pose proof sqrt_dbl_min_pos as Hp.
  rewrite Rmax_left by lra.
  rewrite ieee_div_fin by lra. cbn [Ieee.add].
  apply ieee_log_zero. field.
Qed.

Lemma not_finite_NInf : ~ is_finite Ieee.NInf.
Proof. intros [r Hr]. discriminate. Qed.

Lemma ieee_mdot_dry : Ieee.mdot sp_wet x_dry 1 = Ieee.NaN.
Proof.
  destruct (ieee_mdot_small sp_wet x_dry 1 ml_dry_1) as (a & Ha & ->).
  rewrite ieee_log_term_dry.
  by apply (ieee_mul_zero a Ieee.NInf Ha), not_finite_NInf.
Qed.

(** With a NaN evaporation rate the guard of q does not hold and q is
    NaN. *)
Lemma ieee_q_nan (sp : SprayFlame) (x : list R) (j : nat) :
  Ieee.mdot sp x j = Ieee.NaN ->
  Ieee.le (Ieee.mdot sp x j) (Ieee.Fin sqrt_dbl_min) = false /\
  Ieee.q sp x j = Ieee.NaN.
Proof.
  intros H. unfold Ieee.q. rewrite H. split; reflexivity.
Qed.

(** C6.  The code at the failing input: at the second point of [x_dry]
    the liquid mass is 0, below the threshold, and the gas is pure fuel
    vapor (Y_fuel = 1) over a surface mass fraction of 1/2.  The diameter
    is 0, the transfer number is -1, the logarithm of 1 + Bm = 0 is minus
    infinity, and the evaporation rate 2 pi 0 rho D (-inf) is NaN, not
    0. *)
Theorem mdot_without_droplet :
  ml sp_wet x_dry 1 < sqrt_dbl_min /\
  Y (sp_flow sp_wet) x_dry (c_offset_fuel sp_wet) 1 = 1 /\
  Ieee.Yrs sp_wet x_dry 1 = Ieee.Fin (1 / 2) /\
  Ieee.dl sp_wet x_dry 1 = Ieee.Fin 0 /\
  ieee_log_term sp_wet x_dry 1 = Ieee.NInf /\
  Ieee.mdot sp_wet x_dry 1 = Ieee.NaN /\
  Ieee.mdot sp_wet x_dry 1 <> Ieee.Fin 0.
Proof.
  split; [exact ml_dry_1|]. split; [reflexivity|].
  split; [apply ieee_Yrs_wet|].
  split; [apply ieee_dl_small, ml_dry_1|].
  split; [exact ieee_log_term_dry|].
  rewrite ieee_mdot_dry. split; [reflexivity | discriminate].
Qed.

(** C7.  The code at the failing input: at the second point of [x_dry]
    the evaporation rate is NaN, so the guard mdot <= sqrt(min) is false
    and q takes its second branch, where the diameter is 0: the argument
    of exp is mdot divided by 2 pi rho D dl = 0, and q returns NaN. *)
Theorem q_divides_by_zero :
  Ieee.le (Ieee.mdot sp_wet x_dry 1) (Ieee.Fin sqrt_dbl_min) = false /\
  ieee_q_divisor sp_wet x_dry 1 = Ieee.Fin 0 /\
  Ieee.q sp_wet x_dry 1
  = Ieee.div
      (Ieee.mul (Ieee.Fin (cpgf sp_wet x_dry 1))
         (Ieee.sub (Ieee.Fin (T (sp_flow sp_wet) x_dry 1))
            (Ieee.Fin (Tl sp_wet x_dry 1))))
      (Ieee.sub
         (Ieee.exp (Ieee.div (Ieee.mdot sp_wet x_dry 1)
                             (ieee_q_divisor sp_wet x_dry 1)))
         (Ieee.Fin 1)) /\
  Ieee.q sp_wet x_dry 1 = Ieee.NaN.
Proof.
  destruct (ieee_q_nan sp_wet x_dry 1 ieee_mdot_dry) as [Hguard Hq].
  split; [exact Hguard|]. split; [|split; [|exact Hq]].
  - unfold ieee_q_divisor. rewrite (ieee_dl_small _ _ _ ml_dry_1).
    cbn [Ieee.mul]. f_equal. ring.
  - unfold Ieee.q, ieee_q_divisor. rewrite Hguard. reflexivity.
Qed.

(** X18.  A droplet mass below the threshold gives the diameter 0 and
    switches both drag forces off.  The evaporation rate and the
    convective heat transfer are 0 when the logarithmic factor log(1 + Bm)
    is a finite number; when it is not (1 + Bm <= 0, or a NaN or infinite
    transfer number) both are NaN. *)
Theorem small_droplet_no_exchange (sp : SprayFlame) (x : list R) (j : nat) :
  ml sp x j < sqrt_dbl_min ->
  Ieee.dl sp x j = Ieee.Fin 0 /\
  Ieee.Fr sp x j = Ieee.Fin 0 /\
  Ieee.fz sp x j = Ieee.Fin 0 /\
  (is_finite (ieee_log_term sp x j) ->
   Ieee.mdot sp x j = Ieee.Fin 0 /\ Ieee.q sp x j = Ieee.Fin 0) /\
  (~ is_finite (ieee_log_term sp x j) ->
   Ieee.mdot sp x j = Ieee.NaN /\ Ieee.q sp x j = Ieee.NaN).
Proof.
  intros Hsmall. pose proof (ieee_dl_small sp x j Hsmall) as Hd.
  destruct (ieee_mdot_small sp x j Hsmall) as (a & Ha & Hm).
  destruct (ieee_mul_zero a (ieee_log_term sp x j) Ha) as [Hfin Hexc].
  split; [exact Hd|]. split; [|split; [|split]].
  - unfold Ieee.Fr. rewrite Hd. cbn. f_equal. ring.
  - unfold Ieee.fz. rewrite Hd. cbn. f_equal. ring.
  - intros Hlog. rewrite Hm, (Hfin Hlog). split; [reflexivity|].
    unfold Ieee.q. rewrite Hm, (Hfin Hlog). cbn [Ieee.le].
    rewrite bool_decide_eq_true_2; [reflexivity|].
    left. apply sqrt_dbl_min_pos.
  - intros Hlog. assert (HN : Ieee.mdot sp x j = Ieee.NaN).
    { rewrite Hm. exact (Hexc Hlog). }
    split; [exact HN|]. by apply ieee_q_nan.
Qed.

Lemma small_droplet_no_exchange_witness :
  (Ieee.mdot sp_wet x_wet 1 = Ieee.Fin 0 /\ Ieee.q sp_wet x_wet 1 = Ieee.Fin 0) /\
  (Ieee.mdot sp_wet x_dry 1 = Ieee.NaN /\ Ieee.q sp_wet x_dry 1 = Ieee.NaN).
Proof.
  split.
  - destruct (small_droplet_no_exchange sp_wet x_wet 1) as (_ & _ & _ & H & _).
    + rewrite ml_wet_1. apply sqrt_dbl_min_pos.
    + apply H. exists (ln 2). unfold ieee_log_term. rewrite ieee_Yrs_wet.
      change (Y (sp_flow sp_wet) x_wet (c_offset_fuel sp_wet) 1) with 0.
      cbn [Ieee.sub Ieee.neg Ieee.add]. rewrite ieee_max_fin.
      pose proof sqrt_dbl_min_small as Hs. pose proof sqrt_dbl_min_pos as Hp.
      rewrite Rmax_left by lra.
      rewrite ieee_div_fin by lra. cbn [Ieee.add].
      assert (E : 1 + (1 / 2 + - 0) / (1 + - (1 / 2)) = 2) by field.
      rewrite E. rewrite ieee_log_pos by lra. reflexivity.
  - destruct (small_droplet_no_exchange sp_wet x_dry 1) as (_ & _ & _ & _ & H).
    + exact ml_dry_1.
    + apply H. rewrite ieee_log_term_dry. exact not_finite_NInf.
Defined.

Lemma ieee_pow_10_inf :
  Ieee.pow (Ieee.Fin 10) Ieee.PInf = Ieee.PInf /\
  Ieee.pow (Ieee.Fin 10) Ieee.NInf = Ieee.Fin 0.
Proof.
  unfold Ieee.pow.
  destruct (decide (Rabs 10 < 1)) as [Hlt|_].
  { rewrite Rabs_pos_eq in Hlt by lra. lra. }
  destruct (decide (Rabs 10 = 1)) as [Heq|_].
  { rewrite Rabs_pos_eq in Heq by lra. lra. }
  split; reflexivity.
Qed.



(** ** The cached thermodynamic properties *)

Section UpdateThermoProperties.

Variables density meanMolecularWeight cp_mass : ThermoPhase -> R.

Lemma updateThermo_loop_spec (x : list R) (n : nat) :
  forall (j0 : nat) (d : FlowState),
    let fl := fs_flow d in
    (j0 + n <= length (m_rho fl))%nat ->
    (j0 + n <= length (m_wtm fl))%nat ->
    (j0 + n <= length (m_cp fl))%nat ->
    exists d',
      updateThermo_loop density meanMolecularWeight cp_mass x n j0 d = Some d' /\
      fs_flow d'
      = with_caches (m_rho (fs_flow d')) (m_wtm (fs_flow d'))
          (m_cp (fs_flow d')) fl /\
      (length (m_rho (fs_flow d')) = length (m_rho fl) /\
       length (m_wtm (fs_flow d')) = length (m_wtm fl) /\
       length (m_cp (fs_flow d')) = length (m_cp fl)) /\
      fs_thermo d'
      = match n with
        | O => fs_thermo d
        | S n' => point_state fl x (j0 + n')
        end /\
      (forall j, (j0 <= j < j0 + n)%nat ->
         m_rho (fs_flow d') !! j = Some (density (point_state fl x j)) /\
         m_wtm (fs_flow d') !! j
         = Some (meanMolecularWeight (point_state fl x j)) /\
         m_cp (fs_flow d') !! j = Some (cp_mass (point_state fl x j))) /\
      (forall j, ~ (j0 <= j < j0 + n)%nat ->
         m_rho (fs_flow d') !! j = m_rho fl !! j /\
         m_wtm (fs_flow d') !! j = m_wtm fl !! j /\
         m_cp (fs_flow d') !! j = m_cp fl !! j).
Proof.
  induction n as [|n IH]; intros j0 d fl Hr Hw Hc.
  - exists d. cbn [updateThermo_loop]. repeat split; try lia.
    unfold fl. by destruct d as [[] ?].
  - cbn [updateThermo_loop]. cbn [fs_flow setGas]. fold fl.
    destruct (decide _) as [_|Hno]; [|exfalso; apply Hno; lia].
    set (th := {| th_T := T fl x j0; th_P := m_press fl;
                  th_Y := map (λ k : nat, Y fl x k j0) (seq 0 (m_nsp fl)) |}).
    change th with (point_state fl x j0).
    set (d1 := {| fs_flow := _; fs_thermo := _ |}).
    destruct (IH (S j0) d1) as (d' & Hrun & Hfr & (Hl1 & Hl2 & Hl3) & Hth & Hin & Hout).
    { unfold d1. cbn. rewrite length_insert. lia. }
    { unfold d1. cbn. rewrite length_insert. lia. }
    { unfold d1. cbn. rewrite length_insert. lia. }
    unfold d1 in Hfr, Hl1, Hl2, Hl3, Hth, Hin, Hout.
    cbn [fs_flow fs_thermo with_caches m_rho m_wtm m_cp] in Hfr, Hl1, Hl2, Hl3, Hth, Hin, Hout.
    rewrite length_insert in Hl1, Hl2, Hl3.
    exists d'. split; [exact Hrun|]. split; [exact Hfr|].
    split; [auto|]. split; [|split].
    + rewrite Hth. destruct n as [|n'].
      * cbn. by rewrite Nat.add_0_r.
      * replace (j0 + S n')%nat with (S j0 + n')%nat by lia. reflexivity.
    + intros j Hj. destruct (decide (j = j0)) as [->|Hne].
      * destruct (Hout j0 ltac:(lia)) as (-> & -> & ->).
        rewrite !list_lookup_insert_eq by lia. auto.
      * apply (Hin j). lia.
    + intros j Hj. destruct (Hout j ltac:(lia)) as (-> & -> & ->).
      rewrite !list_lookup_insert_ne by lia. auto.
Qed.

(** X25.  updateThermo(x, j0, j1) with j0 <= j1 inside the cache arrays
    completes.  It leaves the thermo object at the state of point j1,
    stores at every point j0 <= j <= j1 the density, the mean molecular
    weight and the heat capacity of the mixture at that point of x, and
    changes no other entry of the three caches and no other member of the
    flow. *)
Theorem updateThermo_refreshes (x : list R) (j0 j1 : nat) (d : FlowState) :
  let fl := fs_flow d in
  (j0 <= j1)%nat ->
  (j1 < length (m_rho fl))%nat ->
  (j1 < length (m_wtm fl))%nat ->
  (j1 < length (m_cp fl))%nat ->
  exists d',
    updateThermo density meanMolecularWeight cp_mass x j0 j1 d = Some d' /\
    fs_thermo d' = point_state fl x j1 /\
    fs_flow d'
    = with_caches (m_rho (fs_flow d')) (m_wtm (fs_flow d'))
        (m_cp (fs_flow d')) fl /\
    (forall j, (j0 <= j <= j1)%nat ->
       m_rho (fs_flow d') !! j = Some (density (point_state fl x j)) /\
       m_wtm (fs_flow d') !! j
       = Some (meanMolecularWeight (point_state fl x j)) /\
       m_cp (fs_flow d') !! j = Some (cp_mass (point_state fl x j))) /\
    (forall j, ~ (j0 <= j <= j1)%nat ->
       m_rho (fs_flow d') !! j = m_rho fl !! j /\
       m_wtm (fs_flow d') !! j = m_wtm fl !! j /\
       m_cp (fs_flow d') !! j = m_cp fl !! j).
Proof.
  intros fl Hle Hr Hw Hc. unfold updateThermo.
  destruct (updateThermo_loop_spec x (S j1 - j0) j0 d)
    as (d' & Hrun & Hfr & _ & Hth & Hin & Hout); try (fold fl; lia).
  exists d'. split; [exact Hrun|]. split; [|split; [exact Hfr|split]].
  - rewrite Hth. fold fl. replace (S j1 - j0)%nat with (S (j1 - j0)) by lia.
    replace (j0 + (j1 - j0))%nat with j1 by lia. reflexivity.
  - intros j Hj. apply Hin. lia.
  - intros j Hj. apply Hout. lia.
Qed.

End UpdateThermoProperties.

Lemma updateThermo_refreshes_witness :
  exists d',
    updateThermo density_gas (fun _ => 28) (fun _ => 1000)
      [1; 0; 300; 0; 1] 0 0 flow_gas = Some d' /\
    m_rho (fs_flow d') !! 0%nat
    = Some (density_gas {| th_T := 300; th_P := 101325; th_Y := [1] |}) /\
    m_visc (fs_flow d') = [1].
Proof.
  destruct (updateThermo_refreshes density_gas (fun _ => 28) (fun _ => 1000)
              [1; 0; 300; 0; 1] 0 0 flow_gas)
    as (d' & Hrun & _ & Hfr & Hin & _); try (cbn; lia).
  exists d'. split; [exact Hrun|]. split.
  - apply (Hin 0%nat). lia.
  - rewrite Hfr. reflexivity.
Defined.
